(** * Kindle notes parser: a shallow embedding of [src/js/parser.js]

    The parser of the repository is the class [KindleNotesParser]
    ([src/js/parser.js]) together with the record class [KindleNote]
    ([src/js/models.js]).  This file embeds both and proves properties of
    them.

    JavaScript strings are sequences of UTF-16 code units; a code unit is
    modelled as an [N] and a string as a [list N].  Regular expressions are
    embedded as syntax trees ([Regex]) that are run by a backtracking matcher
    following the ECMAScript matching rules (priority of alternatives, greedy
    and lazy quantifiers, the empty-iteration check, capture groups,
    [^], [$] and [\b]). *)

From Stdlib Require Import ZArith NArith List String Ascii Bool Lia.
From Stdlib Require Import Sorting.Sorted Sorting.Permutation.
From stdpp Require Import base option list gmap.

Local Open Scope N_scope.

(** ** Strings *)

Abbreviation jschar := N (only parsing).
Abbreviation jsstring := (list N) (only parsing).

(** A string literal of the source, as code units (Basic Latin only). *)
Definition js (s : string) : jsstring :=
  List.map N_of_ascii (list_ascii_of_string s).

Module Char.

(** ECMAScript [LineTerminator]: LF, CR, LS, PS. *)
Definition isLineTerminator (c : jschar) : bool :=
  (c =? 10) || (c =? 13) || (c =? 0x2028) || (c =? 0x2029).

(** ECMAScript [WhiteSpace] together with [LineTerminator]: the set that
    both [String.prototype.trim] and the class escape [\s] use.  It
    contains U+FEFF, the byte-order mark. *)
Definition isSpace (c : jschar) : bool :=
  (c =? 9) || (c =? 10) || (c =? 11) || (c =? 12) || (c =? 13) || (c =? 32)
  || (c =? 0xA0) || (c =? 0x1680)
  || ((0x2000 <=? c) && (c <=? 0x200A))
  || (c =? 0x2028) || (c =? 0x2029) || (c =? 0x202F) || (c =? 0x205F)
  || (c =? 0x3000) || (c =? 0xFEFF).

Definition isDigit (c : jschar) : bool := (48 <=? c) && (c <=? 57).
Definition isUpper (c : jschar) : bool := (65 <=? c) && (c <=? 90).
Definition isLower (c : jschar) : bool := (97 <=? c) && (c <=? 122).

(** The class escape [\w]: [A-Za-z0-9_]. *)
Definition isWord (c : jschar) : bool :=
  isUpper c || isLower c || isDigit c || (c =? 95).

(** [.] without the [s] flag: anything but a line terminator. *)
Definition isDot (c : jschar) : bool := negb (isLineTerminator c).

(** Case mapping of one code unit.  The engine's full Unicode table is not
    part of the repository; the embedding carries its Basic Latin part and
    leaves every other code unit unchanged.  [toUpperCase], [toLowerCase]
    and what is built on them are therefore the engine's on texts of Basic
    Latin code units; the properties that depend on the case of a letter are
    stated for such texts. *)
Definition toUpper (c : jschar) : jschar := if isLower c then c - 32 else c.
Definition toLower (c : jschar) : jschar := if isUpper c then c + 32 else c.

End Char.

Module Str.

(** [s.trim()] *)
Fixpoint trimStart (s : jsstring) : jsstring :=
  match s with
  | c :: t => if Char.isSpace c then trimStart t else s
  | [] => []
  end.

Definition trimEnd (s : jsstring) : jsstring := rev (trimStart (rev s)).

Definition trim (s : jsstring) : jsstring := trimEnd (trimStart s).

Definition toUpperCase (s : jsstring) : jsstring := List.map Char.toUpper s.
Definition toLowerCase (s : jsstring) : jsstring := List.map Char.toLower s.

Definition eqb (a b : jsstring) : bool := bool_decide (a = b).

(** [p] is a prefix of [s]: the rest of [s] after [p], if so. *)
Fixpoint stripPrefix (p s : jsstring) : option jsstring :=
  match p, s with
  | [], _ => Some s
  | a :: p', b :: s' => if a =? b then stripPrefix p' s' else None
  | _ :: _, [] => None
  end.

(** [s.includes(p)] *)
Fixpoint includes (p s : jsstring) : bool :=
  match stripPrefix p s with
  | Some _ => true
  | None => match s with
            | [] => false
            | _ :: t => includes p t
            end
  end.

(** [s.split(sep)] for a string separator.  [cur] is the piece being
    collected, reversed; [fuel] bounds the number of steps by the length of
    the input.  For the empty separator JavaScript yields the code units
    one by one. *)
Fixpoint splitLoop (fuel : nat) (sep : jsstring) (cur : jsstring) (s : jsstring)
  : list jsstring :=
  match fuel with
  | O => [rev cur ++ s]
  | S fuel' =>
      match s with
      | [] => [rev cur]
      | c :: t =>
          match stripPrefix sep s with
          | Some rest => rev cur :: splitLoop fuel' sep [] rest
          | None => splitLoop fuel' sep (c :: cur) t
          end
      end
  end.

Definition split (sep : jsstring) (s : jsstring) : list jsstring :=
  match sep with
  | [] => List.map (fun c => [c]) s
  | _ => splitLoop (S (length s)) sep [] s
  end.

(** [parts.join(sep)] *)
Fixpoint join (sep : jsstring) (parts : list jsstring) : jsstring :=
  match parts with
  | [] => []
  | [p] => p
  | p :: rest => p ++ sep ++ join sep rest
  end.

(** [s.charAt(0)] and [s.slice(1)] *)
Definition charAt0 (s : jsstring) : jsstring := firstn 1 s.
Definition slice1 (s : jsstring) : jsstring := skipn 1 s.

End Str.

(** ** Regular expressions *)

Inductive Regex : Type :=
| REmpty
| RChar (c : jschar)                     (* a literal character *)
| RSet (p : jschar -> bool)              (* a class: [\d], [\s], [.], [[^)]], ... *)
| RSeq (r1 r2 : Regex)
| RAlt (r1 r2 : Regex)
| RQuant (r : Regex) (lo : nat) (hi : option nat) (greedy : bool)
| RGroup (i : nat) (r : Regex)           (* capture group number i *)
| RBol                                   (* ^ *)
| REol                                   (* $ (no m flag) *)
| RWordB.                                (* \b *)

Module Re.

(** The matcher state: the input as a zipper (the consumed part, reversed,
    and the part ahead) and the captures so far. *)
Record MState : Type := mkMState {
  before : jsstring;
  after : jsstring;
  caps : list (option jsstring)
}.

Definition pos (s : MState) : nat := length (before s).

Definition advance (s : MState) : MState :=
  match after s with
  | c :: t => mkMState (c :: before s) t (caps s)
  | [] => s
  end.

(** The text consumed between state [s] and the later state [s']. *)
Definition consumed (s s' : MState) : jsstring :=
  rev (firstn (pos s' - pos s) (before s')).

Definition setCap (i : nat) (v : jsstring) (s : MState) : MState :=
  mkMState (before s) (after s) (<[i := Some v]> (caps s)).

(** [Canonicalize]: with the [i] flag characters are compared after
    upper-casing.  The engine maps no code unit from 128 on to a Basic Latin
    one, so a pattern of Basic Latin characters is matched against any text
    as the engine matches it; a pattern with other letters is not. *)
Definition canon (ic : bool) (c : jschar) : jschar :=
  if ic then Char.toUpper c else c.

Definition isWordAt (l : jsstring) : bool :=
  match l with
  | c :: _ => Char.isWord c
  | [] => false
  end.

Definition atWordBoundary (s : MState) : bool :=
  xorb (isWordAt (before s)) (isWordAt (after s)).

Definition orElse {A} (x : option A) (y : unit -> option A) : option A :=
  match x with
  | Some v => Some v
  | None => y tt
  end.

(** The loop of a quantifier ([RepeatMatcher]).  [m1] matches the
    quantified atom, [cnt] counts the iterations made, [k] is the
    continuation of the quantifier.  Below the minimum [lo] the atom must
    match again; from there on a greedy quantifier tries another iteration
    before [k] and a lazy one tries [k] first.  An iteration beyond the
    minimum that consumes nothing is rejected, so [fuel] need not exceed
    [lo] plus the number of characters ahead. *)
Fixpoint quantLoop (m1 : (MState -> option MState) -> MState -> option MState)
  (lo : nat) (hi : option nat) (greedy : bool)
  (k : MState -> option MState)
  (fuel : nat) (cnt : nat) (s : MState) {struct fuel} : option MState :=
  match fuel with
  | O => None
  | S fuel' =>
      let maxed :=
        match hi with
        | Some h => (h <=? cnt)%nat
        | None => false
        end in
      let again (_ : unit) :=
        if maxed then None else
          m1 (fun s' => if (lo <=? cnt)%nat && (pos s' =? pos s)%nat
                        then None
                        else quantLoop m1 lo hi greedy k fuel' (S cnt) s') s in
      if (cnt <? lo)%nat then again tt
      else if greedy then orElse (again tt) (fun _ => k s)
      else orElse (k s) again
  end.

(** The backtracking matcher, in continuation-passing style as in the
    ECMAScript specification: [rmatch ic r k s] matches [r] at [s] and hands
    every candidate end state to the continuation [k], in priority order,
    until [k] succeeds.  No pattern of the source has a capture group
    under a quantifier, so captures are never reset. *)
Fixpoint rmatch (ic : bool) (r : Regex) (k : MState -> option MState)
  (s : MState) {struct r} : option MState :=
  match r with
  | REmpty => k s
  | RChar c =>
      match after s with
      | x :: _ => if canon ic x =? canon ic c then k (advance s) else None
      | [] => None
      end
  | RSet p =>
      match after s with
      | x :: _ => if p x then k (advance s) else None
      | [] => None
      end
  | RSeq r1 r2 => rmatch ic r1 (rmatch ic r2 k) s
  | RAlt r1 r2 => orElse (rmatch ic r1 k s) (fun _ => rmatch ic r2 k s)
  | RGroup i r1 => rmatch ic r1 (fun s' => k (setCap i (consumed s s') s')) s
  | RQuant r1 lo hi greedy =>
      quantLoop (rmatch ic r1) lo hi greedy k (S (lo + length (after s))) O s
  | RBol => match before s with [] => k s | _ => None end
  | REol => match after s with [] => k s | _ => None end
  | RWordB => if atWordBoundary s then k s else None
  end.

(** The outcome of a successful search: where the match starts and ends,
    and the captures ([None] for a group that did not take part). *)
Record Match : Type := mkMatch {
  m_start : MState;
  m_end : MState
}.

Definition matched (m : Match) : jsstring := consumed (m_start m) (m_end m).

(** [m[i]] for [i >= 1]; [undefined] is [None]. *)
Definition group (i : nat) (m : Match) : option jsstring :=
  match caps (m_end m) !! i with
  | Some (Some v) => Some v
  | _ => None
  end.

(** A capture that the patterns of the source always set when they match. *)
Definition group_ (i : nat) (m : Match) : jsstring :=
  match group i m with
  | Some v => v
  | None => []
  end.

(** Match exactly at the position of the zipper. *)
Definition matchAt (ic : bool) (r : Regex) (ngroups : nat)
  (bef aft : jsstring) : option Match :=
  let s0 := mkMState bef aft (replicate (S ngroups) None) in
  match rmatch ic r (fun s => Some s) s0 with
  | Some s1 => Some (mkMatch s0 s1)
  | None => None
  end.

(** [RegExpBuiltinExec] from the position of the zipper: the leftmost
    position at which the pattern matches. *)
Fixpoint execFrom (ic : bool) (r : Regex) (ngroups : nat)
  (bef aft : jsstring) {struct aft} : option Match :=
  match matchAt ic r ngroups bef aft with
  | Some m => Some m
  | None =>
      match aft with
      | [] => None
      | c :: t => execFrom ic r ngroups (c :: bef) t
      end
  end.

End Re.

(** A regular expression object: the pattern, the number of its capture
    groups and the flags [i] and [g]. *)
Record RegExp : Type := mkRegExp {
  re_pattern : Regex;
  re_groups : nat;
  re_ignoreCase : bool;
  re_global : bool
}.

Module RegExpOps.

(** [s.match(re)] for a regular expression without the [g] flag. *)
Definition exec (re : RegExp) (s : jsstring) : option Re.Match :=
  Re.execFrom (re_ignoreCase re) (re_pattern re) (re_groups re) [] s.

(** The global replacement loop of [RegExp.prototype[Symbol.replace]]:
    after an empty match the search resumes one code unit further. *)
Fixpoint replaceLoop (fuel : nat) (re : RegExp) (f : Re.Match -> jsstring)
  (bef aft : jsstring) : jsstring :=
  match fuel with
  | O => aft
  | S fuel' =>
      match Re.execFrom (re_ignoreCase re) (re_pattern re) (re_groups re) bef aft with
      | None => aft
      | Some m =>
          let skipped := firstn (Re.pos (Re.m_start m) - length bef) aft in
          let e := Re.m_end m in
          if (Re.pos e =? Re.pos (Re.m_start m))%nat then
            match Re.after e with
            | [] => skipped ++ f m
            | c :: t =>
                skipped ++ f m ++ c :: replaceLoop fuel' re f (c :: Re.before e) t
            end
          else
            skipped ++ f m ++ replaceLoop fuel' re f (Re.before e) (Re.after e)
      end
  end.

(** [s.replace(re, ...)]: the first match, or with the [g] flag every match,
    is replaced by [f] of the match. *)
Definition replace (re : RegExp) (f : Re.Match -> jsstring) (s : jsstring)
  : jsstring :=
  if re_global re then replaceLoop (S (length s)) re f [] s
  else
    match exec re s with
    | None => s
    | Some m =>
        firstn (Re.pos (Re.m_start m)) s ++ f m ++ Re.after (Re.m_end m)
    end.

(** [s.split(re)] for a pattern without capture groups: at each position
    the pattern is tried exactly there; a match that ends where the current
    piece starts is ignored. *)
Fixpoint splitLoop (fuel : nat) (re : RegExp) (cur : jsstring)
  (bef aft : jsstring) : list jsstring :=
  match fuel with
  | O => [rev cur ++ aft]
  | S fuel' =>
      match aft with
      | [] => [rev cur]
      | c :: t =>
          match Re.matchAt (re_ignoreCase re) (re_pattern re) (re_groups re) bef aft with
          | Some m =>
              let e := Re.m_end m in
              if (Re.pos e =? length bef - length cur)%nat
              then splitLoop fuel' re (c :: cur) (c :: bef) t
              else rev cur :: splitLoop fuel' re [] (Re.before e) (Re.after e)
          | None => splitLoop fuel' re (c :: cur) (c :: bef) t
          end
      end
  end.

Definition split (re : RegExp) (s : jsstring) : list jsstring :=
  match s with
  | [] =>
      match Re.matchAt (re_ignoreCase re) (re_pattern re) (re_groups re) [] [] with
      | Some _ => []
      | None => [[]]
      end
  | _ => splitLoop (S (length s)) re [] [] s
  end.

End RegExpOps.

(** *** Notation for patterns *)

Definition litN (s : jsstring) : Regex :=
  fold_right (fun c r => RSeq (RChar c) r) REmpty s.

Definition lit (s : string) : Regex := litN (js s).

Definition star (r : Regex) : Regex := RQuant r 0 None true.
Definition plus (r : Regex) : Regex := RQuant r 1 None true.
Definition plusLazy (r : Regex) : Regex := RQuant r 1 None false.
Definition opt (r : Regex) : Regex := RQuant r 0 (Some 1%nat) true.
Definition atLeast (n : nat) (r : Regex) : Regex := RQuant r n None true.

Fixpoint seq (rs : list Regex) : Regex :=
  match rs with
  | [] => REmpty
  | [r] => r
  | r :: rest => RSeq r (seq rest)
  end.

Fixpoint alt (rs : list Regex) : Regex :=
  match rs with
  | [] => REmpty
  | [r] => r
  | r :: rest => RAlt r (alt rest)
  end.

Definition oneOf (s : string) : Regex :=
  RSet (fun c => bool_decide (c ∈ js s)).
Definition noneOf (s : string) : Regex :=
  RSet (fun c => negb (bool_decide (c ∈ js s))).

Definition dot : Regex := RSet Char.isDot.
Definition digit : Regex := RSet Char.isDigit.
Definition space : Regex := RSet Char.isSpace.

(** ** The record class [KindleNote] ([src/js/models.js]) *)

(** The [noteType] strings that [parseMetadata] can produce. *)
Inductive NoteType : Type := Highlight | Bookmark | Note | Unknown.

#[global] Instance NoteType_eq_dec : EqDecision NoteType.
Proof. solve_decision. Defined.

Definition NoteType_toString (t : NoteType) : jsstring :=
  match t with
  | Highlight => js "Highlight"
  | Bookmark => js "Bookmark"
  | Note => js "Note"
  | Unknown => js "Unknown"
  end.

(** A [Date] object: its time value in milliseconds since the epoch, or the
    invalid date, whose time value is NaN. *)
Inductive JSDate : Type :=
| DateValue (t : Z)
| InvalidDate.

#[global] Instance JSDate_eq_dec : EqDecision JSDate.
Proof. solve_decision. Defined.

(** [isNaN(d)] for a [Date] object. *)
Definition isNaN (d : JSDate) : bool :=
  match d with
  | DateValue _ => false
  | InvalidDate => true
  end.

Record KindleNote : Type := mkKindleNote {
  bookTitle : jsstring;
  author : jsstring;
  noteType : NoteType;
  location : jsstring;
  page : option jsstring;
  dateAdded : JSDate;
  content : jsstring
}.

#[global] Instance KindleNote_eq_dec : EqDecision KindleNote.
Proof. solve_decision. Defined.

(** Abrupt and normal completion of a statement or expression. *)
Inductive Completion (A : Type) : Type :=
| Normal (a : A)
| Throw (e : string).
Arguments Normal {A} a.
Arguments Throw {A} e.

(** ** The class [KindleNotesParser] ([src/js/parser.js]) *)

(** *** The patterns of the source *)

Module Pat.

(** [/^\ufeff/] *)
Definition bom : RegExp :=
  mkRegExp (seq [RBol; RChar 0xFEFF]) 0 false false.

(** [/^(.+?)\s*\(([^)]+)\)$/] *)
Definition titleAuthor : RegExp :=
  mkRegExp
    (seq [RBol; RGroup 1 (plusLazy dot); star space; lit "(";
          RGroup 2 (plus (noneOf ")")); lit ")"; REol])
    2 false false.

(** [/Location (\d+(?:-\d+)?)/] *)
Definition locationRe : RegExp :=
  mkRegExp
    (seq [lit "Location ";
          RGroup 1 (seq [plus digit; opt (seq [lit "-"; plus digit])])])
    1 false false.

(** [/page (\d+)/] *)
Definition pageRe : RegExp :=
  mkRegExp (seq [lit "page "; RGroup 1 (plus digit)]) 1 false false.

(** [/Added on (.+?)$/] *)
Definition addedOn : RegExp :=
  mkRegExp (seq [lit "Added on "; RGroup 1 (plusLazy dot); REol]) 1 false false.

(** [/^vdoc\.?pub_?/i] and [/^dokumen\.?pub_?/i] *)
Definition vdocPrefix : RegExp :=
  mkRegExp (seq [RBol; lit "vdoc"; opt (lit "."); lit "pub"; opt (lit "_")])
    0 true false.
Definition dokumenPrefix : RegExp :=
  mkRegExp (seq [RBol; lit "dokumen"; opt (lit "."); lit "pub"; opt (lit "_")])
    0 true false.

(** [/\b\d{6,}\b/g] *)
Definition longNumber : RegExp :=
  mkRegExp (seq [RWordB; atLeast 6 digit; RWordB]) 0 false true.

(** [/[-_]+/g] *)
Definition dashes : RegExp := mkRegExp (plus (oneOf "-_")) 0 false true.

(** [/\s+/g] and, for [split], [/\s+/] *)
Definition spacesG : RegExp := mkRegExp (plus space) 0 false true.
Definition spaces : RegExp := mkRegExp (plus space) 0 false false.

(** [/\s*\([^)]*\)\s*$/g] *)
Definition trailingParens : RegExp :=
  mkRegExp
    (seq [star space; lit "("; star (noneOf ")"); lit ")"; star space; REol])
    0 false true.

(** [/\s*(second edition|first edition|revised|updated)\s*$/i] *)
Definition editionSuffix : RegExp :=
  mkRegExp
    (seq [star space;
          RGroup 1 (alt [lit "second edition"; lit "first edition";
                         lit "revised"; lit "updated"]);
          star space; REol])
    1 true false.

(** [/[-_.]+$/] *)
Definition trailingPunct : RegExp :=
  mkRegExp (seq [plus (oneOf "-_."); REol]) 0 false false.

(** [/[.*+?^${}()|[\]\\]/g] *)
Definition regexSpecial : RegExp :=
  mkRegExp (oneOf ".*+?^${}()|[]\") 0 false true.

(** [/(\d+)/] *)
Definition digits : RegExp := mkRegExp (RGroup 1 (plus digit)) 1 false false.

End Pat.

(** [new RegExp(source, 'i')] for the sources that [cleanBookTitle] builds:
    [\b], an escaped text, [\b\s*$].  In such a source a backslash is followed
    by [b], by [s] or by a syntax character that stands for itself, [*]
    applies to the atom before it, [$] is the end assertion, and every other
    character is a literal. *)
Fixpoint compileAtoms (src : jsstring) (acc : list Regex) : list Regex :=
  match src with
  | [] => rev acc
  | c :: t =>
      if c =? 92 then
        match t with
        | e :: t' =>
            let a := if e =? 98 then RWordB
                     else if e =? 115 then space
                     else RChar e in
            compileAtoms t' (a :: acc)
        | [] => rev (RChar c :: acc)
        end
      else if c =? 36 then compileAtoms t (REol :: acc)
      else if c =? 42 then
        match acc with
        | a :: acc' => compileAtoms t (star a :: acc')
        | [] => compileAtoms t acc
        end
      else compileAtoms t (RChar c :: acc)
  end.

Definition newRegExp_i (src : jsstring) : RegExp :=
  mkRegExp (seq (compileAtoms src [])) 0 true false.

Definition empty_ : Re.Match -> jsstring := fun _ => [].
Definition blank_ : Re.Match -> jsstring := fun _ => js " ".

(** The set of stop words of [cleanBookTitle]. *)
Definition stopWords : list jsstring :=
  List.map js ["the"; "a"; "an"; "and"; "or"; "but"; "in"; "on"; "at"; "to";
               "for"; "of"; "with"; "by"]%string.

(** [escapeRegex(string)]: [string.replace(/[.*+?^${}()|[\]\\]/g, '\\$&')] *)
Definition escapeRegex (s : jsstring) : jsstring :=
  RegExpOps.replace Pat.regexSpecial (fun m => js "\" ++ Re.matched m) s.

(** The callback of [words.map] in [cleanBookTitle]. *)
Definition capitalizeWord (index : nat) (word : jsstring) : jsstring :=
  let lowerWord := Str.toLowerCase word in
  if (index =? 0)%nat || negb (bool_decide (lowerWord ∈ stopWords)) then
    Str.toUpperCase (Str.charAt0 word) ++ Str.toLowerCase (Str.slice1 word)
  else lowerWord.

(** [cleanBookTitle(bookTitle, author)] *)
Definition cleanBookTitle (bookTitle author : jsstring) : jsstring :=
  let cleanTitle := bookTitle in
  let cleanTitle := RegExpOps.replace Pat.vdocPrefix empty_ cleanTitle in
  let cleanTitle := RegExpOps.replace Pat.dokumenPrefix empty_ cleanTitle in
  let cleanTitle := RegExpOps.replace Pat.longNumber empty_ cleanTitle in
  let cleanTitle := RegExpOps.replace Pat.dashes blank_ cleanTitle in
  let cleanTitle := Str.trim (RegExpOps.replace Pat.spacesG blank_ cleanTitle) in
  let cleanTitle :=
    if negb (bool_decide (author = [])) && negb (bool_decide (Str.trim author = []))
    then
      let authorWords := RegExpOps.split Pat.spaces (Str.trim author) in
      let authorPattern :=
        newRegExp_i (js "\b" ++ escapeRegex (Str.trim author) ++ js "\b\s*$") in
      let cleanTitle := Str.trim (RegExpOps.replace authorPattern empty_ cleanTitle) in
      let cleanTitle :=
        fold_left
          (fun cleanTitle word =>
             if (2 <? length word)%nat then
               let wordPattern :=
                 newRegExp_i (js "\b" ++ escapeRegex word ++ js "\b\s*$") in
               Str.trim (RegExpOps.replace wordPattern empty_ cleanTitle)
             else cleanTitle)
          authorWords cleanTitle in
      Str.trim (RegExpOps.replace Pat.trailingParens empty_ cleanTitle)
    else cleanTitle in
  let cleanTitle := RegExpOps.replace Pat.editionSuffix empty_ cleanTitle in
  let cleanTitle := Str.trim (RegExpOps.replace Pat.trailingPunct empty_ cleanTitle) in
  let cleanTitle :=
    match cleanTitle with
    | [] => cleanTitle
    | _ =>
        let words := RegExpOps.split Pat.spaces cleanTitle in
        let capitalizedWords := imap capitalizeWord words in
        Str.join (js " ") capitalizedWords
    end in
  match cleanTitle with
  | [] => bookTitle
  | _ => cleanTitle
  end.

(** [parseTitleAuthor(titleLine)] *)
Definition parseTitleAuthor (titleLine : jsstring) : jsstring * jsstring :=
  let titleLine := RegExpOps.replace Pat.bom empty_ titleLine in
  match RegExpOps.exec Pat.titleAuthor titleLine with
  | Some m => (Str.trim (Re.group_ 1 m), Str.trim (Re.group_ 2 m))
  | None => (titleLine, js "Unknown")
  end.

(** *** Dates and the clock *)

Section Parser.

(** [Date.parse]: the time value of a date string, [None] when it is NaN.
    Which strings beyond the ISO format are recognised is left to the
    engine, so the function is a parameter. *)
Variable Date_parse : jsstring -> option Z.

(** The system clock: [clock n] is the time value that its [n]-th reading
    returns.  The number of readings made so far is threaded through every
    function that constructs [new Date()]. *)
Variable clock : nat -> Z.

(** [new Date()] *)
Definition newDateNow (w : nat) : JSDate * nat := (DateValue (clock w), S w).

(** [new Date(dateStr)] for a string argument: it completes normally, with
    the invalid date when the string is not recognised. *)
Definition newDate (dateStr : jsstring) : Completion JSDate :=
  Normal match Date_parse dateStr with
         | Some t => DateValue t
         | None => InvalidDate
         end.

(** [parseKindleDate(dateStr)]: [null] is [None]. *)
Definition parseKindleDate (dateStr : jsstring) : option JSDate :=
  match newDate dateStr with
  | Normal d => Some d
  | Throw _ => None
  end.

(** [parseMetadata(metadataLine)], returning
    [[noteType, location, page, dateAdded]].  An object is truthy, so
    [kindleDate || new Date()] reads the clock only when [kindleDate] is
    [null]. *)
Definition parseMetadata (metadataLine : jsstring) (w : nat)
  : (NoteType * jsstring * option jsstring * JSDate) * nat :=
  let '(dateAdded, w) := newDateNow w in
  let noteType :=
    if Str.includes (js "Highlight") metadataLine then Highlight
    else if Str.includes (js "Bookmark") metadataLine then Bookmark
    else if Str.includes (js "Note") metadataLine then Note
    else Unknown in
  let location :=
    match RegExpOps.exec Pat.locationRe metadataLine with
    | Some locationMatch => Re.group_ 1 locationMatch
    | None => []
    end in
  let page :=
    match RegExpOps.exec Pat.pageRe metadataLine with
    | Some pageMatch => Some (Re.group_ 1 pageMatch)
    | None => None
    end in
  let '(dateAdded, w) :=
    match RegExpOps.exec Pat.addedOn metadataLine with
    | Some dateMatch =>
        let dateStr := Re.group_ 1 dateMatch in
        match newDate dateStr with
        | Normal dateAdded =>
            if isNaN dateAdded then
              match parseKindleDate dateStr with
              | Some kindleDate => (kindleDate, w)
              | None => newDateNow w
              end
            else (dateAdded, w)
        | Throw _ => newDateNow w
        end
    | None => (dateAdded, w)
    end in
  ((noteType, location, page, dateAdded), w).

(** [entry.split('\n').map(line => line.trim()).filter(line => line)] *)
Definition entryLines (entry : jsstring) : list jsstring :=
  List.filter (fun line => negb (bool_decide (line = [])))
    (List.map Str.trim (Str.split (js (String "010" EmptyString)) entry)).

(** [parseEntry(entry)]: [null] is [None]. *)
Definition parseEntry (entry : jsstring) (w : nat) : option KindleNote * nat :=
  let lines := entryLines entry in
  match lines with
  | line0 :: line1 :: rest =>
      let '(bookTitle, author) := parseTitleAuthor line0 in
      let '((noteType, location, page, dateAdded), w) := parseMetadata line1 w in
      let content := Str.join (js (String "010" EmptyString)) rest in
      (Some (mkKindleNote bookTitle author noteType location page dateAdded content), w)
  | _ => (None, w)
  end.

(** The fields of a [KindleNotesParser].  [books] is a plain object used as
    a map from titles to arrays. *)
Record ParserState : Type := mkParser {
  notes : list KindleNote;
  books : gmap jsstring (list KindleNote)
}.

(** The properties that the object [{}] inherits from [Object.prototype]:
    the standard ones and the legacy accessors.  Each of them is a function
    or, for [__proto__], an object; none has a [push] method. *)
Definition Object_prototype_keys : list jsstring :=
  List.map js ["constructor"; "hasOwnProperty"; "isPrototypeOf";
               "propertyIsEnumerable"; "toLocaleString"; "toString";
               "valueOf"; "__proto__"; "__defineGetter__";
               "__defineSetter__"; "__lookupGetter__";
               "__lookupSetter__"]%string.

(** The value of [this.books[key]]. *)
Inductive PropValue : Type :=
| OwnArray (a : list KindleNote)
| Inherited
| Undefined.

Definition getBook (b : gmap jsstring (list KindleNote)) (key : jsstring)
  : PropValue :=
  match b !! key with
  | Some a => OwnArray a
  | None =>
      if bool_decide (key ∈ Object_prototype_keys) then Inherited
      else Undefined
  end.

(** The body of the [forEach] callback of [parseFile] once a note has been
    parsed: push it onto [notes], create the group if [this.books[title]]
    is falsy, push the note onto the group. *)
Definition addNote (note : KindleNote) (p : ParserState)
  : ParserState * Completion unit :=
  let notes1 := notes p ++ [note] in
  let key := bookTitle note in
  let books1 :=
    match getBook (books p) key with
    | Undefined => <[key := []]> (books p)
    | _ => books p
    end in
  match getBook books1 key with
  | OwnArray a => (mkParser notes1 (<[key := a ++ [note]]> books1), Normal tt)
  | Inherited =>
      (mkParser notes1 books1,
       Throw "TypeError: this.books[note.bookTitle].push is not a function")
  | Undefined =>
      (mkParser notes1 books1,
       Throw "TypeError: Cannot read properties of undefined")
  end.

(** The [forEach] callback of [parseFile]. *)
Definition parseFileStep (entry : jsstring) (p : ParserState) (w : nat)
  : ParserState * nat * Completion unit :=
  let trimmedEntry := Str.trim entry in
  match trimmedEntry with
  | [] => (p, w, Normal tt)
  | _ =>
      match parseEntry trimmedEntry w with
      | (Some note, w') => let '(p', c) := addNote note p in (p', w', c)
      | (None, w') => (p, w', Normal tt)
      end
  end.

(** [entries.forEach(...)]: an exception ends the loop. *)
Fixpoint forEachEntry (entries : list jsstring) (p : ParserState) (w : nat)
  : ParserState * nat * Completion unit :=
  match entries with
  | [] => (p, w, Normal tt)
  | entry :: rest =>
      match parseFileStep entry p w with
      | (p', w', Normal _) => forEachEntry rest p' w'
      | (p', w', Throw e) => (p', w', Throw e)
      end
  end.

(** [parseFile(content)]: the state of the parser afterwards, the number of
    clock readings and whether the call returned or threw. *)
Definition parseFile (content : jsstring) (w : nat)
  : ParserState * nat * Completion unit :=
  let entries := Str.split (js "==========") content in
  forEachEntry entries (mkParser [] ∅) w.

End Parser.

Arguments notes p : assert.
Arguments books p : assert.

(** *** Statistics *)

(** The object that [getStatistics] returns. *)
Module Stats.
Record t : Type := mk {
  totalNotes : nat;
  totalBooks : nat;
  highlights : nat;
  bookmarks : nat;
  notes : nat
}.

(** [Object.entries] of the object: its properties, in order. *)
Definition entries (s : t) : list (string * nat) :=
  [("totalNotes", totalNotes s); ("totalBooks", totalBooks s);
   ("highlights", highlights s); ("bookmarks", bookmarks s);
   ("notes", notes s)]%string.
End Stats.

(** [this.notes.filter(n => n.noteType === kind).length] *)
Definition countKind (kind : NoteType) (l : list KindleNote) : nat :=
  length (List.filter (fun n => bool_decide (noteType n = kind)) l).

(** [getStatistics()]; [Object.keys(this.books).length] is the number of own
    properties of [books]. *)
Definition getStatistics (p : ParserState) : Stats.t :=
  Stats.mk (length (notes p)) (size (books p))
    (countKind Highlight (notes p))
    (countKind Bookmark (notes p))
    (countKind Note (notes p)).

(** *** Sorting by location *)

(** The numbers that [extractLocationNumber] can return: a non-negative
    integer that a double represents, or [Infinity]. *)
Inductive JSNumber : Type :=
| Finite (z : Z)
| Infinity.

#[global] Instance JSNumber_eq_dec : EqDecision JSNumber.
Proof. solve_decision. Defined.

(** The value of a run of decimal digits. *)
Definition digitsValue (ds : jsstring) : Z :=
  fold_left (fun acc d => (10 * acc + (Z.of_N d - 48))%Z) ds 0%Z.

(** The Number value of a non-negative integer: the nearest double, ties to
    the even significand, and [Infinity] from [2^1024] on. *)
Definition toNumber (n : Z) : JSNumber :=
  let e := (Z.log2 n - 52)%Z in
  if (e <=? 0)%Z then Finite n
  else
    let q := Z.shiftr n e in
    let r := (n - Z.shiftl q e)%Z in
    let half := Z.shiftl 1 (e - 1) in
    let q' := if (half <? r)%Z || ((r =? half)%Z && Z.odd q) then (q + 1)%Z else q in
    let v := Z.shiftl q' e in
    if (2 ^ 1024 <=? v)%Z then Infinity else Finite v.

(** [parseInt(s)] for a string of decimal digits.  (For more than twenty
    significant digits an engine may round less precisely.) *)
Definition parseInt (ds : jsstring) : JSNumber := toNumber (digitsValue ds).

(** [extractLocationNumber(locationStr)] *)
Definition extractLocationNumber (locationStr : jsstring) : JSNumber :=
  match locationStr with
  | [] => Finite 0
  | _ =>
      match RegExpOps.exec Pat.digits locationStr with
      | Some m => parseInt (Re.group_ 1 m)
      | None => Finite 0
      end
  end.

(** The sign of [a - b]; [Infinity - Infinity] is NaN, which
    [Array.prototype.sort] takes as [+0]. *)
Definition subtractSign (a b : JSNumber) : comparison :=
  match a, b with
  | Finite x, Finite y => (x ?= y)%Z
  | Finite _, Infinity => Lt
  | Infinity, Finite _ => Gt
  | Infinity, Infinity => Eq
  end.

(** The comparator that [sortNotesByLocation] passes to [sort]. *)
Definition compareLocation (a b : KindleNote) : comparison :=
  let aLocation := extractLocationNumber (location a) in
  let bLocation := extractLocationNumber (location b) in
  subtractSign aLocation bLocation.

(** [Array.prototype.sort(comparefn)] on the elements of an array.  The
    language fixes the result for a consistent comparator: the sort is stable
    (ECMAScript 2019).  The embedding computes it by insertion from the
    right, placing an element before the elements it does not exceed. *)
Module ArraySort.
Section Sort.
Context {A : Type} (comparefn : A -> A -> comparison).

Fixpoint insert (x : A) (l : list A) : list A :=
  match l with
  | [] => [x]
  | y :: l' =>
      match comparefn x y with
      | Gt => y :: insert x l'
      | _ => x :: l
      end
  end.

Definition sort (l : list A) : list A := fold_right insert [] l.
End Sort.
End ArraySort.

(** Arrays are objects: a variable holds a reference, and [sort] works on the
    array behind it.  The store maps references to array contents. *)
Abbreviation ref := nat (only parsing).
Abbreviation Store := (gmap nat (list KindleNote)) (only parsing).

(** [arr.sort(comparefn)]: sorts the array in the store and returns [arr]. *)
Definition Array_sort (comparefn : KindleNote -> KindleNote -> comparison)
  (arr : ref) (h : Store) : ref * Store :=
  (arr, alter (ArraySort.sort comparefn) arr h).

(** [sortNotesByLocation(notes)] *)
Definition sortNotesByLocation (notes : ref) (h : Store) : ref * Store :=
  Array_sort compareLocation notes h.

(** ** What a pattern matches, declaratively *)

Module ReSpec.
Import Re.

(** The iterations of a quantifier: [Iter M lo hi cnt s s'] holds when
    iterating the relation [M] of the atom, [cnt] iterations having been
    made, can lead from [s] to [s']. *)
Inductive Iter (M : MState -> MState -> Prop) (lo : nat) (hi : option nat)
  : nat -> MState -> MState -> Prop :=
| Iter_stop cnt s :
    (lo <= cnt)%nat -> Iter M lo hi cnt s s
| Iter_step cnt s s1 s2 :
    (forall h, hi = Some h -> (cnt < h)%nat) ->
    M s s1 ->
    ((lo <= cnt)%nat -> pos s1 <> pos s) ->
    Iter M lo hi (S cnt) s1 s2 ->
    Iter M lo hi cnt s s2.

(** [Matches ic r s s']: the pattern [r] can take the matcher from state
    [s] to state [s'], whatever the priorities. *)
Fixpoint Matches (ic : bool) (r : Regex) (s s' : MState) : Prop :=
  match r with
  | REmpty => s' = s
  | RChar c =>
      exists x t, after s = x :: t /\ canon ic x = canon ic c /\ s' = advance s
  | RSet p =>
      exists x t, after s = x :: t /\ p x = true /\ s' = advance s
  | RSeq r1 r2 => exists s1, Matches ic r1 s s1 /\ Matches ic r2 s1 s'
  | RAlt r1 r2 => Matches ic r1 s s' \/ Matches ic r2 s s'
  | RQuant r1 lo hi _ => Iter (Matches ic r1) lo hi 0 s s'
  | RGroup i r1 =>
      exists s1, Matches ic r1 s s1 /\ s' = setCap i (consumed s s1) s1
  | RBol => before s = [] /\ s' = s
  | REol => after s = [] /\ s' = s
  | RWordB => atWordBoundary s = true /\ s' = s
  end.

(** [s'] lies [u] further in the same input as [s]. *)
Definition Ahead (u : jsstring) (s s' : MState) : Prop :=
  after s = u ++ after s' /\ before s' = rev u ++ before s.

(** The state in which a search tries a position. *)
Definition start (n : nat) (bef aft : jsstring) : MState :=
  mkMState bef aft (replicate (S n) None).

End ReSpec.

(** ** The vocabulary of the statements *)

(** The part of the title pattern after the title group:
    [\s*\(([^)]+)\)$]. *)
Definition titleAuthorRest : Regex :=
  seq [star space; lit "("; RGroup 2 (plus (noneOf ")")); lit ")"; REol].

(** A line of the shape title, white space, parenthesised author: the title
    is not empty and has no line terminator (it is matched by [.+?]), the
    author is not empty and has no closing parenthesis. *)
Definition TitleAuthorShape (line t ws a : jsstring) : Prop :=
  line = t ++ ws ++ js "(" ++ a ++ js ")" /\
  t <> [] /\ Forall (fun c => Char.isDot c = true) t /\
  Forall (fun c => Char.isSpace c = true) ws /\
  a <> [] /\ Forall (fun c => c <> 41) a.

(** The line without a leading byte-order mark. *)
Definition stripBOM (l : jsstring) : jsstring :=
  match l with
  | c :: t => if c =? 0xFEFF then t else l
  | [] => []
  end.

(** [a] may stand before [b] in an array sorted by [comparefn]. *)
Definition notAfter {A : Type} (comparefn : A -> A -> comparison) (a b : A) : Prop :=
  comparefn a b <> Gt.

(** The number by which a record is sorted. *)
Definition locationKey (n : KindleNote) : JSNumber :=
  extractLocationNumber (location n).

(** The order of the numbers behind the sign of [a - b]. *)
Definition numLe (a b : JSNumber) : Prop := subtractSign a b <> Gt.

(** Decimal digits and the other code units. *)
Definition Digit (c : jschar) : Prop := Char.isDigit c = true.
Definition NonDigit (c : jschar) : Prop := Char.isDigit c = false.

(** A string without digits, a non-empty run of digits, a string that does
    not go on with a digit. *)
Definition nonDigits (s : jsstring) : Prop := Forall NonDigit s.
Definition digitRun (s : jsstring) : Prop := Forall Digit s /\ s <> [].
Definition noDigitAhead (s : jsstring) : Prop :=
  match s with
  | [] => True
  | c :: _ => NonDigit c
  end.

(** The records of [l] whose title is [k], in the order of [l]. *)
Definition groupOf (k : jsstring) (l : list KindleNote) : list KindleNote :=
  List.filter (fun n => bool_decide (bookTitle n = k)) l.

(** The groups of [books] are exactly the non-empty [groupOf] lists. *)
Definition grouped (p : ParserState) : Prop :=
  forall k, books p !! k = match groupOf k (notes p) with
                           | [] => None
                           | g => Some g
                           end.

(** All group arrays, one after the other ([Object.values(books).flat()]). *)
Definition allGroups (p : ParserState) : list KindleNote :=
  concat (List.map snd (map_to_list (books p))).

(** No record and no group bears the name of an inherited property. *)
Definition ownTitlesOnly (p : ParserState) : Prop :=
  (forall n, n ∈ notes p -> bookTitle n ∉ Object_prototype_keys) /\
  (forall k, is_Some (books p !! k) -> k ∉ Object_prototype_keys).

(** Two records that agree on every field but [dateAdded]. *)
Definition sameButDate (n1 n2 : KindleNote) : Prop :=
  bookTitle n1 = bookTitle n2 /\ author n1 = author n2 /\
  noteType n1 = noteType n2 /\ location n1 = location n2 /\
  page n1 = page n2 /\ content n1 = content n2.

(** The metadata line of the entry, if it has one, has an "Added on " clause. *)
Definition hasDateClause (entry : jsstring) : Prop :=
  match entryLines entry with
  | _ :: line1 :: _ => RegExpOps.exec Pat.addedOn line1 <> None
  | _ => True
  end.

(** Two records of the same entry, parsed under two clocks: equal but for the
    date, and the dates are equal or both read from the clock. *)
Definition sameEntry (clock1 clock2 : nat -> Z) (n1 n2 : KindleNote) : Prop :=
  sameButDate n1 n2 /\
  (dateAdded n1 = dateAdded n2 \/
   exists i j, dateAdded n1 = DateValue (clock1 i) /\
               dateAdded n2 = DateValue (clock2 j)).

(** The states of two parsers that have parsed the same entries. *)
Definition sameParse (clock1 clock2 : nat -> Z) (p1 p2 : ParserState) : Prop :=
  Forall2 (sameEntry clock1 clock2) (notes p1) (notes p2) /\
  dom (books p1) = dom (books p2).

(** ** Inputs of the examples *)

Definition nl : string := String "010" EmptyString.

(** The end-to-end scenario of the specification. *)
Definition scenario : jsstring :=
  js ("Deep Work (Cal Newport)" ++ nl ++
      "- Your Highlight on Location 150-152 | Added on Monday, January 1, 2024 12:00:00 PM" ++ nl ++
      nl ++
      "Focus is the new IQ." ++ nl ++
      "==========" ++ nl ++
      "Deep Work (Cal Newport)" ++ nl ++
      "- Your Bookmark on Location 300 | Added on Monday, January 1, 2024 1:00:00 PM" ++ nl ++
      "==========" ++ nl)%string.

(** An entry without author and without metadata whose first line is the
    name of a property that every object inherits. *)
Definition junkEntry : jsstring := js ("constructor" ++ nl ++ "???")%string.

(** A well-formed clipping of a book whose title is such a name. *)
Definition inheritedTitleClipping : jsstring :=
  js ("constructor (Jane Doe)" ++ nl ++
      "- Your Highlight on Location 12 | Added on 2024-01-01T12:00:00.000Z" ++ nl ++
      nl ++
      "Objects are built by their constructor." ++ nl ++
      "==========" ++ nl)%string.

(** A clipping file with one highlight and two entries of unknown kind. *)
Definition mixedKinds : jsstring :=
  js ("Deep Work (Cal Newport)" ++ nl ++
      "- Your Highlight on Location 150-152 | Added on 2024-01-01T12:00:00.000Z" ++ nl ++
      "Focus is the new IQ." ++ nl ++
      "==========" ++ nl ++
      "Deep Work (Cal Newport)" ++ nl ++
      "- Your Clip on Location 200" ++ nl ++
      "==========" ++ nl ++
      "Deep Work (Cal Newport)" ++ nl ++
      "- Your Clip on Location 201" ++ nl ++
      "==========" ++ nl)%string.

(** A text without a date clause. *)
Definition undatedClipping : jsstring :=
  js ("Deep Work (Cal Newport)" ++ nl ++
      "- Your Highlight on Location 150-152" ++ nl ++
      nl ++
      "Focus is the new IQ." ++ nl ++
      "==========" ++ nl)%string.

(** A metadata line whose date no engine recognises. *)
Definition undatedLine : jsstring :=
  js "- Your Highlight on Location 150-152 | Added on not a date".

(** A record at a given location. *)
Definition atLocation (loc : string) : KindleNote :=
  mkKindleNote (js "Deep Work") (js "Cal Newport") Highlight (js loc) None
    InvalidDate (js "Focus is the new IQ.").

(** A store with one array, as [showBookNotes] finds it in [books]. *)
Definition shelf : Store :=
  {[ 7%nat := [atLocation "10"; atLocation "2"; atLocation "10-20"] ]}.

(** A store with two records whose locations lie beyond the integers that a
    double holds exactly. *)
Definition farShelf : Store :=
  {[ 7%nat := [atLocation "9007199254740993"; atLocation "9007199254740992"] ]}.

(** The time values of a clock that is read in an example. *)
Definition exampleClock (n : nat) : Z := (1704110400000 + Z.of_nat n)%Z.

(** A [Date.parse] that recognises one ISO date and nothing else. *)
Definition exampleDateParse (s : jsstring) : option Z :=
  if bool_decide (s = js "2024-01-01T12:00:00.000Z") then Some 1704110400000%Z
  else None.

(** ** Further vocabulary *)

(** The string has no white space at its start. *)
Definition noLeadingSpace (s : jsstring) : Prop :=
  match s with
  | [] => True
  | c :: _ => Char.isSpace c = false
  end.

(** The string is its own [trim()]. *)
Definition Trimmed (s : jsstring) : Prop := Str.trim s = s.

(** [p] occurs in [s]. *)
Definition Occurs (p s : jsstring) : Prop :=
  exists pre post, s = pre ++ p ++ post.

(** What every parsed record satisfies: the title is not empty, and title,
    author and content are their own [trim()]. *)
Definition tidyRecord (n : KindleNote) : Prop :=
  bookTitle n <> [] /\ Trimmed (bookTitle n) /\ Trimmed (author n) /\
  Trimmed (content n).

(** The locations that [parseMetadata] extracts: a number, or two numbers
    with a hyphen between them. *)
Definition locationToken (s : jsstring) : Prop :=
  exists ds, digitRun ds /\
    (s = ds \/ exists ds2, digitRun ds2 /\ s = ds ++ js "-" ++ ds2).

(** The first number of a location token. *)
Definition startsWithNumber (s ds : jsstring) : Prop :=
  digitRun ds /\
  (s = ds \/ exists ds2, digitRun ds2 /\ s = ds ++ js "-" ++ ds2).

(** The location and the page of a record as [parseMetadata] can set them,
    and the number by which the record is then sorted. *)
Definition wellLocated (n : KindleNote) : Prop :=
  ((location n = [] /\ locationKey n = Finite 0) \/
   (exists ds, startsWithNumber (location n) ds /\ locationKey n = parseInt ds))
  /\ (page n = None \/ exists ds, page n = Some ds /\ digitRun ds).

(** [marker] occurs in [line] with a digit right after it. *)
Definition numberAfter (marker : string) (line : jsstring) : Prop :=
  exists d, Digit d /\ Occurs (js marker ++ [d]) line.

(** The characters that [escapeRegex] escapes, and what it makes of one
    character. *)
Definition isRegexSpecial (c : jschar) : bool :=
  bool_decide (c ∈ js ".*+?^${}()|[]\").

Definition escapeChar (c : jschar) : jsstring :=
  if isRegexSpecial c then [92; c] else [c].

(** The pattern [\b<text>\b\s*$] with every character of [text] a literal. *)
Definition literalAtEnd (text : jsstring) : Regex :=
  seq (RWordB :: List.map RChar text ++ [RWordB; star space; REol]).

(** The records of [l] that are sorted by the number [k], in their order. *)
Definition withKey (k : JSNumber) (l : list KindleNote) : list KindleNote :=
  List.filter (fun n => bool_decide (locationKey n = k)) l.

(** An arrangement [r] of [l] in ascending order of location number that
    keeps records with the same number in their order of [l]. *)
Definition stablySortedFrom (l r : list KindleNote) : Prop :=
  StronglySorted (fun a b => numLe (locationKey a) (locationKey b)) r /\
  forall k, withKey k r = withKey k l.

(** ** Searching ([searchNotes], [getBooksBySearch]) *)

Section Search.

(** [String.prototype.toLowerCase] with the case table of the engine. *)
Variable toLowerCase : jsstring -> jsstring.

(** The callback of [this.notes.filter] in [searchNotes]. *)
Definition matchesSearch (query typeFilter : jsstring) (note : KindleNote) : bool :=
  let lowerQuery := toLowerCase query in
  let matchesQuery :=
    bool_decide (query = [])
    || Str.includes lowerQuery (toLowerCase (content note))
    || Str.includes lowerQuery (toLowerCase (bookTitle note))
    || Str.includes lowerQuery (toLowerCase (author note)) in
  let matchesType :=
    bool_decide (typeFilter = js "all")
    || bool_decide (NoteType_toString (noteType note) = typeFilter) in
  matchesQuery && matchesType.

(** [searchNotes(query, typeFilter)] *)
Definition searchNotes (query typeFilter : jsstring) (p : ParserState)
  : list KindleNote :=
  List.filter (matchesSearch query typeFilter) (notes p).

(** The body of the [forEach] callback of [getBooksBySearch]: create the
    group if [bookGroups[title]] is falsy, push the note onto it. *)
Definition pushGroup (note : KindleNote) (bookGroups : gmap jsstring (list KindleNote))
  : gmap jsstring (list KindleNote) * Completion unit :=
  let key := bookTitle note in
  let groups1 :=
    match getBook bookGroups key with
    | Undefined => <[key := []]> bookGroups
    | _ => bookGroups
    end in
  match getBook groups1 key with
  | OwnArray a => (<[key := a ++ [note]]> groups1, Normal tt)
  | Inherited =>
      (groups1, Throw "TypeError: bookGroups[note.bookTitle].push is not a function")
  | Undefined =>
      (groups1, Throw "TypeError: Cannot read properties of undefined")
  end.

Fixpoint groupNotes (l : list KindleNote) (bookGroups : gmap jsstring (list KindleNote))
  : gmap jsstring (list KindleNote) * Completion unit :=
  match l with
  | [] => (bookGroups, Normal tt)
  | note :: rest =>
      match pushGroup note bookGroups with
      | (groups', Normal _) => groupNotes rest groups'
      | (groups', Throw e) => (groups', Throw e)
      end
  end.

(** [getBooksBySearch(query, typeFilter)] *)
Definition getBooksBySearch (query typeFilter : jsstring) (p : ParserState)
  : Completion (gmap jsstring (list KindleNote)) :=
  let filteredNotes := searchNotes query typeFilter p in
  match groupNotes filteredNotes ∅ with
  | (bookGroups, Normal _) => Normal bookGroups
  | (_, Throw e) => Throw e
  end.

End Search.

(** The groups of a list of records: for each title that occurs, the records
    with that title in their order. *)
Definition groupsOf (l : list KindleNote) (g : gmap jsstring (list KindleNote)) : Prop :=
  forall k, g !! k = match groupOf k l with
                     | [] => None
                     | grp => Some grp
                     end.

(** An entry from which [parseEntry] makes a record: after trimming, it has
    at least two lines that are not blank. *)
Definition usableEntry (entry : jsstring) : bool :=
  (2 <=? length (entryLines (Str.trim entry)))%nat.

(** No occurrence of [sep] starts inside the piece [cur] (reversed) that
    [split] is collecting before the rest [s] of the text. *)
Definition noStart (sep cur s : jsstring) : Prop :=
  forall pre post, rev cur = pre ++ post -> post <> [] ->
    Str.stripPrefix sep (post ++ s) = None.

(** A title and an author as a clipping file writes them on a title line:
    not empty, without white space at the ends; the title has no line
    terminator and no opening parenthesis, the author no closing one. *)
Definition plainTitle (title : jsstring) : Prop :=
  title <> [] /\ Trimmed title /\
  Forall (fun c => Char.isDot c = true) title /\ 40 ∉ title.

Definition plainAuthor (author : jsstring) : Prop :=
  author <> [] /\ Trimmed author /\ 41 ∉ author.

(** ** Exporting highlights (class [KindleNotesApp], [src/js/app.js]) *)

(** The calls that the two export methods make on the rest of the
    application: a notification, the clipboard, a download.  What the page
    does once the clipboard has answered is not modelled. *)
Inductive UICall : Type :=
| showWarning (message title : jsstring)
| showSuccess (message title : jsstring)
| copyToClipboard (text : jsstring)
| downloadTextFile (filename content : jsstring).

(** A text between double quotes, as the templates of the messages have it. *)
Definition quoted (s : jsstring) : jsstring := [34] ++ s ++ [34].

(** The decimal digits of a number, last digit first in the recursion. *)
Fixpoint digitsOf (fuel : nat) (n : N) (acc : jsstring) : jsstring :=
  match fuel with
  | O => acc
  | S fuel' =>
      let acc' := (48 + n mod 10) :: acc in
      if n / 10 =? 0 then acc' else digitsOf fuel' (n / 10) acc'
  end.

(** [`${n}`] for the length of an array. *)
Definition numberToString (n : nat) : jsstring :=
  digitsOf (S n) (N.of_nat n) [].

(** The callback [n => n.noteType === 'Highlight' && n.content.trim()] of
    the filters, as a condition. *)
Definition isHighlightWithText (n : KindleNote) : bool :=
  bool_decide (noteType n = Highlight) &&
  match Str.trim (content n) with
  | [] => false
  | _ => true
  end.

(** [copyBookHighlights(bookTitle)] up to the call of [copyToClipboard];
    [notes.filter] throws when [this.parser.books[bookTitle]] is [undefined]
    or an inherited property. *)
Definition copyBookHighlights (title : jsstring) (p : ParserState)
  : Completion (list UICall) :=
  match getBook (books p) title with
  | OwnArray notes =>
      let highlights := List.filter isHighlightWithText notes in
      let highlightsText :=
        Str.join (js (String "010" (String "010" EmptyString)))
          (List.map (fun n => Str.trim (content n)) highlights) in
      match highlightsText with
      | [] =>
          Normal [showWarning
                    (js "No highlights were found in " ++ quoted title ++
                     js ". This book may only contain notes or bookmarks.")
                    (js "No Highlights Available")]
      | _ => Normal [copyToClipboard highlightsText]
      end
  | Inherited => Throw "TypeError: notes.filter is not a function"
  | Undefined => Throw "TypeError: Cannot read properties of undefined"
  end.

(** The text of one highlight in the export: the cleaned title, a line feed,
    the trimmed content. *)
Definition exportItem (n : KindleNote) : jsstring :=
  cleanBookTitle (bookTitle n) (author n) ++ js (String "010" EmptyString) ++
  Str.trim (content n).

(** [exportAllHighlights()] *)
Definition exportAllHighlights (p : ParserState) : list UICall :=
  let allHighlights :=
    Str.join (js (String "010" (String "010" ("---" ++
                  String "010" (String "010" EmptyString)))))
      (List.map exportItem (List.filter isHighlightWithText (notes p))) in
  match allHighlights with
  | [] =>
      [showWarning
         (js "No highlights were found in your notes. Your file may contain only notes and bookmarks, which are not included in the highlights export.")
         (js "No Highlights to Export")]
  | _ =>
      let highlightCount := length (List.filter isHighlightWithText (notes p)) in
      [downloadTextFile (js "all_kindle_highlights.txt") allHighlights;
       showSuccess
         (js "Successfully exported " ++ numberToString highlightCount ++
          js " highlights to " ++ quoted (js "all_kindle_highlights.txt"))
         (js "Export Complete")]
  end.

(** A text of Basic Latin code units, on which the case mapping of the
    embedding is the engine's, and a record whose title and author are such
    texts. *)
Definition basicLatin (s : jsstring) : Prop := Forall (fun c => c < 128) s.

Definition basicLatinRecord (n : KindleNote) : Prop :=
  basicLatin (bookTitle n) /\ basicLatin (author n).

(** A record that the export methods keep once its content is known to be
    trimmed: a highlight with a content. *)
Definition highlightWithContent (n : KindleNote) : bool :=
  bool_decide (noteType n = Highlight) && negb (bool_decide (content n = [])).

(** ** The metadata line of a clipping *)

(** The metadata line as a Kindle writes it: the kind, the page when the
    book has pages, the location, the date. *)
Definition metadataLineOf (kind : NoteType) (page : option jsstring)
  (location date : jsstring) : jsstring :=
  js "- Your " ++ NoteType_toString kind ++ js " on " ++
  match page with
  | Some pg => js "page " ++ pg ++ js " | "
  | None => []
  end ++
  js "Location " ++ location ++ js " | Added on " ++ date.

(** A date text that can stand at the end of a metadata line without being
    taken for another field: not empty, no line terminator, no name of a
    kind and no "page " in it. *)
Definition plainDate (date : jsstring) : Prop :=
  date <> [] /\ Forall (fun c => Char.isDot c = true) date /\
  ~ Occurs (js "Highlight") date /\ ~ Occurs (js "Bookmark") date /\
  ~ Occurs (js "Note") date /\ ~ Occurs (js "page ") date.

(** ** A clippings file as a Kindle writes it *)

(** What a Kindle records of one clipping: the fields of the title line and
    of the metadata line as texts, and the lines of the content. *)
Record Clipping : Type := mkClipping {
  c_title : jsstring;
  c_author : jsstring;
  c_kind : NoteType;
  c_page : option jsstring;
  c_location : jsstring;
  c_date : jsstring;
  c_lines : list jsstring
}.

Definition delimiter : jsstring := js "==========".

Definition titleLineOf (c : Clipping) : jsstring :=
  c_title c ++ js " (" ++ c_author c ++ js ")".

(** The lines of a clipping: the title line, the metadata line and, when
    there is a content, an empty line and the lines of the content. *)
Definition clippingLines (c : Clipping) : list jsstring :=
  titleLineOf c ::
  metadataLineOf (c_kind c) (c_page c) (c_location c) (c_date c) ::
  match c_lines c with
  | [] => []
  | ls => [] :: ls
  end.

(** A clipping in the file: its lines and the delimiter line, each ended by
    the line break [eol]. *)
Definition clippingText (eol : jsstring) (c : Clipping) : jsstring :=
  Str.join eol (clippingLines c) ++ eol ++ delimiter ++ eol.

Definition clippingsFile (eol : jsstring) (cs : list Clipping) : jsstring :=
  concat (List.map (clippingText eol) cs).

(** The line breaks: LF and CR LF. *)
Definition lineBreak (eol : jsstring) : Prop := eol = [10] \/ eol = [13; 10].

(** A text that can stand in a line of a clipping: no line feed and no
    delimiter in it. *)
Definition inLine (s : jsstring) : Prop :=
  (10 ∉ s) /\ ~ Occurs delimiter s.

(** The clippings that the file format can carry. *)
Definition writable (c : Clipping) : Prop :=
  plainTitle (c_title c) /\ plainAuthor (c_author c) /\
  (forall pg, c_page c = Some pg -> digitRun pg) /\
  locationToken (c_location c) /\
  plainDate (c_date c) /\ Trimmed (c_date c) /\
  Forall (fun l => l <> [] /\ Trimmed l) (c_lines c) /\
  Forall inLine (c_title c :: c_author c :: c_date c :: c_lines c) /\
  c_title c ∉ Object_prototype_keys.

(** The record that a clipping stands for, the date being what the engine
    makes of the date text. *)
Definition recordOf (Date_parse : jsstring -> option Z) (c : Clipping)
  : KindleNote :=
  mkKindleNote (c_title c) (c_author c) (c_kind c) (c_location c) (c_page c)
    (match Date_parse (c_date c) with
     | Some t => DateValue t
     | None => InvalidDate
     end)
    (Str.join (js (String "010" EmptyString)) (c_lines c)).

(** ** Validating the content of a file ([validateContent], [src/js/app.js]) *)

Module ContentPat.

(** [/==========/g] *)
Definition separators : RegExp := mkRegExp (lit "==========") 0 false true.

(** [/- Your (Highlight|Note|Bookmark) on/i] *)
Definition yourKind : RegExp :=
  mkRegExp
    (seq [lit "- Your ";
          RGroup 1 (alt [lit "Highlight"; lit "Note"; lit "Bookmark"]);
          lit " on"])
    1 true false.

(** [/Added on \w+day,/i] *)
Definition addedOnDay : RegExp :=
  mkRegExp (seq [lit "Added on "; plus (RSet Char.isWord); lit "day,"])
    0 true false.

(** [/Location \d+/i] *)
Definition locationNumber : RegExp :=
  mkRegExp (seq [lit "Location "; plus digit]) 0 true false.

End ContentPat.

(** The loop of [String.prototype.match] for a pattern with the [g] flag:
    every match from left to right; after an empty match the search resumes
    one code unit further. *)
Fixpoint matchAllLoop (fuel : nat) (re : RegExp) (bef aft : jsstring)
  : list Re.Match :=
  match fuel with
  | O => []
  | S fuel' =>
      match Re.execFrom (re_ignoreCase re) (re_pattern re) (re_groups re) bef aft with
      | None => []
      | Some m =>
          let e := Re.m_end m in
          if (Re.pos e =? Re.pos (Re.m_start m))%nat then
            match Re.after e with
            | [] => [m]
            | c :: t => m :: matchAllLoop fuel' re (c :: Re.before e) t
            end
          else m :: matchAllLoop fuel' re (Re.before e) (Re.after e)
      end
  end.

(** [s.match(re)] for a pattern with the [g] flag: [null] without a match. *)
Definition matchAll (re : RegExp) (s : jsstring) : option (list Re.Match) :=
  match matchAllLoop (S (length s)) re [] s with
  | [] => None
  | ms => Some ms
  end.

(** [re.test(s)] for a pattern without the [g] flag. *)
Definition test (re : RegExp) (s : jsstring) : bool :=
  match RegExpOps.exec re s with
  | Some _ => true
  | None => false
  end.

(** The result of a validation: [{valid: false, error, title}],
    [{valid: true, warning}] or [{valid: true}]. *)
Inductive Validation : Type :=
| Invalid (error title : jsstring)
| Valid (warning : option jsstring).

(** [validateContent(content)] *)
Definition validateContent (content : jsstring) : Validation :=
  if bool_decide (content = []) || (length (Str.trim content) =? 0)%nat then
    Invalid
      (js "The file appears to be empty or contains only whitespace. Please check that your My Clippings.txt file contains notes.")
      (js "Empty File Content")
  else
    let separators := matchAll ContentPat.separators content in
    if match separators with
       | None => true
       | Some ms => (length ms =? 0)%nat
       end
    then
      Invalid
        (js "This file does not appear to be a valid Kindle My Clippings.txt file. Kindle notes should be separated by "
         ++ quoted (js "==========") ++ js " lines.")
        (js "Invalid File Format")
    else
      let lines :=
        List.filter (fun line => (0 <? length (Str.trim line))%nat)
          (Str.split (js (String "010" EmptyString)) content) in
      if (length lines <? 3)%nat then
        Invalid
          (js "This file does not contain enough content to be a valid Kindle notes file. Each note should have at least a title, metadata, and content.")
          (js "Insufficient Content")
      else
        let hasKindlePatterns :=
          test ContentPat.yourKind content ||
          test ContentPat.addedOnDay content ||
          test ContentPat.locationNumber content in
        if negb hasKindlePatterns then
          Valid (Some (js "This file may not be in the standard Kindle format, but we'll try to parse it. If you get unexpected results, please ensure you're using the My Clippings.txt file from your Kindle device."))
        else Valid None.

(** * Properties *)

(** ** The matcher *)

Section EngineFacts.
Import Re ReSpec.

Lemma Ahead_refl s : Ahead [] s s.
Proof. by split. Qed.

Lemma Ahead_trans u v s1 s2 s3 :
  Ahead u s1 s2 -> Ahead v s2 s3 -> Ahead (u ++ v) s1 s3.
Proof.
  intros [H1 H2] [H3 H4]. split.
  - by rewrite H1, H3, app_assoc.
  - by rewrite H4, H2, rev_app_distr, app_assoc.
Qed.

Lemma Ahead_advance s x t : after s = x :: t -> Ahead [x] s (advance s).
Proof. intros H. unfold Ahead, advance. by rewrite H. Qed.

Lemma Ahead_setCap u s s' i v : Ahead u s s' -> Ahead u s (setCap i v s').
Proof. done. Qed.

Lemma Ahead_pos u s s' : Ahead u s s' -> pos s' = (length u + pos s)%nat.
Proof. intros [_ H]. unfold pos. by rewrite H, length_app, length_rev. Qed.

Lemma Ahead_length u s s' :
  Ahead u s s' -> length (after s) = (length u + length (after s'))%nat.
Proof. intros [H _]. by rewrite H, length_app. Qed.

Lemma Ahead_consumed u s s' : Ahead u s s' -> consumed s s' = u.
Proof.
  intros H. unfold consumed. rewrite (Ahead_pos _ _ _ H).
  destruct H as [_ H]. rewrite H.
  replace (length u + pos s - pos s)%nat with (length (rev u)) by (rewrite length_rev; lia).
  rewrite firstn_app, Nat.sub_diag, firstn_all. simpl.
  by rewrite app_nil_r, rev_involutive.
Qed.

Lemma Iter_Ahead M lo hi cnt s s' :
  (forall a b, M a b -> exists u, Ahead u a b) ->
  Iter M lo hi cnt s s' -> exists u, Ahead u s s'.
Proof.
  intros HM. induction 1 as [|cnt s s1 s2 _ H1 _ _ [v Hv]].
  - exists []. apply Ahead_refl.
  - destruct (HM _ _ H1) as [u Hu]. exists (u ++ v). eauto using Ahead_trans.
Qed.

(** A match only moves forward in the input. *)
Lemma Matches_Ahead ic r : forall s s', Matches ic r s s' -> exists u, Ahead u s s'.
Proof.
  induction r as [|c|p|r1 IH1 r2 IH2|r1 IH1 r2 IH2|r1 IH1 lo hi g|i r1 IH1| | |];
    simpl; intros s s' H.
  - subst. exists []. apply Ahead_refl.
  - destruct H as (x & t & H & _ & ->). eauto using Ahead_advance.
  - destruct H as (x & t & H & _ & ->). eauto using Ahead_advance.
  - destruct H as (s1 & H1 & H2).
    destruct (IH1 _ _ H1) as [u Hu], (IH2 _ _ H2) as [v Hv].
    eauto using Ahead_trans.
  - destruct H; eauto.
  - eapply Iter_Ahead; eauto.
  - destruct H as (s1 & H1 & ->). destruct (IH1 _ _ H1) as [u Hu].
    exists u. by apply Ahead_setCap.
  - destruct H as [_ ->]. exists []. apply Ahead_refl.
  - destruct H as [_ ->]. exists []. apply Ahead_refl.
  - destruct H as [_ ->]. exists []. apply Ahead_refl.
Qed.

(** *** Soundness of the matcher *)

Lemma quantLoop_sound m1 (M : MState -> MState -> Prop) lo hi g k :
  (forall k s res, m1 k s = Some res -> exists s', M s s' /\ k s' = Some res) ->
  forall fuel cnt s res,
    quantLoop m1 lo hi g k fuel cnt s = Some res ->
    exists s', Iter M lo hi cnt s s' /\ k s' = Some res.
Proof.
  intros Hm1. induction fuel as [|fuel IH]; intros cnt s res H; [done|].
  simpl in H.
  assert (Hagain : forall res,
    (if match hi with Some h => (h <=? cnt)%nat | None => false end then None
     else m1 (fun s' => if (lo <=? cnt)%nat && (pos s' =? pos s)%nat then None
                        else quantLoop m1 lo hi g k fuel (S cnt) s') s) = Some res ->
    exists s', Iter M lo hi cnt s s' /\ k s' = Some res).
  { clear H res. intros res H.
    destruct (match hi with Some h => (h <=? cnt)%nat | None => false end) eqn:Hmax;
      [done|].
    apply Hm1 in H as (s1 & HM & H).
    destruct ((lo <=? cnt)%nat && (pos s1 =? pos s)%nat) eqn:Hemp; [done|].
    apply IH in H as (s2 & Hit & Hk). exists s2. split; [|done].
    eapply Iter_step; eauto.
    - intros h ->. apply Nat.leb_gt in Hmax. lia.
    - intros Hlo Hpos. apply andb_false_iff in Hemp as [Hemp|Hemp].
      + apply Nat.leb_gt in Hemp. lia.
      + apply Nat.eqb_neq in Hemp. done. }
  destruct (cnt <? lo)%nat eqn:Hlo; [by apply Hagain|].
  apply Nat.ltb_ge in Hlo.
  assert (Hstop : k s = Some res -> exists s', Iter M lo hi cnt s s' /\ k s' = Some res).
  { intros Hk. exists s. split; [by apply Iter_stop|done]. }
  destruct g; unfold orElse in H.
  - destruct (if match hi with Some h => (h <=? cnt)%nat | None => false end
              then None else _) eqn:Ha in H.
    + inversion H; subst. by apply Hagain.
    + by apply Hstop.
  - destruct (k s) eqn:Hk.
    + inversion H; subst. by apply Hstop.
    + by apply Hagain.
Qed.

Theorem rmatch_sound ic r : forall k s res,
  rmatch ic r k s = Some res -> exists s', Matches ic r s s' /\ k s' = Some res.
Proof.
  induction r as [|c|p|r1 IH1 r2 IH2|r1 IH1 r2 IH2|r1 IH1 lo hi g|i r1 IH1| | |];
    intros k s res H; cbn [rmatch Matches] in *.
  - eauto.
  - destruct (after s) as [|x t] eqn:Ha; [done|].
    destruct (canon ic x =? canon ic c) eqn:Hc; [|done].
    apply N.eqb_eq in Hc. exists (advance s). eauto 10.
  - destruct (after s) as [|x t] eqn:Ha; [done|].
    destruct (p x) eqn:Hp; [|done]. exists (advance s). eauto 10.
  - apply IH1 in H as (s1 & H1 & H). apply IH2 in H as (s2 & H2 & H). eauto.
  - unfold orElse in H. destruct (rmatch ic r1 k s) eqn:H1.
    + inversion H; subst. apply IH1 in H1 as (s' & ? & ?). eauto.
    + apply IH2 in H as (s' & ? & ?). eauto.
  - eapply quantLoop_sound in H; eauto.
  - apply IH1 in H as (s1 & H1 & H). eauto.
  - destruct (before s) eqn:Hb; [eauto|done].
  - destruct (after s) eqn:Ha; [eauto|done].
  - destruct (atWordBoundary s) eqn:Hw; [eauto|done].
Qed.

(** *** Completeness of the matcher *)

Lemma quantLoop_complete m1 (M : MState -> MState -> Prop) lo hi g k :
  (forall a b, M a b -> exists u, Ahead u a b) ->
  (forall k s s1, M s s1 -> is_Some (k s1) -> is_Some (m1 k s)) ->
  forall cnt s s', Iter M lo hi cnt s s' -> is_Some (k s') ->
  forall fuel, (lo - cnt + length (after s) < fuel)%nat ->
    is_Some (quantLoop m1 lo hi g k fuel cnt s).
Proof.
  intros HA Hm1 cnt s s' Hit Hk.
  induction Hit as [cnt s Hlo|cnt s s1 s2 Hhi HM Hpos Hit IH];
    intros [|fuel] Hfuel; try lia; simpl.
  - apply Nat.ltb_ge in Hlo. rewrite Hlo.
    destruct g; unfold orElse.
    + destruct (if match hi with Some h => (h <=? cnt)%nat | None => false end
                then None else _); [by eexists|done].
    + destruct Hk as [res Hk]. rewrite Hk. by eexists.
  - assert (Hmax : match hi with Some h => (h <=? cnt)%nat | None => false end = false).
    { destruct hi as [h|]; [|done]. apply Nat.leb_gt. by apply Hhi. }
    rewrite Hmax.
    assert (Hagain : is_Some (m1 (fun s' =>
               if (lo <=? cnt)%nat && (pos s' =? pos s)%nat then None
               else quantLoop m1 lo hi g k fuel (S cnt) s') s)).
    { apply (Hm1 _ _ _ HM).
      destruct (HA _ _ HM) as [u Hu].
      pose proof (Ahead_pos _ _ _ Hu) as Hp.
      pose proof (Ahead_length _ _ _ Hu) as Hl.
      destruct (lo <=? cnt)%nat eqn:Hlo; simpl.
      - apply Nat.leb_le in Hlo. specialize (Hpos Hlo).
        apply Nat.eqb_neq in Hpos as Hpos'. rewrite Hpos'.
        apply (IH Hk). lia.
      - apply Nat.leb_gt in Hlo. apply (IH Hk). lia. }
    destruct (cnt <? lo)%nat; [done|].
    destruct Hagain as [res Hres].
    destruct g; unfold orElse.
    + rewrite Hres. by eexists.
    + destruct (k s); [by eexists|]. rewrite Hres. by eexists.
Qed.

Theorem rmatch_complete ic r : forall k s s',
  Matches ic r s s' -> is_Some (k s') -> is_Some (rmatch ic r k s).
Proof.
  induction r as [|c|p|r1 IH1 r2 IH2|r1 IH1 r2 IH2|r1 IH1 lo hi g|i r1 IH1| | |];
    intros k s s' H Hk; cbn [rmatch Matches] in *.
  - by subst.
  - destruct H as (x & t & Ha & Hc & ->). rewrite Ha.
    apply N.eqb_eq in Hc. by rewrite Hc.
  - destruct H as (x & t & Ha & Hp & ->). by rewrite Ha, Hp.
  - destruct H as (s1 & H1 & H2). eauto.
  - unfold orElse. destruct H as [H|H].
    + destruct (IH1 k _ _ H Hk) as [res ->]. by eexists.
    + destruct (rmatch ic r1 k s); [by eexists|]. eauto.
  - apply (quantLoop_complete _ (Matches ic r1) lo hi g k
             (Matches_Ahead ic r1) IH1 0%nat s s' H Hk).
    lia.
  - destruct H as (s1 & H1 & ->). eapply IH1; eauto.
  - destruct H as [-> ->]. done.
  - destruct H as [-> ->]. done.
  - destruct H as [-> ->]. done.
Qed.

(** *** Searching *)

Lemma matchAt_sound ic r n bef aft m :
  matchAt ic r n bef aft = Some m ->
  m_start m = start n bef aft /\ Matches ic r (m_start m) (m_end m).
Proof.
  unfold matchAt. intros H.
  destruct (rmatch ic r _ _) as [s1|] eqn:Hr; [|done].
  inversion H; subst; simpl.
  apply rmatch_sound in Hr as (s' & HM & Hk). by inversion Hk; subst.
Qed.

Lemma matchAt_complete ic r n bef aft s' :
  Matches ic r (start n bef aft) s' -> is_Some (matchAt ic r n bef aft).
Proof.
  intros H. unfold matchAt.
  destruct (rmatch_complete ic r (fun s => Some s) _ _ H) as [res Hres];
    [by eexists|].
  fold (start n bef aft). rewrite Hres. by eexists.
Qed.

Lemma matchAt_None ic r n bef aft :
  (forall s', ~ Matches ic r (start n bef aft) s') ->
  matchAt ic r n bef aft = None.
Proof.
  intros H. destruct (matchAt ic r n bef aft) as [m|] eqn:Hm; [|done].
  apply matchAt_sound in Hm as [Hs HM]. rewrite Hs in HM. by apply H in HM.
Qed.

(** A search finds the leftmost position at which the pattern matches. *)
Lemma execFrom_sound ic r n : forall aft bef m,
  execFrom ic r n bef aft = Some m ->
  exists u v, aft = u ++ v /\
    matchAt ic r n (rev u ++ bef) v = Some m /\
    forall u1 c u2, u = u1 ++ c :: u2 ->
      matchAt ic r n (rev u1 ++ bef) (c :: u2 ++ v) = None.
Proof.
  induction aft as [|c t IH]; intros bef m H; simpl in H.
  - destruct (matchAt ic r n bef []) eqn:Hm; [|done]. inversion H; subst.
    exists [], []. split_and!; [done|done|]. by intros [|??] ??.
  - destruct (matchAt ic r n bef (c :: t)) eqn:Hm.
    + inversion H; subst. exists [], (c :: t).
      split_and!; [done|done|]. by intros [|??] ??.
    + apply IH in H as (u & v & -> & Hm' & Hleft).
      exists (c :: u), v. split_and!; [done| |].
      * simpl. by rewrite <- app_assoc.
      * intros [|c1 u1] c2 u2 Heq; simpl in *.
        -- by inversion Heq; subst.
        -- inversion Heq; subst. rewrite <- app_assoc. simpl.
           by apply Hleft.
Qed.

Lemma execFrom_skip ic r n v : forall u bef,
  (forall u1 c u2, u = u1 ++ c :: u2 ->
     matchAt ic r n (rev u1 ++ bef) (c :: u2 ++ v) = None) ->
  execFrom ic r n bef (u ++ v) = execFrom ic r n (rev u ++ bef) v.
Proof.
  induction u as [|c u IH]; intros bef H; [done|].
  pose proof (H [] c u eq_refl) as H0. simpl in H0.
  simpl. rewrite H0. rewrite <- app_assoc. simpl.
  apply IH. intros u1 c1 u2 ->.
  specialize (H (c :: u1) c1 u2 eq_refl). simpl in H.
  by rewrite <- app_assoc in H.
Qed.

Lemma execFrom_here ic r n bef aft m :
  matchAt ic r n bef aft = Some m -> execFrom ic r n bef aft = Some m.
Proof. intros H. destruct aft; simpl; by rewrite H. Qed.

(** A pattern that starts with [^] matches at the start of the input or
    nowhere. *)
Lemma execFrom_anchored ic r n aft :
  execFrom ic (RSeq RBol r) n [] aft = matchAt ic (RSeq RBol r) n [] aft.
Proof.
  assert (Hno : forall aft bef, bef <> [] ->
            execFrom ic (RSeq RBol r) n bef aft = None).
  { clear aft. induction aft as [|c t IH]; intros bef Hbef; simpl.
    - unfold matchAt. simpl. by destruct bef.
    - unfold matchAt at 1. simpl. destruct bef; [done|]. by apply IH. }
  destruct aft as [|c t]; simpl.
  - by destruct (matchAt _ _ _ _ _).
  - destruct (matchAt _ _ _ _ _); [done|]. by apply Hno.
Qed.

(** *** Runs of a character class *)

Lemma Iter_set_elim ic p lo hi cnt s s' :
  Iter (Matches ic (RSet p)) lo hi cnt s s' ->
  exists u, Ahead u s s' /\ Forall (fun c => p c = true) u /\
    caps s' = caps s /\ (lo <= cnt + length u)%nat.
Proof.
  induction 1 as [cnt s Hlo|cnt s s1 s2 _ HM _ _ (v & Hv & Hpv & Hc & Hlen)].
  - exists []. split_and!; [apply Ahead_refl|done|done|simpl; lia].
  - destruct HM as (x & t & Ha & Hp & ->).
    exists (x :: v). split_and!.
    + apply (Ahead_trans [x] v _ (advance s)); [by eapply Ahead_advance|done].
    + by constructor.
    + rewrite Hc. unfold advance. by rewrite Ha.
    + simpl. lia.
Qed.

Lemma Iter_set_intro ic p lo cs v : forall u cnt bef,
  Forall (fun c => p c = true) u -> (lo <= cnt + length u)%nat ->
  Iter (Matches ic (RSet p)) lo None cnt
    (mkMState bef (u ++ v) cs) (mkMState (rev u ++ bef) v cs).
Proof.
  induction u as [|c u IH]; intros cnt bef Hp Hlen; simpl in *.
  - apply Iter_stop. lia.
  - inversion Hp; subst.
    apply (Iter_step _ _ _ _ _ (mkMState (c :: bef) (u ++ v) cs)).
    + done.
    + simpl. exists c, (u ++ v). done.
    + intros _. unfold pos. simpl. lia.
    + rewrite <- app_assoc. simpl. apply IH; [done|lia].
Qed.

End EngineFacts.

Section TitleAuthor.
Import Re ReSpec.

Lemma caps_advance s : caps (advance s) = caps s.
Proof. unfold advance. by destruct (after s). Qed.

Lemma Matches_char_elim ic c s s' :
Matches ic (RChar c) s s' ->
exists x, Ahead [x] s s' /\ canon ic x = canon ic c /\ caps s' = caps s.
Proof.
intros (x & t & Ha & Hc & ->). exists x.
split_and!; [by eapply Ahead_advance|done|apply caps_advance].
Qed.

Lemma noneOf_paren_true c :
negb (bool_decide (c ∈ js ")")) = true <-> c <> 41.
Proof.
rewrite negb_true_iff, bool_decide_eq_false. change (js ")") with [41].
rewrite list_elem_of_singleton. done.
Qed.

Lemma length_pos_nonnil {A} (l : list A) : (1 <= length l)%nat -> l <> [].
Proof. destruct l; simpl; [lia|done]. Qed.

Lemma trimStart_spaces_app ws y :
Forall (fun c => Char.isSpace c = true) ws ->
Str.trimStart (ws ++ y) = Str.trimStart y.
Proof. induction 1 as [|c ws Hc _ IH]; simpl; [done|by rewrite Hc]. Qed.

Lemma trimEnd_app_spaces x ws :
Forall (fun c => Char.isSpace c = true) ws ->
Str.trimEnd (x ++ ws) = Str.trimEnd x.
Proof.
intros H. unfold Str.trimEnd. rewrite rev_app_distr.
rewrite trimStart_spaces_app; [done|]. by apply Forall_rev.
Qed.

Lemma trim_app_spaces t ws :
Forall (fun c => Char.isSpace c = true) ws ->
Str.trim (t ++ ws) = Str.trim t.
Proof.
intros H. unfold Str.trim. induction t as [|c t IH]; simpl.
- rewrite <- (app_nil_r ws). by rewrite trimStart_spaces_app.
- destruct (Char.isSpace c); [done|].
  by apply (trimEnd_app_spaces (c :: t)).
Qed.

Lemma replace_bom l : RegExpOps.replace Pat.bom empty_ l = stripBOM l.
Proof.
unfold RegExpOps.replace, RegExpOps.exec. simpl re_global. cbv iota.
change (re_pattern Pat.bom) with (RSeq RBol (RChar 0xFEFF)).
rewrite execFrom_anchored. unfold matchAt. simpl.
destruct l as [|c t]; [done|]. simpl.
destruct (c =? 65279); done.
Qed.

Lemma group_caps m i v :
caps (m_end m) !! i = Some (Some v) -> group_ i m = v.
Proof. unfold group_, group. by intros ->. Qed.

Lemma titleAuthor_pattern :
  re_pattern Pat.titleAuthor
  = RSeq RBol (RSeq (RGroup 1 (plusLazy dot)) titleAuthorRest).
Proof. reflexivity. Qed.

Lemma titleAuthorRest_elim s s' :
  Matches false titleAuthorRest s s' ->
  exists ws a, Ahead (ws ++ js "(" ++ a ++ js ")") s s' /\ after s' = [] /\
    Forall (fun c => Char.isSpace c = true) ws /\
    a <> [] /\ Forall (fun c => c <> 41) a /\
    caps s' = <[2%nat := Some a]> (caps s).
Proof.
  intros H.
  cbn [titleAuthorRest seq lit litN js List.map list_ascii_of_string
       fold_right Matches star plus noneOf space] in H.
  destruct H as (s4 & Hit2 & s5 & (s6 & Hc1 & ->) & s7 & (s8 & Hit3 & ->) & s9 &
                 (s10 & Hc2 & ->) & Hend & ->).
  apply (Iter_set_elim false Char.isSpace) in Hit2 as (ws & Aw & Fw & Cw & _).
  apply (Matches_char_elim false) in Hc1 as (x1 & A1 & Hx1 & C1).
  apply (Iter_set_elim false) in Hit3 as (a & Aa & Fa & Ca & La).
  apply (Matches_char_elim false) in Hc2 as (x2 & A2 & Hx2 & C2).
  simpl in Hx1, Hx2. subst x1 x2.
  rewrite (Ahead_consumed _ _ _ Aa) in *.
  exists ws, a. split_and!; try done.
  - eapply Ahead_trans; [apply Aw|].
    eapply (Ahead_trans [40]); [apply A1|].
    eapply Ahead_trans; [apply Ahead_setCap, Aa|]. apply A2.
  - apply length_pos_nonnil. lia.
  - eapply Forall_impl; [apply Fa|]. intros c Hc. by apply noneOf_paren_true.
  - rewrite C2. simpl. by rewrite Ca, C1, Cw.
Qed.

Lemma titleAuthorRest_intro bef cs ws a :
  Forall (fun c => Char.isSpace c = true) ws ->
  a <> [] -> Forall (fun c => c <> 41) a ->
  exists s', Matches false titleAuthorRest
               (mkMState bef (ws ++ js "(" ++ a ++ js ")") cs) s'.
Proof.
  intros Fw Ha Fa.
  cbn [titleAuthorRest seq lit litN js List.map list_ascii_of_string
       fold_right Matches star plus noneOf space].
  eexists. exists (mkMState (rev ws ++ bef) (js "(" ++ a ++ js ")") cs). split.
  { apply (Iter_set_intro false Char.isSpace); [done|lia]. }
  set (b3 := 40 :: rev ws ++ bef).
  exists (mkMState b3 (a ++ js ")") cs). split.
  { eexists. split; [|reflexivity]. exists 40, (a ++ js ")"). done. }
  exists (mkMState (rev a ++ b3) (js ")") (<[2%nat := Some a]> cs)). split.
  { exists (mkMState (rev a ++ b3) (js ")") cs). split.
    - apply (Iter_set_intro false); [|destruct a; [done|simpl; lia]].
      eapply Forall_impl; [apply Fa|]. intros c Hc. by apply noneOf_paren_true.
    - unfold setCap. simpl. by rewrite (Ahead_consumed a); [|split]. }
  eexists. split.
  { eexists. split; [|reflexivity]. exists 41, []. done. }
  split; [|reflexivity]. done.
Qed.

(** A lazy quantifier over a class stops at the first end of a run that the
    continuation accepts. *)
Lemma quantLoop_lazy_first ic p lo k : forall fuel cnt s res,
  quantLoop (rmatch ic (RSet p)) lo None false k fuel cnt s = Some res ->
  exists u s', Ahead u s s' /\ caps s' = caps s /\
    Forall (fun c => p c = true) u /\ (lo <= cnt + length u)%nat /\
    k s' = Some res /\
    forall u1 u2, u = u1 ++ u2 -> u2 <> [] -> (lo <= cnt + length u1)%nat ->
      k (mkMState (rev u1 ++ before s) (u2 ++ after s') (caps s)) = None.
Proof.
  induction fuel as [|fuel IH]; intros cnt s res H; [done|].
  cbn [quantLoop rmatch] in H.
  assert (Hagain : forall res,
    match after s with
    | [] => None
    | x :: _ =>
        if p x
        then (if (lo <=? cnt)%nat && (pos (advance s) =? pos s)%nat then None
              else quantLoop (rmatch ic (RSet p)) lo None false k fuel (S cnt) (advance s))
        else None
    end = Some res ->
    exists x u s', Ahead (x :: u) s s' /\ caps s' = caps s /\
      Forall (fun c => p c = true) (x :: u) /\ (lo <= S cnt + length u)%nat /\
      k s' = Some res /\
      forall u1 u2, u = u1 ++ u2 -> u2 <> [] -> (lo <= S cnt + length u1)%nat ->
        k (mkMState (rev (x :: u1) ++ before s) (u2 ++ after s') (caps s)) = None).
  { clear H res. intros res H.
    destruct (after s) as [|x t] eqn:Ha; [done|].
    destruct (p x) eqn:Hp; [|done].
    destruct ((lo <=? cnt)%nat && _); [done|].
    apply IH in H as (u & s' & Au & Cu & Fu & Lu & Hk & Hmin).
    exists x, u, s'. split_and!.
    - apply (Ahead_trans [x] u _ (advance s)); [by eapply Ahead_advance|done].
    - by rewrite Cu, caps_advance.
    - by constructor.
    - done.
    - done.
    - intros u1 u2 Hu Hu2 Hlo. specialize (Hmin u1 u2 Hu Hu2 Hlo).
      unfold advance in Hmin. rewrite Ha in Hmin. simpl in Hmin.
      simpl. by rewrite <- app_assoc. }
  destruct (cnt <? lo)%nat eqn:Hlo.
  - apply Nat.ltb_lt in Hlo.
    apply Hagain in H as (x & u & s' & Au & Cu & Fu & Lu & Hk & Hmin).
    exists (x :: u), s'. split_and!; try done.
    + simpl. lia.
    + intros [|y u1] u2 Hu Hu2 Hl; [simpl in Hl; lia|].
      inversion Hu; subst. apply Hmin; [done|done|simpl in Hl; lia].
  - apply Nat.ltb_ge in Hlo. unfold orElse in H.
    destruct (k s) as [r|] eqn:Hks.
    + inversion H; subst. exists [], s.
      split_and!; [apply Ahead_refl|done|done|simpl; lia|done|].
      intros u1 u2 Hu Hu2. destruct u1, u2; done.
    + apply Hagain in H as (x & u & s' & Au & Cu & Fu & Lu & Hk & Hmin).
      exists (x :: u), s'. split_and!; try done.
      * simpl. lia.
      * intros [|y u1] u2 Hu Hu2 Hl.
        -- simpl in *. subst u2. destruct Au as [Au _]. rewrite <- Au.
           by destruct s.
        -- inversion Hu; subst. apply Hmin; [done|done|simpl in Hl; lia].
Qed.

Lemma prefix_of_app_eq {A} (t u r1 r2 : list A) :
  t ++ r1 = u ++ r2 -> (length t < length u)%nat ->
  exists u2, u = t ++ u2 /\ u2 <> [] /\ r1 = u2 ++ r2.
Proof.
  revert u. induction t as [|x t IH]; intros u H Hlen; simpl in *.
  - exists u. split_and!; [done| |done]. destruct u; [simpl in Hlen; lia|done].
  - destruct u as [|y u]; [simpl in Hlen; lia|]. simpl in *.
    inversion H; subst. destruct (IH u) as (u2 & -> & ? & ->); [done|lia|].
    by exists u2.
Qed.

Lemma rmatch_titleAuthor k s :
  before s = [] ->
  rmatch false (RSeq RBol (RSeq (RGroup 1 (plusLazy dot)) titleAuthorRest)) k s
  = quantLoop (rmatch false (RSet Char.isDot)) 1 None false
      (fun s' => rmatch false titleAuthorRest k (setCap 1 (consumed s s') s'))
      (S (1 + length (after s))) 0 s.
Proof.
  intros H.
  change (rmatch false (RSeq RBol (RSeq (RGroup 1 (plusLazy dot)) titleAuthorRest)) k s)
    with (match before s with
          | [] => rmatch false (RGroup 1 (RQuant (RSet Char.isDot) 1 None false))
                    (rmatch false titleAuthorRest k) s
          | _ => None
          end).
  by rewrite H.
Qed.

(** The match of the title pattern: which text the groups capture, and that
    no shorter title would do. *)
Lemma titleAuthor_matchAt line m :
  matchAt false (re_pattern Pat.titleAuthor) 2 [] line = Some m ->
  exists t ws a, TitleAuthorShape line t ws a /\
    caps (m_end m) = [None; Some t; Some a] /\
    forall t' ws' a', TitleAuthorShape line t' ws' a' ->
      (length t <= length t')%nat.
Proof.
  intros Hm. unfold matchAt in Hm.
  destruct (rmatch _ _ _ _) as [res|] eqn:Hr; [|done].
  inversion Hm; subst m; clear Hm. cbn [m_end].
  rewrite titleAuthor_pattern, rmatch_titleAuthor in Hr by done.
  apply quantLoop_lazy_first in Hr as (t & s1 & At & Ct & Ft & Lt & Hk & Hmin).
  rewrite (Ahead_consumed _ _ _ At) in Hk.
  apply rmatch_sound in Hk as (s' & HM & Hs'). inversion Hs'; subst s'; clear Hs'.
  apply titleAuthorRest_elim in HM as (ws & a & Ar & Hend & Fw & Ha & Fa & Cr).
  assert (Hline : line = t ++ ws ++ js "(" ++ a ++ js ")").
  { destruct (Ahead_trans _ _ _ _ _ (Ahead_setCap _ _ _ 1%nat t At) Ar) as [HA _].
    rewrite Hend, app_nil_r in HA. cbn [after] in HA. done. }
  exists t, ws, a. split_and!.
  - split_and!; try done. apply length_pos_nonnil. lia.
  - rewrite Cr. simpl. by rewrite Ct.
  - intros t' ws' a' (Hl' & Ht' & Ft' & Fw' & Ha' & Fa').
    destruct (Nat.le_gt_cases (length t) (length t')) as [|Hlt]; [done|exfalso].
    destruct At as [At _]. simpl in At.
    assert (Hsplit : t' ++ (ws' ++ js "(" ++ a' ++ js ")") = t ++ after s1)
      by (by rewrite <- Hl', At).
    apply prefix_of_app_eq in Hsplit as (u2 & -> & Hu2 & Hrest); [|done].
    specialize (Hmin t' u2 eq_refl Hu2).
    rewrite <- Hrest in Hmin.
    match type of Hmin with
    | _ -> ?lhs = None => assert (Hsome : is_Some lhs)
    end.
    { cbv beta. unfold setCap. cbn [before after caps].
      edestruct titleAuthorRest_intro as [s' Hs'];
        [exact Fw'|exact Ha'|exact Fa'|].
      eapply rmatch_complete; [exact Hs'|by eexists]. }
    rewrite Hmin in Hsome; [by destruct Hsome|].
    destruct t'; [done|simpl; lia].
Qed.

(** The chosen parenthesis is the leftmost one that fits the pattern. *)
Lemma titleAuthor_leftmost line t ws a t' ws' a' :
  TitleAuthorShape line t ws a -> TitleAuthorShape line t' ws' a' ->
  (length t <= length t')%nat ->
  (length (t ++ ws) <= length (t' ++ ws'))%nat.
Proof.
  intros (Hl & _ & _ & Fw & _) (Hl' & _) Hle.
  destruct (Nat.le_gt_cases (length (t ++ ws)) (length (t' ++ ws'))) as [|Hlt];
    [done|exfalso].
  assert (H1 : line !! length (t' ++ ws') = Some 40).
  { rewrite Hl', (app_assoc t' ws'). rewrite lookup_app_r by lia.
    by rewrite Nat.sub_diag. }
  rewrite Hl, (app_assoc t ws) in H1.
  rewrite lookup_app_l in H1 by lia.
  rewrite lookup_app_r in H1 by (rewrite length_app; lia).
  apply list_elem_of_lookup_2 in H1.
  rewrite Forall_forall in Fw. apply Fw in H1. done.
Qed.

Lemma titleAuthor_Matches_intro line t ws a :
  TitleAuthorShape line t ws a ->
  exists s', Matches false (re_pattern Pat.titleAuthor) (start 2 [] line) s'.
Proof.
  intros (-> & Ht & Ft & Fw & Ha & Fa).
  rewrite titleAuthor_pattern.
  set (r1 := ws ++ js "(" ++ a ++ js ")").
  set (c0 := replicate 3 None : list (option (list N))).
  destruct (titleAuthorRest_intro (rev t ++ []) (<[1%nat := Some t]> c0) ws a)
    as [s' Hs']; [done..|].
  exists s'. cbn [Matches].
  exists (start 2 [] (t ++ r1)). split; [done|].
  exists (mkMState (rev t ++ []) r1 (<[1%nat := Some t]> c0)). split; [|exact Hs'].
  exists (mkMState (rev t ++ []) r1 c0). split.
  - apply (Iter_set_intro false Char.isDot); [done|].
    destruct t; [done|simpl; lia].
  - unfold setCap. cbn [before after caps]. by rewrite (Ahead_consumed t); [|split].
Qed.

End TitleAuthor.

(** C7.  Let [line] be the title line without a leading byte-order mark.  If
    [line] is a title, white space and a parenthesised author that ends the
    line, [parseTitleAuthor] returns the text before the parenthesis, trimmed,
    and the text between the parentheses, trimmed; when several parentheses
    fit, the leftmost one counts.  Otherwise it returns the whole line and
    "Unknown", as for "Some Notes Without Parens". *)
Theorem parseTitleAuthor_spec (titleLine : jsstring) :
  let line := stripBOM titleLine in
  ((exists t ws a, TitleAuthorShape line t ws a) ->
   exists t ws a, TitleAuthorShape line t ws a /\
     (forall t' ws' a', TitleAuthorShape line t' ws' a' ->
        (length (t ++ ws) <= length (t' ++ ws'))%nat) /\
     parseTitleAuthor titleLine = (Str.trim (t ++ ws), Str.trim a))
  /\ (~ (exists t ws a, TitleAuthorShape line t ws a) ->
      parseTitleAuthor titleLine = (line, js "Unknown"))
  /\ parseTitleAuthor (js "Some Notes Without Parens")
     = (js "Some Notes Without Parens", js "Unknown").
Proof.
  intros line. split_and!; [| |vm_compute; reflexivity].
  all: unfold parseTitleAuthor; rewrite replace_bom; fold line;
    unfold RegExpOps.exec; rewrite titleAuthor_pattern, execFrom_anchored;
    rewrite <- titleAuthor_pattern; simpl re_ignoreCase; simpl re_groups.
  - intros (t0 & ws0 & a0 & Hs).
    destruct (titleAuthor_Matches_intro _ _ _ _ Hs) as [s' Hs'].
    destruct (matchAt_complete _ _ _ _ _ _ Hs') as [m Hm]. rewrite Hm.
    destruct (titleAuthor_matchAt _ _ Hm) as (t & ws & a & Hshape & Hc & Hmin).
    exists t, ws, a. split_and!; [done| |].
    + intros t' ws' a' Hs2.
      eapply titleAuthor_leftmost; [done|done|by eapply Hmin].
    + rewrite (group_caps m 1 t), (group_caps m 2 a) by (by rewrite Hc).
      rewrite trim_app_spaces; [done|]. apply Hshape.
  - intros Hno.
    destruct (Re.matchAt _ _ _ _ _) as [m|] eqn:Hm; [|done].
    destruct (titleAuthor_matchAt _ _ Hm) as (t & ws & a & Hshape & _).
    exfalso. apply Hno. eauto.
Qed.

(** ** Sorting by location *)

Section SortFacts.
Context {A : Type} (comparefn : A -> A -> comparison).

Hypothesis comparefn_Gt_flip : forall a b, comparefn a b = Gt -> comparefn b a <> Gt.
Hypothesis notAfter_trans : forall a b c, (notAfter comparefn) a b -> (notAfter comparefn) b c -> (notAfter comparefn) a c.

Lemma insert_Permutation x l : Permutation (x :: l) (ArraySort.insert comparefn x l).
Proof.
  induction l as [|y l IH]; simpl; [done|].
  destruct (comparefn x y); try done.
  rewrite perm_swap. by constructor.
Qed.

Lemma sort_Permutation l : Permutation l (ArraySort.sort comparefn l).
Proof.
  induction l as [|x l IH]; simpl; [done|].
  rewrite <- insert_Permutation. by constructor.
Qed.

Lemma insert_Forall (P : A -> Prop) x l :
  P x -> Forall P l -> Forall P (ArraySort.insert comparefn x l).
Proof.
  intros Hx Hl. rewrite <- insert_Permutation. by constructor.
Qed.

Lemma insert_StronglySorted x l :
  StronglySorted (notAfter comparefn) l ->
  StronglySorted (notAfter comparefn) (ArraySort.insert comparefn x l).
Proof.
  induction 1 as [|y l Hl IH Hy]; simpl.
  - repeat constructor.
  - destruct (comparefn x y) eqn:Hxy.
    + constructor; [by constructor|]. constructor.
      * unfold notAfter. by rewrite Hxy.
      * eapply Forall_impl; [apply Hy|]. intros z Hz.
        apply (notAfter_trans x y z); [|done]. unfold notAfter. by rewrite Hxy.
    + constructor; [by constructor|]. constructor.
      * unfold notAfter. by rewrite Hxy.
      * eapply Forall_impl; [apply Hy|]. intros z Hz.
        apply (notAfter_trans x y z); [|done]. unfold notAfter. by rewrite Hxy.
    + constructor; [done|]. apply insert_Forall; [|done].
      by apply comparefn_Gt_flip.
Qed.

Lemma sort_StronglySorted l :
  StronglySorted (notAfter comparefn) (ArraySort.sort comparefn l).
Proof.
  induction l as [|x l IH]; simpl; [constructor|by apply insert_StronglySorted].
Qed.

(** Stability: an element is only moved past elements that it exceeds, so
    a filter that keeps [x] together with nothing that [x] exceeds is not
    affected by the insertion. *)
Lemma insert_filter (f : A -> bool) x l :
  (forall y, f x = true -> comparefn x y = Gt -> f y = false) ->
  List.filter f (ArraySort.insert comparefn x l) = List.filter f (x :: l).
Proof.
  intros Hf. induction l as [|y l IH]; [done|].
  cbn [ArraySort.insert]. destruct (comparefn x y) eqn:Hxy; try done.
  cbn [List.filter] in *. rewrite IH.
  destruct (f x) eqn:Hfx; [|done].
  by rewrite (Hf y eq_refl Hxy).
Qed.

Lemma sort_filter (f : A -> bool) l :
  (forall x y, f x = true -> comparefn x y = Gt -> f y = false) ->
  List.filter f (ArraySort.sort comparefn l) = List.filter f l.
Proof.
  intros Hf. induction l as [|x l IH]; [done|].
  cbn [ArraySort.sort fold_right]. rewrite insert_filter by (intros y ? ?; by apply (Hf x y)).
  cbn [List.filter]. fold (ArraySort.sort comparefn l). by rewrite IH.
Qed.

End SortFacts.

Section LocationOrder.

Lemma subtractSign_refl a : subtractSign a a = Eq.
Proof. destruct a; simpl; [apply Z.compare_refl|done]. Qed.

Lemma subtractSign_Gt_flip a b : subtractSign a b = Gt -> subtractSign b a <> Gt.
Proof.
  destruct a, b; simpl; try done.
  intros H. rewrite Z.compare_antisym, H. done.
Qed.

Lemma numLe_trans a b c : numLe a b -> numLe b c -> numLe a c.
Proof.
  unfold numLe. destruct a, b, c; simpl; try done.
  change (z <= z0 -> z0 <= z1 -> z <= z1)%Z. lia.
Qed.

End LocationOrder.

Section DigitRuns.
Import Re ReSpec.

(** A greedy quantifier over a class, followed by a continuation that
    accepts the end of the run, consumes the whole run. *)
Lemma quantLoop_greedy_run ic p lo k rest cs :
  match rest with [] => True | c :: _ => p c = false end ->
  forall ds fuel cnt bef,
    Forall (fun c => p c = true) ds ->
    (lo <= cnt + length ds)%nat -> (length ds < fuel)%nat ->
    is_Some (k (mkMState (rev ds ++ bef) rest cs)) ->
    quantLoop (rmatch ic (RSet p)) lo None true k fuel cnt
      (mkMState bef (ds ++ rest) cs)
    = k (mkMState (rev ds ++ bef) rest cs).
Proof.
  intros Hrest. induction ds as [|d ds IH]; intros fuel cnt bef Hds Hlo Hfuel Hk;
    (destruct fuel as [|fuel]; [simpl in Hfuel; lia|]);
    cbn [quantLoop rmatch after app rev length] in *.
  - assert (Hc : (cnt <? lo)%nat = false) by (apply Nat.ltb_ge; lia).
    rewrite Hc. unfold orElse.
    destruct rest as [|c rest]; [done|]. by rewrite Hrest.
  - inversion Hds as [|?? Hd Hds']; subst. rewrite Hd.
    unfold advance. cbn [after before caps].
    replace (pos _ =? pos _)%nat with false
      by (symmetry; apply Nat.eqb_neq; unfold pos; simpl; lia).
    rewrite andb_false_r.
    rewrite <- app_assoc in *. cbn [app] in *.
    rewrite IH; [|done|lia|lia|done].
    destruct (cnt <? lo)%nat; [done|].
    destruct Hk as [res ->]. done.
Qed.

Lemma rmatch_group_quant ic i r lo hi g k s :
  rmatch ic (RGroup i (RQuant r lo hi g)) k s
  = quantLoop (rmatch ic r) lo hi g
      (fun s' => k (setCap i (consumed s s') s'))
      (S (lo + length (after s))) 0 s.
Proof. reflexivity. Qed.

Lemma digits_no_match_at n bef aft :
  match aft with [] => True | c :: _ => NonDigit c end ->
  matchAt false (re_pattern Pat.digits) n bef aft = None.
Proof.
  intros Haft. apply matchAt_None. intros s' H.
  cbn [re_pattern Pat.digits Matches plus digit] in H.
  destruct H as (s1 & Hit & _).
  apply (Iter_set_elim false Char.isDigit) in Hit as (u & [Hu _] & Fu & _ & Hlen).
  simpl in Hu. destruct u as [|c u]; [simpl in Hlen; lia|].
  inversion Fu as [|?? Hc _]; subst. simpl in Hc. unfold NonDigit in Haft.
  congruence.
Qed.

(** [/(\d+)/] finds the first run of digits. *)
Lemma exec_digits_first_run pre ds rest :
  Forall NonDigit pre -> Forall Digit ds -> ds <> [] ->
  match rest with [] => True | c :: _ => NonDigit c end ->
  exists m, RegExpOps.exec Pat.digits (pre ++ ds ++ rest) = Some m /\
            group_ 1 m = ds.
Proof.
  intros Hpre Hds Hne Hrest. unfold RegExpOps.exec.
  rewrite execFrom_skip.
  2:{ intros u1 c u2 ->. apply digits_no_match_at.
      apply Forall_app in Hpre as [_ Hpre]. by inversion Hpre. }
  eexists. split.
  - apply execFrom_here. unfold matchAt.
    change (re_pattern Pat.digits)
      with (RGroup 1 (RQuant (RSet Char.isDigit) 1 None true)).
    rewrite rmatch_group_quant.
    rewrite quantLoop_greedy_run; [reflexivity|done|done| | |done].
    + simpl. destruct ds; [done|simpl; lia].
    + simpl. rewrite length_app. lia.
  - apply group_caps. simpl.
    by rewrite (Ahead_consumed ds); [|split].
Qed.

Lemma exec_digits_none l :
  Forall NonDigit l -> RegExpOps.exec Pat.digits l = None.
Proof.
  intros Hl. unfold RegExpOps.exec.
  destruct (execFrom _ _ _ _ _) as [m|] eqn:Hm; [|done].
  apply execFrom_sound in Hm as (u & v & -> & Hm & _).
  rewrite digits_no_match_at in Hm; [done|].
  apply Forall_app in Hl as [_ Hv]. destruct v; [done|]. by inversion Hv.
Qed.

End DigitRuns.

Section SortTheorems.

Lemma toNumber_exact n : (0 <= n < 2 ^ 53)%Z -> toNumber n = Finite n.
Proof.
  intros [H0 H]. unfold toNumber.
  assert (Z.log2 n - 52 <= 0)%Z as Hl.
  { destruct (Z.eq_dec n 0%Z) as [->|Hn]; [done|].
    assert (Z.log2 n < 53)%Z by (apply Z.log2_lt_pow2; lia). lia. }
  apply Z.leb_le in Hl. by rewrite Hl.
Qed.

Lemma extractLocationNumber_none s :
  nonDigits s -> extractLocationNumber s = Finite 0.
Proof.
  intros H. unfold extractLocationNumber. destruct s; [done|].
  by rewrite exec_digits_none.
Qed.

Lemma extractLocationNumber_first_run pre ds rest :
  nonDigits pre -> digitRun ds -> noDigitAhead rest ->
  extractLocationNumber (pre ++ ds ++ rest) = parseInt ds.
Proof.
  intros Hpre [Hds Hne] Hrest. unfold extractLocationNumber.
  destruct (exec_digits_first_run pre ds rest) as (m & -> & ->); try done.
  destruct (pre ++ ds ++ rest) eqn:E; [|done].
  apply app_eq_nil in E as [_ E]. apply app_eq_nil in E as [E _]. done.
Qed.

Lemma compareLocation_key a b :
  compareLocation a b = subtractSign (locationKey a) (locationKey b).
Proof. reflexivity. Qed.

Lemma sort_by_location_sorted l :
  StronglySorted (fun a b => numLe (locationKey a) (locationKey b))
    (ArraySort.sort compareLocation l).
Proof.
  apply (sort_StronglySorted compareLocation).
  - intros a b. rewrite !compareLocation_key. apply subtractSign_Gt_flip.
  - intros a b c. unfold notAfter. rewrite !compareLocation_key.
    apply numLe_trans.
Qed.

Lemma sort_by_location_stable l k :
  List.filter (fun n => bool_decide (locationKey n = k))
    (ArraySort.sort compareLocation l)
  = List.filter (fun n => bool_decide (locationKey n = k)) l.
Proof.
  apply sort_filter. intros x y Hx Hxy.
  apply bool_decide_eq_true in Hx. apply bool_decide_eq_false. intros Hy.
  rewrite compareLocation_key, Hx, Hy, subtractSign_refl in Hxy. done.
Qed.

End SortTheorems.

(** C5 (as stated, refuted).  The records are ordered by the double that
    [parseInt] returns, not by the integer that the digits denote.  The runs
    9007199254740993 and 9007199254740992 both give the double
    9007199254740992, so the two records are tied and [sortNotesByLocation]
    leaves the one with the larger integer before the one with the smaller. *)
Lemma sortNotesByLocation_not_by_integer :
  let a := atLocation "9007199254740993" in
  let b := atLocation "9007199254740992" in
  (sortNotesByLocation 7%nat farShelf).2 !! 7%nat = Some [a; b] /\
  (digitsValue (location b) < digitsValue (location a))%Z /\
  locationKey a = Finite 9007199254740992 /\
  locationKey b = Finite 9007199254740992.
Proof. split_and!; vm_compute; reflexivity. Qed.

(** C5 (amended).  [sortNotesByLocation] leaves in the array the records of
    the input
    in ascending order of [extractLocationNumber] of their location, records
    with the same number in their input order; the number is 0 for a location
    without digits (the empty one included) and otherwise the number that
    [parseInt] reads from the first run of digits, which is the value of the
    run as long as a double holds it exactly; on locations "10", "2", "10-20"
    the result is "2", "10", "10-20". *)
Theorem sortNotesByLocation_sorted_stable :
  (forall (h : Store) (arr : ref) (l : list KindleNote),
     h !! arr = Some l ->
     exists r, (sortNotesByLocation arr h).2 !! arr = Some r /\
       StronglySorted (fun a b => numLe (locationKey a) (locationKey b)) r /\
       Permutation l r /\
       forall k, List.filter (fun n => bool_decide (locationKey n = k)) r
                 = List.filter (fun n => bool_decide (locationKey n = k)) l)
  /\ (forall s, nonDigits s -> extractLocationNumber s = Finite 0)
  /\ (forall pre ds rest,
        nonDigits pre -> digitRun ds -> noDigitAhead rest ->
        extractLocationNumber (pre ++ ds ++ rest) = parseInt ds /\
        ((digitsValue ds < 2 ^ 53)%Z -> parseInt ds = Finite (digitsValue ds)))
  /\ (let h : Store := {[ 7%nat := [atLocation "10"; atLocation "2"; atLocation "10-20"] ]} in
      (sortNotesByLocation 7%nat h).2 !! 7%nat
      = Some [atLocation "2"; atLocation "10"; atLocation "10-20"]).
Proof.
  split_and!.
  - intros h arr l Hl. exists (ArraySort.sort compareLocation l).
    split_and!.
    + unfold sortNotesByLocation, Array_sort. simpl.
      by rewrite lookup_alter_eq, Hl.
    + apply sort_by_location_sorted.
    + apply sort_Permutation.
    + apply sort_by_location_stable.
  - apply extractLocationNumber_none.
  - intros pre ds rest Hpre Hds Hrest. split.
    + by apply extractLocationNumber_first_run.
    + intros Hlt. apply toNumber_exact. split; [|done].
      unfold digitsValue. destruct Hds as [Hds _].
      assert (Hgen : forall acc, (0 <= acc)%Z ->
        (0 <= fold_left (fun acc d => 10 * acc + (Z.of_N d - 48)) ds acc)%Z).
      { clear Hlt. induction Hds as [|d ds Hd _ IH]; intros acc Hacc; [done|].
        simpl. apply IH. unfold Digit, Char.isDigit in Hd.
        apply andb_true_iff in Hd as [H1 H2].
        apply N.leb_le in H1. lia. }
      by apply Hgen.
  - vm_compute. reflexivity.
Qed.



(** ** Dates *)

Section DateFacts.
Import Re ReSpec.
Variable Date_parse : jsstring -> option Z.
Variable clock : nat -> Z.

Lemma Matches_litN_elim w : forall s s',
  Matches false (litN w) s s' -> Ahead w s s' /\ caps s' = caps s.
Proof.
  induction w as [|c w IH]; intros s s' H; cbn [litN fold_right Matches] in H.
  - subst. split; [apply Ahead_refl|done].
  - destruct H as (s1 & H1 & H2).
    apply (Matches_char_elim false) in H1 as (x & A1 & Hx & C1).
    simpl in Hx. subst x. apply IH in H2 as [A2 C2].
    split; [|congruence]. apply (Ahead_trans [c] w _ s1); done.
Qed.

(** What [/Added on (.+?)$/] captures is the rest of the line after an
    occurrence of the phrase. *)
Lemma exec_addedOn_sound line m :
  RegExpOps.exec Pat.addedOn line = Some m ->
  exists pre, line = pre ++ js "Added on " ++ group_ 1 m /\ group_ 1 m <> [] /\
              Forall (fun c => Char.isDot c = true) (group_ 1 m).
Proof.
  unfold RegExpOps.exec. intros H.
  apply execFrom_sound in H as (pre & v & -> & H & _).
  apply matchAt_sound in H as [Hst HM]. rewrite Hst in HM.
  cbn [re_pattern Pat.addedOn seq Matches plusLazy dot lit] in HM.
  destruct HM as (s1 & Hl & s2 & (s3 & Hit & ->) & Hend & Hs).
  apply Matches_litN_elim in Hl as [Al Cl].
  apply (Iter_set_elim false Char.isDot) in Hit as (d & Ad & Fd & Cd & Ld).
  rewrite (Ahead_consumed _ _ _ Ad) in *.
  assert (Hg : group_ 1 m = d).
  { apply group_caps. rewrite Hs. simpl. rewrite Cd, Cl. done. }
  rewrite Hg. exists pre. split_and!; [|apply length_pos_nonnil; lia|done].
  f_equal.
  destruct (Ahead_trans _ _ _ _ _ Al (Ahead_setCap _ _ _ 1%nat d Ad)) as [HA _].
  rewrite Hend, app_nil_r in HA. unfold start in HA. cbn [after] in HA.
  rewrite HA. by rewrite app_nil_r.
Qed.

(** [parseMetadata] reads the clock once, for the default of line 92; the
    two other [new Date()] of the function are never reached. *)
Lemma parseMetadata_clock line w :
  (parseMetadata Date_parse clock line w).2 = S w.
Proof.
  unfold parseMetadata, newDateNow, parseKindleDate, newDate.
  destruct (RegExpOps.exec Pat.addedOn line); [|done].
  destruct (Date_parse _); done.
Qed.

Lemma parseMetadata_date_with_clause line w m :
  RegExpOps.exec Pat.addedOn line = Some m ->
  (parseMetadata Date_parse clock line w).1.2
  = match Date_parse (group_ 1 m) with
    | Some t => DateValue t
    | None => InvalidDate
    end.
Proof.
  intros Hm. unfold parseMetadata, newDateNow, parseKindleDate, newDate.
  rewrite Hm. destruct (Date_parse _); done.
Qed.

Lemma parseMetadata_date_without_clause line w :
  RegExpOps.exec Pat.addedOn line = None ->
  (parseMetadata Date_parse clock line w).1.2 = DateValue (clock w).
Proof.
  intros Hm. unfold parseMetadata, newDateNow. by rewrite Hm.
Qed.

End DateFacts.

(** C9.  For every string, [parseKindleDate] returns the very [Date] that
    [new Date(dateStr)] constructs, never [null]; so when the first pass is
    an invalid date, so is the second.  In [parseMetadata] the date of a line
    with an "Added on " clause is therefore always that of the first pass,
    and the clock is read only once, for the default. *)
Theorem parseKindleDate_same_as_first_pass
  (Date_parse : jsstring -> option Z) (dateStr : jsstring) :
  (exists d : JSDate,
     newDate Date_parse dateStr = Normal d /\
     parseKindleDate Date_parse dateStr = Some d /\
     (isNaN d = true ->
      forall d', parseKindleDate Date_parse dateStr = Some d' -> isNaN d' = true))
  /\ parseKindleDate Date_parse dateStr <> None
  /\ (forall clock metadataLine w dateMatch,
        RegExpOps.exec Pat.addedOn metadataLine = Some dateMatch ->
        Re.group_ 1 dateMatch = dateStr ->
        Normal (parseMetadata Date_parse clock metadataLine w).1.2
        = newDate Date_parse dateStr)
  /\ (forall clock metadataLine w,
        (parseMetadata Date_parse clock metadataLine w).2 = S w).
Proof.
  split_and!.
  - unfold parseKindleDate, newDate. eexists. split_and!; try done.
    intros Hd d' [= <-]. exact Hd.
  - done.
  - intros clock line w m Hm <-.
    by rewrite (parseMetadata_date_with_clause _ _ _ _ _ Hm).
  - intros clock line w. apply parseMetadata_clock.
Qed.

(** C1 (what the code does instead).  When the metadata line has an
    "Added on " clause whose date string [Date.parse] does not recognise,
    [dateAdded] is the invalid date, which is not the time of the clock, and
    no exception is raised. *)
Theorem parseMetadata_unparseable_date_is_invalid
  (Date_parse : jsstring -> option Z) (clock : nat -> Z)
  (metadataLine : jsstring) (w : nat) (dateMatch : Re.Match) :
  RegExpOps.exec Pat.addedOn metadataLine = Some dateMatch ->
  Date_parse (Re.group_ 1 dateMatch) = None ->
  (exists pre, metadataLine = pre ++ js "Added on " ++ Re.group_ 1 dateMatch) /\
  (parseMetadata Date_parse clock metadataLine w).1.2 = InvalidDate /\
  (forall t, (parseMetadata Date_parse clock metadataLine w).1.2 <> DateValue t).
Proof.
  intros Hm Hd.
  rewrite (parseMetadata_date_with_clause _ _ _ _ _ Hm), Hd.
  split_and!; [|done|done].
  destruct (exec_addedOn_sound _ _ Hm) as (pre & H & _). eauto.
Qed.

Lemma parseMetadata_unparseable_date_is_invalid_witness :
  parseMetadata exampleDateParse exampleClock undatedLine 0
  = ((Highlight, js "150-152", None, InvalidDate), 1%nat).
Proof.
  destruct (RegExpOps.exec Pat.addedOn undatedLine) as [m|] eqn:Hm;
    [|vm_compute in Hm; discriminate].
  assert (Hg : Re.group_ 1 m = js "not a date").
  { vm_compute in Hm. injection Hm as <-. vm_compute. reflexivity. }
  destruct (parseMetadata_unparseable_date_is_invalid
              exampleDateParse exampleClock undatedLine 0 m Hm) as (_ & H & _).
  { rewrite Hg. vm_compute. reflexivity. }
  vm_compute. reflexivity.
Defined.

(** ** The grouping by title *)

Section Grouping.

Lemma concat_Permutation {A} (l1 l2 : list (list A)) :
  Permutation l1 l2 -> Permutation (concat l1) (concat l2).
Proof.
  induction 1 as [|x l l' _ IH|x y l|l l' l'' _ IH1 _ IH2]; simpl.
  - done.
  - by apply Permutation_app_head.
  - rewrite !app_assoc. apply Permutation_app_tail, Permutation_app_comm.
  - by etrans.
Qed.

Lemma groupOf_snoc k l n :
  groupOf k (l ++ [n])
  = groupOf k l ++ (if bool_decide (bookTitle n = k) then [n] else []).
Proof. unfold groupOf. by rewrite List.filter_app. Qed.

Lemma getBook_own b key a : b !! key = Some a -> getBook b key = OwnArray a.
Proof. unfold getBook. by intros ->. Qed.

(** A note is pushed onto the group of its title, which is created when
    the title is new; the call throws exactly when the title is the name of
    an inherited property that no group shadows. *)
Lemma addNote_eq note p :
  addNote note p =
  match books p !! bookTitle note with
  | Some a =>
      (mkParser (notes p ++ [note])
         (<[bookTitle note := a ++ [note]]> (books p)), Normal tt)
  | None =>
      if bool_decide (bookTitle note ∈ Object_prototype_keys)
      then (mkParser (notes p ++ [note]) (books p),
            Throw "TypeError: this.books[note.bookTitle].push is not a function")
      else (mkParser (notes p ++ [note])
              (<[bookTitle note := [note]]> (books p)), Normal tt)
  end.
Proof.
  unfold addNote, getBook.
  destruct (books p !! bookTitle note) as [a|] eqn:Hb.
  - by rewrite ?Hb.
  - destruct (bool_decide _) eqn:Hk.
    + by rewrite ?Hb, ?Hk.
    + by rewrite lookup_insert_eq, insert_insert_eq.
Qed.

Lemma addNote_grouped note p p' :
  addNote note p = (p', Normal tt) ->
  grouped p -> Permutation (allGroups p) (notes p) ->
  grouped p' /\ Permutation (allGroups p') (notes p').
Proof.
  rewrite addNote_eq. intros Hadd Hg Hperm.
  pose proof (Hg (bookTitle note)) as Hkey.
  assert (Hstep : forall a (b' : gmap jsstring (list KindleNote)),
    groupOf (bookTitle note) (notes p) = a ->
    (forall k, k <> bookTitle note -> b' !! k = books p !! k) ->
    b' !! bookTitle note = Some (a ++ [note]) ->
    grouped (mkParser (notes p ++ [note]) b')).
  { intros a b' Ha Hother Hthis k. simpl. rewrite groupOf_snoc.
    destruct (decide (bookTitle note = k)) as [<-|Hne].
    - rewrite bool_decide_eq_true_2 by done. rewrite Hthis, Ha.
      by destruct a.
    - rewrite bool_decide_eq_false_2 by done. rewrite app_nil_r.
      rewrite Hother by done. apply Hg. }
  destruct (books p !! bookTitle note) as [a|] eqn:Hb.
  - inversion Hadd; subst p'; clear Hadd. split.
    + apply (Hstep a).
      * destruct (groupOf (bookTitle note) (notes p)); congruence.
      * intros k Hk. by rewrite lookup_insert_ne.
      * apply lookup_insert_eq.
    + unfold allGroups in *. simpl.
      rewrite <- insert_delete_eq.
      rewrite map_to_list_insert by apply lookup_delete_eq.
      rewrite <- Hperm, <- (map_to_list_delete _ _ _ Hb). simpl.
      rewrite <- !app_assoc.
      apply Permutation_app_head, Permutation_app_comm.
  - destruct (bool_decide (bookTitle note ∈ Object_prototype_keys)); [done|].
    inversion Hadd; subst p'; clear Hadd. split.
    + apply (Hstep []).
      * destruct (groupOf (bookTitle note) (notes p)); congruence.
      * intros k Hk. by rewrite lookup_insert_ne.
      * apply lookup_insert_eq.
    + unfold allGroups in *. simpl.
      rewrite map_to_list_insert by done. simpl.
      rewrite Hperm. apply (Permutation_app_comm [note]).
Qed.

Variable Date_parse : jsstring -> option Z.
Variable clock : nat -> Z.

Lemma forEachEntry_grouped entries : forall p w p' w',
  forEachEntry Date_parse clock entries p w = (p', w', Normal tt) ->
  grouped p -> Permutation (allGroups p) (notes p) ->
  grouped p' /\ Permutation (allGroups p') (notes p').
Proof.
  induction entries as [|entry rest IH]; intros p w p' w' H Hg Hp; simpl in H.
  - by inversion H; subst.
  - destruct (parseFileStep _ _ entry p w) as [[p1 w1] [[]|e]] eqn:Hstep;
      [|done].
    apply IH in H; [done| |].
    + unfold parseFileStep in Hstep.
      destruct (Str.trim entry); [by inversion Hstep; subst|].
      destruct (parseEntry _ _ _ w) as [[note|] w2].
      * destruct (addNote note p) as [p2 c] eqn:Ha.
        inversion Hstep; subst. by apply (addNote_grouped _ _ _ Ha).
      * by inversion Hstep; subst.
    + unfold parseFileStep in Hstep.
      destruct (Str.trim entry); [by inversion Hstep; subst|].
      destruct (parseEntry _ _ _ w) as [[note|] w2].
      * destruct (addNote note p) as [p2 c] eqn:Ha.
        inversion Hstep; subst. by apply (addNote_grouped _ _ _ Ha).
      * by inversion Hstep; subst.
Qed.

Lemma parseFile_grouped content w p w' :
  parseFile Date_parse clock content w = (p, w', Normal tt) ->
  grouped p /\ Permutation (allGroups p) (notes p).
Proof.
  intros H. apply forEachEntry_grouped in H; [done| |].
  - intros k. simpl. apply lookup_empty.
  - unfold allGroups. simpl. by rewrite map_to_list_empty.
Qed.

Lemma grouped_dom p :
  grouped p ->
  dom (books p) = (list_to_set (bookTitle <$> notes p) : gset jsstring).
Proof.
  intros Hg. apply set_eq. intros k.
  rewrite elem_of_dom, elem_of_list_to_set, list_elem_of_fmap, Hg.
  unfold groupOf. split.
  - intros [g Hk].
    destruct (List.filter _ _) as [|n g'] eqn:Hf; [done|].
    assert (Hn : List.In n (List.filter (fun n => bool_decide (bookTitle n = k)) (notes p)))
      by (rewrite Hf; by left).
    apply List.filter_In in Hn as [Hn Hk'].
    apply bool_decide_eq_true in Hk'. exists n. split; [done|].
    by apply list_elem_of_In.
  - intros (n & -> & Hn).
    destruct (List.filter _ _) as [|n' g'] eqn:Hf; [|by eexists].
    assert (Hin : List.In n (List.filter (fun m => bool_decide (bookTitle m = bookTitle n)) (notes p))).
    { apply List.filter_In. split; [by apply list_elem_of_In|].
      by apply bool_decide_eq_true. }
    rewrite Hf in Hin. done.
Qed.

Lemma grouped_size p :
  grouped p -> size (books p) = length (remove_dups (bookTitle <$> notes p)).
Proof.
  intros Hg.
  rewrite <- (size_dom (D := gset jsstring)), (grouped_dom _ Hg).
  rewrite <- (size_list_to_set (C := gset jsstring) (remove_dups _))
    by apply NoDup_remove_dups.
  f_equal. apply set_eq. intros k.
  by rewrite !elem_of_list_to_set, elem_of_remove_dups.
Qed.

End Grouping.

(** ** Titles that name an inherited property *)

Section Inherited.
Variable Date_parse : jsstring -> option Z.
Variable clock : nat -> Z.

Lemma addNote_ownTitlesOnly note p :
  ownTitlesOnly p ->
  if bool_decide (bookTitle note ∈ Object_prototype_keys)
  then exists e, (addNote note p).2 = Throw e /\ note ∈ notes (addNote note p).1
  else (addNote note p).2 = Normal tt /\ ownTitlesOnly (addNote note p).1.
Proof.
  intros [Hn Hb]. rewrite addNote_eq.
  destruct (bool_decide (bookTitle note ∈ Object_prototype_keys)) eqn:Hk.
  - apply bool_decide_eq_true in Hk.
    destruct (books p !! bookTitle note) as [a|] eqn:Ha.
    + exfalso. apply (Hb (bookTitle note)); [by eexists|done].
    + eexists. split; [done|]. simpl. apply elem_of_app. right. by left.
  - apply bool_decide_eq_false in Hk.
    assert (Hnotes : forall n, n ∈ notes p ++ [note] ->
                       bookTitle n ∉ Object_prototype_keys).
    { intros n [H|H]%elem_of_app; [by apply Hn|].
      apply list_elem_of_singleton in H. by subst. }
    assert (Hbooks : forall v k,
              is_Some (<[bookTitle note := v]> (books p) !! k) ->
              k ∉ Object_prototype_keys).
    { intros v k. destruct (decide (bookTitle note = k)) as [<-|Hne]; [done|].
      rewrite lookup_insert_ne by done. apply Hb. }
    destruct (books p !! bookTitle note) as [a|] eqn:Ha; (split; [done|]);
      split; simpl; eauto.
Qed.

Lemma forEachEntry_returns entries : forall p w,
  ownTitlesOnly p ->
  let r := forEachEntry Date_parse clock entries p w in
  (r.2 = Normal tt /\ ownTitlesOnly r.1.1) \/
  (exists e n, r.2 = Throw e /\ n ∈ notes r.1.1 /\
               bookTitle n ∈ Object_prototype_keys).
Proof.
  induction entries as [|entry rest IH]; intros p w Hp; simpl; [by left|].
  unfold parseFileStep. destruct (Str.trim entry) as [|c t]; [by apply IH|].
  destruct (parseEntry Date_parse clock (c :: t) w) as [[note|] w'];
    [|by apply IH].
  pose proof (addNote_ownTitlesOnly note p Hp) as Ha.
  destruct (bool_decide (bookTitle note ∈ Object_prototype_keys)) eqn:Hk.
  - destruct Ha as (e & He & Hin). apply bool_decide_eq_true in Hk.
    destruct (addNote note p) as [p' c']. simpl in *. subst c'.
    right. exists e, note. done.
  - destruct Ha as [Hc Hown].
    destruct (addNote note p) as [p' c']. simpl in *. subst c'.
    by apply IH.
Qed.

End Inherited.

Lemma parseFile_returns_iff (Date_parse : jsstring -> option Z) (clock : nat -> Z)
  (content : jsstring) (w : nat) :
  (parseFile Date_parse clock content w).2 = Normal tt <->
  forall n, n ∈ notes (parseFile Date_parse clock content w).1.1 ->
            bookTitle n ∉ Object_prototype_keys.
Proof.
  unfold parseFile.
  destruct (forEachEntry_returns Date_parse clock
              (Str.split (js "==========") content) (mkParser [] ∅) w)
    as [[Hc [Hn _]]|(e & n & Hc & Hin & Hk)].
  { split; simpl.
    - intros n Hn. by apply elem_of_nil in Hn.
    - intros k [v Hv]. by rewrite lookup_empty in Hv. }
  - split; [intros _; exact Hn|intros _; exact Hc].
  - split.
    + rewrite Hc. done.
    + intros H. exfalso. by apply (H n).
Qed.

(** ** Parsing a file *)

Section ParseFileFacts.
Variable Date_parse : jsstring -> option Z.
Variable clock : nat -> Z.

Lemma parseEntry_short entry w :
  (length (entryLines entry) < 2)%nat ->
  parseEntry Date_parse clock entry w = (None, w).
Proof.
  unfold parseEntry. destruct (entryLines entry) as [|l0 [|l1 rest]]; simpl;
    [done|done|lia].
Qed.

Lemma parseFileStep_short entry p w :
  (length (entryLines (Str.trim entry)) < 2)%nat ->
  parseFileStep Date_parse clock entry p w = (p, w, Normal tt).
Proof.
  intros H. unfold parseFileStep. destruct (Str.trim entry) eqn:E; [done|].
  by rewrite parseEntry_short.
Qed.

End ParseFileFacts.

(** C3.  An entry with fewer than two usable lines yields no record, and the
    pass over the entries goes on with the parser unchanged.  But the parse
    as a whole can throw: it returns exactly when no record has a title that
    names an inherited property of [books], and it throws on an entry of two
    junk lines whose first line is "constructor". *)
Theorem parseFile_throws_on_inherited_title
  (Date_parse : jsstring -> option Z) (clock : nat -> Z) (w : nat) :
  (forall entry, (length (entryLines entry) < 2)%nat ->
     parseEntry Date_parse clock entry w = (None, w))
  /\ (forall entry p, (length (entryLines (Str.trim entry)) < 2)%nat ->
        parseFileStep Date_parse clock entry p w = (p, w, Normal tt))
  /\ (forall content,
        (parseFile Date_parse clock content w).2 = Normal tt <->
        forall n, n ∈ notes (parseFile Date_parse clock content w).1.1 ->
                  bookTitle n ∉ Object_prototype_keys)
  /\ (parseFile Date_parse clock junkEntry w).2
     = Throw "TypeError: this.books[note.bookTitle].push is not a function".
Proof.
  split_and!.
  - intros entry. apply parseEntry_short.
  - intros entry p. apply parseFileStep_short.
  - intros content. apply parseFile_returns_iff.
  - vm_compute. reflexivity.
Qed.

(** Grouping after a parse that returns: every record of the flat list is in
    the group of its title, every group is the list of the records with its
    title in their order of the flat list, and all groups together are a
    permutation of the flat list. *)
Theorem parseFile_grouping
  (Date_parse : jsstring -> option Z) (clock : nat -> Z)
  (content : jsstring) (w : nat) (p : ParserState) (w' : nat) :
  parseFile Date_parse clock content w = (p, w', Normal tt) ->
  (forall n, n ∈ notes p ->
     exists g, books p !! bookTitle n = Some g /\ n ∈ g) /\
  (forall k g, books p !! k = Some g ->
     g = groupOf k (notes p) /\ forall n, n ∈ g -> bookTitle n = k) /\
  Permutation (allGroups p) (notes p).
Proof.
  intros H. apply parseFile_grouped in H as [Hg Hp]. split_and!; [| |done].
  - intros n Hn. rewrite Hg.
    assert (Hin : List.In n (groupOf (bookTitle n) (notes p))).
    { apply List.filter_In. split; [by apply list_elem_of_In|].
      by apply bool_decide_eq_true. }
    destruct (groupOf (bookTitle n) (notes p)) as [|n0 g] eqn:E; [done|].
    eexists. split; [done|]. by apply list_elem_of_In.
  - intros k g Hk. rewrite Hg in Hk.
    assert (g = groupOf k (notes p)) as ->
      by (destruct (groupOf k (notes p)); congruence).
    split; [done|]. intros n Hn. apply list_elem_of_In, List.filter_In in Hn as [_ Hn].
    by apply bool_decide_eq_true in Hn.
Qed.

(** C6.  On a clipping of a book titled "constructor" the parse pushes the
    record onto the flat list and then throws: afterwards the flat list has
    the record and the grouping has no group at all. *)
Theorem parseFile_throw_leaves_record_ungrouped (clock : nat -> Z) (w : nat) :
  let p := (parseFile exampleDateParse clock inheritedTitleClipping w).1.1 in
  (parseFile exampleDateParse clock inheritedTitleClipping w).2
    = Throw "TypeError: this.books[note.bookTitle].push is not a function" /\
  List.map bookTitle (notes p) = [js "constructor"] /\
  (forall n, n ∈ notes p -> books p !! bookTitle n = None) /\
  allGroups p = [].
Proof.
  assert (Hb : books (parseFile exampleDateParse clock inheritedTitleClipping w).1.1 = ∅)
    by (vm_compute; reflexivity).
  split_and!.
  - vm_compute. reflexivity.
  - vm_compute. reflexivity.
  - intros n _. rewrite Hb. apply lookup_empty.
  - unfold allGroups. rewrite Hb. by rewrite map_to_list_empty.
Qed.

(** C2 (as stated, refuted).  The object that [getStatistics] returns has the
    five properties below and none for the kind Unknown: after parsing a file
    with one highlight and two entries of unknown kind no property has the
    value 2. *)
Lemma getStatistics_no_unknown_count :
  let p := (parseFile exampleDateParse exampleClock mixedKinds 0).1.1 in
  countKind Unknown (notes p) = 2%nat /\
  Stats.entries (getStatistics p)
  = [("totalNotes", 3); ("totalBooks", 1); ("highlights", 1);
     ("bookmarks", 0); ("notes", 0)]%string%nat /\
  forall kv, kv ∈ Stats.entries (getStatistics p) ->
             kv.2 <> countKind Unknown (notes p).
Proof.
  split_and!; [vm_compute; reflexivity..|].
  intros kv Hkv.
  assert (Hc : countKind Unknown
                 (notes (parseFile exampleDateParse exampleClock mixedKinds 0).1.1)
               = 2%nat) by (vm_compute; reflexivity).
  rewrite Hc. clear Hc.
  assert (He : Stats.entries (getStatistics
                 (parseFile exampleDateParse exampleClock mixedKinds 0).1.1)
               = [("totalNotes", 3); ("totalBooks", 1); ("highlights", 1);
                  ("bookmarks", 0); ("notes", 0)]%string%nat)
    by (vm_compute; reflexivity).
  rewrite He in Hkv. clear He.
  rewrite !elem_of_cons, elem_of_nil in Hkv.
  destruct Hkv as [->|[->|[->|[->|[->|[]]]]]]; simpl; lia.
Qed.

Lemma countKind_total l :
  length l = (countKind Highlight l + countKind Bookmark l + countKind Note l
              + countKind Unknown l)%nat.
Proof.
  unfold countKind. induction l as [|n l IH]; [done|].
  simpl. destruct (noteType n); simpl; lia.
Qed.

(** C2 (amended).  [getStatistics] returns the number of records, the number
    of groups, and the numbers of records of kind Highlight, Bookmark and
    Note; the number of records of kind Unknown is what remains of the total.
    After a parse that returns, the number of groups is the number of
    distinct titles among the records. *)
Theorem getStatistics_counts
  (Date_parse : jsstring -> option Z) (clock : nat -> Z)
  (content : jsstring) (w : nat) (p : ParserState) (w' : nat)
  (c : Completion unit) :
  parseFile Date_parse clock content w = (p, w', c) ->
  let s := getStatistics p in
  Stats.totalNotes s = length (notes p) /\
  Stats.totalBooks s = size (dom (books p)) /\
  Stats.highlights s = countKind Highlight (notes p) /\
  Stats.bookmarks s = countKind Bookmark (notes p) /\
  Stats.notes s = countKind Note (notes p) /\
  (Stats.totalNotes s
   = Stats.highlights s + Stats.bookmarks s + Stats.notes s
     + countKind Unknown (notes p))%nat /\
  (c = Normal tt ->
   Stats.totalBooks s = length (remove_dups (bookTitle <$> notes p))).
Proof.
  intros H. simpl. split_and!; try done.
  - by rewrite size_dom.
  - apply countKind_total.
  - intros ->. apply parseFile_grouped in H as [Hg _]. by apply grouped_size.
Qed.

Lemma getStatistics_counts_witness :
  let p := (parseFile exampleDateParse exampleClock scenario 0).1.1 in
  Stats.totalBooks (getStatistics p) = length (remove_dups (bookTitle <$> notes p)) /\
  getStatistics p = Stats.mk 2 1 1 1 0 /\
  countKind Unknown (notes p) = 0%nat.
Proof.
  split_and!.
  - apply (getStatistics_counts exampleDateParse exampleClock scenario 0 _
             (parseFile exampleDateParse exampleClock scenario 0).1.2 (Normal tt));
      vm_compute; reflexivity.
  - vm_compute. reflexivity.
  - vm_compute. reflexivity.
Defined.

(** ** Parsing the same text twice *)

Section Twice.
Variable Date_parse : jsstring -> option Z.
Variables clock1 clock2 : nat -> Z.

Lemma parseMetadata_twice line w1 w2 :
  let r1 := parseMetadata Date_parse clock1 line w1 in
  let r2 := parseMetadata Date_parse clock2 line w2 in
  r1.1.1 = r2.1.1 /\ r1.2 = S w1 /\ r2.2 = S w2 /\
  (RegExpOps.exec Pat.addedOn line <> None \/ clock1 w1 = clock2 w2 ->
   r1.1.2 = r2.1.2) /\
  (r1.1.2 = r2.1.2 \/
   (r1.1.2 = DateValue (clock1 w1) /\ r2.1.2 = DateValue (clock2 w2))).
Proof.
  unfold parseMetadata, newDateNow, parseKindleDate, newDate. simpl.
  destruct (RegExpOps.exec Pat.addedOn line) as [m|]; simpl.
  - destruct (Date_parse _); simpl; split_and!; auto.
  - split_and!; auto. intros [H|H]; [done|by rewrite H].
Qed.

Lemma parseEntry_twice entry w1 w2 :
  match parseEntry Date_parse clock1 entry w1,
        parseEntry Date_parse clock2 entry w2 with
  | (Some n1, w1'), (Some n2, w2') =>
      w1' = S w1 /\ w2' = S w2 /\ (sameEntry clock1 clock2) n1 n2 /\
      (hasDateClause entry \/ clock1 w1 = clock2 w2 -> n1 = n2)
  | (None, w1'), (None, w2') => w1' = w1 /\ w2' = w2
  | _, _ => False
  end.
Proof.
  unfold parseEntry, hasDateClause.
  destruct (entryLines entry) as [|line0 [|line1 rest]]; [done|done|].
  destruct (parseTitleAuthor line0) as [t a].
  pose proof (parseMetadata_twice line1 w1 w2) as H. simpl in H.
  destruct (parseMetadata Date_parse clock1 line1 w1) as [[[[nt1 l1] p1] d1] w1'].
  destruct (parseMetadata Date_parse clock2 line1 w2) as [[[[nt2 l2] p2] d2] w2'].
  simpl in H. destruct H as (Hf & -> & -> & Hd & Hd').
  inversion Hf; subst. split_and!; try done.
  - split; [done|]. simpl. destruct Hd' as [?|[??]]; eauto.
  - intros Hc. by rewrite (Hd Hc).
Qed.

Lemma addNote_twice n1 n2 p1 p2 :
  (sameEntry clock1 clock2) n1 n2 -> (sameParse clock1 clock2) p1 p2 ->
  (sameParse clock1 clock2) (addNote n1 p1).1 (addNote n2 p2).1 /\
  (addNote n1 p1).2 = (addNote n2 p2).2.
Proof.
  intros Hn [Hnotes Hdom]. rewrite !addNote_eq.
  assert (Ht : bookTitle n1 = bookTitle n2) by apply Hn.
  assert (Hsnoc : Forall2 (sameEntry clock1 clock2) (notes p1 ++ [n1]) (notes p2 ++ [n2])).
  { apply Forall2_app; [done|]. constructor; [done|constructor]. }
  assert (Hlook : is_Some (books p1 !! bookTitle n1)
                  <-> is_Some (books p2 !! bookTitle n2)).
  { rewrite <- !elem_of_dom, Hdom, Ht. done. }
  rewrite <- Ht.
  destruct (books p1 !! bookTitle n1) as [a1|] eqn:H1;
    destruct (books p2 !! bookTitle n1) as [a2|] eqn:H2.
  - split; [|done]. split; [done|]. simpl. rewrite !dom_insert_L. by rewrite Hdom.
  - rewrite <- Ht, H2 in Hlook. destruct Hlook as [Hl _].
    destruct Hl as [? ?]; [by eexists|done].
  - rewrite <- Ht, H2 in Hlook. destruct Hlook as [_ Hl].
    destruct Hl as [? ?]; [by eexists|done].
  - destruct (bool_decide _); (split; [|done]); (split; [done|]); simpl.
    + done.
    + rewrite !dom_insert_L. by rewrite Hdom.
Qed.

Lemma forEachEntry_twice entries : forall p1 p2 w1 w2,
  (sameParse clock1 clock2) p1 p2 ->
  let r1 := forEachEntry Date_parse clock1 entries p1 w1 in
  let r2 := forEachEntry Date_parse clock2 entries p2 w2 in
  (sameParse clock1 clock2) r1.1.1 r2.1.1 /\ r1.2 = r2.2.
Proof.
  induction entries as [|entry rest IH]; intros p1 p2 w1 w2 Hp; simpl; [done|].
  unfold parseFileStep. destruct (Str.trim entry) as [|c t] eqn:E.
  - by apply IH.
  - pose proof (parseEntry_twice (c :: t) w1 w2) as He.
    destruct (parseEntry Date_parse clock1 (c :: t) w1) as [[n1|] w1'];
      destruct (parseEntry Date_parse clock2 (c :: t) w2) as [[n2|] w2'];
      try done.
    + destruct He as (_ & _ & Hn & _).
      destruct (addNote_twice n1 n2 p1 p2 Hn Hp) as [Hs Hc].
      destruct (addNote n1 p1) as [p1' c1], (addNote n2 p2) as [p2' c2].
      simpl in *. subst c2. destruct c1 as [[]|e]; [by apply IH|done].
    + by apply IH.
Qed.

Lemma forEachEntry_same entries : forall p w1 w2,
  (Forall (fun e => hasDateClause (Str.trim e)) entries \/
   forall i, clock1 (w1 + i)%nat = clock2 (w2 + i)%nat) ->
  let r1 := forEachEntry Date_parse clock1 entries p w1 in
  let r2 := forEachEntry Date_parse clock2 entries p w2 in
  r1.1.1 = r2.1.1 /\ r1.2 = r2.2.
Proof.
  induction entries as [|entry rest IH]; intros p w1 w2 H; simpl; [done|].
  assert (Hrest : forall d,
    Forall (fun e => hasDateClause (Str.trim e)) rest \/
    forall i, clock1 (w1 + d + i)%nat = clock2 (w2 + d + i)%nat).
  { intros d. destruct H as [H|H]; [left; by inversion H|right].
    intros i. rewrite <- !Nat.add_assoc. apply H. }
  unfold parseFileStep. destruct (Str.trim entry) as [|c t] eqn:E.
  - apply IH. destruct (Hrest 0%nat) as [?|Hr]; [by left|right].
    intros i. specialize (Hr i). by rewrite !Nat.add_0_r in Hr.
  - pose proof (parseEntry_twice (c :: t) w1 w2) as He.
    destruct (parseEntry Date_parse clock1 (c :: t) w1) as [[n1|] w1'];
      destruct (parseEntry Date_parse clock2 (c :: t) w2) as [[n2|] w2'];
      try done.
    + destruct He as (-> & -> & _ & Heq).
      rewrite (Heq) by
        (destruct H as [H|H];
         [left; inversion H; subst; by rewrite <- E
         |right; specialize (H 0%nat); by rewrite !Nat.add_0_r in H]).
      destruct (addNote n2 p) as [p' [[]|e]]; [|done].
      apply IH. destruct (Hrest 1%nat) as [?|Hr]; [by left|right].
      intros i. specialize (Hr i). by rewrite !Nat.add_1_r in Hr.
    + destruct He as [-> ->].
      apply IH. destruct (Hrest 0%nat) as [?|Hr]; [by left|right].
      intros i. specialize (Hr i). by rewrite !Nat.add_0_r in Hr.
Qed.

End Twice.

(** C4 (as stated, refuted).  A text without a date clause, parsed twice while
    the clock advances, gives two record lists that differ in [dateAdded]. *)
Lemma parseFile_twice_differs :
  let first := parseFile exampleDateParse exampleClock undatedClipping 0 in
  let second := parseFile exampleDateParse exampleClock undatedClipping first.1.2 in
  notes first.1.1 <> notes second.1.1 /\
  List.map dateAdded (notes first.1.1) = [DateValue 1704110400000] /\
  List.map dateAdded (notes second.1.1) = [DateValue 1704110400001].
Proof.
  split_and!; [|vm_compute; reflexivity..].
  intros H. apply (f_equal (List.map dateAdded)) in H.
  vm_compute in H. discriminate H.
Qed.

(** C4 (amended).  Parsing the same text twice, whatever the clock does, ends
    the same way and gives two record lists of the same length whose records
    agree one by one on every field other than [dateAdded]; the dates agree
    as well unless both were read from the clock.  The two lists are equal if
    every entry has an "Added on " clause, and also if the clock shows the
    second parse the times that it showed the first. *)
Theorem parseFile_twice
  (Date_parse : jsstring -> option Z) (clock1 clock2 : nat -> Z)
  (content : jsstring) (w1 w2 : nat) :
  let first := parseFile Date_parse clock1 content w1 in
  let second := parseFile Date_parse clock2 content w2 in
  first.2 = second.2 /\
  Forall2 (sameEntry clock1 clock2) (notes first.1.1) (notes second.1.1) /\
  (Forall (fun e => hasDateClause (Str.trim e))
     (Str.split (js "==========") content) ->
   notes first.1.1 = notes second.1.1) /\
  ((forall i, clock1 (w1 + i)%nat = clock2 (w2 + i)%nat) ->
   notes first.1.1 = notes second.1.1).
Proof.
  intros first second. subst first second. unfold parseFile.
  set (entries := Str.split (js "==========") content).
  destruct (forEachEntry_twice Date_parse clock1 clock2 entries
              (mkParser [] ∅) (mkParser [] ∅) w1 w2) as [[Hn _] Hc].
  { split; [constructor|done]. }
  split_and!; [done|done| |].
  - intros H.
    destruct (forEachEntry_same Date_parse clock1 clock2 entries
                (mkParser [] ∅) w1 w2 (or_introl H)) as [Heq _].
    by rewrite Heq.
  - intros H.
    destruct (forEachEntry_same Date_parse clock1 clock2 entries
                (mkParser [] ∅) w1 w2 (or_intror H)) as [Heq _].
    by rewrite Heq.
Qed.

(** ** Cleaning a title *)

(** C8.  [cleanBookTitle] turns the raw title
    "dokumen.pub_great-expectations-0123456789" with the author
    "Charles Dickens" into "Great Expectations": the prefix is stripped, then
    the run of digits, the hyphens become spaces, the author does not occur
    at the end, and the words are capitalised. *)
Theorem cleanBookTitle_great_expectations :
  let raw := js "dokumen.pub_great-expectations-0123456789" in
  let author := js "Charles Dickens" in
  let noPrefix := RegExpOps.replace Pat.dokumenPrefix empty_
                    (RegExpOps.replace Pat.vdocPrefix empty_ raw) in
  let noNumber := RegExpOps.replace Pat.longNumber empty_ noPrefix in
  let spaced := RegExpOps.replace Pat.dashes blank_ noNumber in
  let tidy := Str.trim (RegExpOps.replace Pat.spacesG blank_ spaced) in
  noPrefix = js "great-expectations-0123456789" /\
  noNumber = js "great-expectations-" /\
  spaced = js "great expectations " /\
  tidy = js "great expectations" /\
  RegExpOps.split Pat.spaces (Str.trim author) = [js "Charles"; js "Dickens"] /\
  RegExpOps.exec
    (newRegExp_i (js "\b" ++ escapeRegex (Str.trim author) ++ js "\b\s*$")) tidy
  = None /\
  cleanBookTitle raw author = js "Great Expectations".
Proof. cbv zeta. split_and!; vm_compute; reflexivity. Qed.

(** * Further properties *)

(** ** Strings *)

Section StringFacts.

Lemma trimStart_noLeadingSpace s : noLeadingSpace (Str.trimStart s).
Proof.
  induction s as [|c s IH]; simpl; [done|].
  destruct (Char.isSpace c) eqn:Hc; [done|]. simpl. done.
Qed.

Lemma trimStart_id s : noLeadingSpace s -> Str.trimStart s = s.
Proof. destruct s as [|c s]; simpl; [done|]. by intros ->. Qed.

Lemma trimStart_suffix s : exists ws, s = ws ++ Str.trimStart s /\
  Forall (fun c => Char.isSpace c = true) ws.
Proof.
  induction s as [|c s (ws & Hs & Hws)]; simpl.
  - by exists [].
  - destruct (Char.isSpace c) eqn:Hc.
    + exists (c :: ws). split; [by rewrite Hs at 1|by constructor].
    + by exists [].
Qed.

Lemma noLeadingSpace_app s t :
  s <> [] -> noLeadingSpace s -> noLeadingSpace (s ++ t).
Proof. by destruct s. Qed.

Lemma trimEnd_keeps_start s : noLeadingSpace s -> noLeadingSpace (Str.trimEnd s).
Proof.
  intros Hs. unfold Str.trimEnd.
  destruct (trimStart_suffix (rev s)) as (ws & Hrev & Hws).
  assert (Heq : s = rev (Str.trimStart (rev s)) ++ rev ws).
  { rewrite <- rev_app_distr, <- Hrev. by rewrite rev_involutive. }
  destruct (rev (Str.trimStart (rev s))) as [|c r] eqn:E; [done|].
  rewrite Heq in Hs. done.
Qed.

Lemma Trimmed_iff s : Trimmed s <-> noLeadingSpace s /\ noLeadingSpace (rev s).
Proof.
  unfold Trimmed, Str.trim. split.
  - intros H. split.
    + rewrite <- H. apply trimEnd_keeps_start, trimStart_noLeadingSpace.
    + rewrite <- H at 1. unfold Str.trimEnd. rewrite rev_involutive.
      apply trimStart_noLeadingSpace.
  - intros [H1 H2]. rewrite (trimStart_id s H1). unfold Str.trimEnd.
    by rewrite (trimStart_id _ H2), rev_involutive.
Qed.

(** [trim] is idempotent. *)
Lemma trim_Trimmed s : Trimmed (Str.trim s).
Proof.
  apply Trimmed_iff. unfold Str.trim. split.
  - apply trimEnd_keeps_start, trimStart_noLeadingSpace.
  - unfold Str.trimEnd. rewrite rev_involutive. apply trimStart_noLeadingSpace.
Qed.

Lemma trim_nonempty_start s c t :
  s = c :: t -> Char.isSpace c = false -> Str.trim s <> [].
Proof.
  intros -> Hc. unfold Str.trim. simpl. rewrite Hc.
  unfold Str.trimEnd. intros H.
  apply (f_equal (@rev N)) in H. rewrite rev_involutive in H.
  change (rev []) with (@nil N) in H.
  destruct (trimStart_suffix (rev (c :: t))) as (ws & Hrev & Hws).
  rewrite H, app_nil_r in Hrev.
  assert (Hin : c ∈ ws).
  { rewrite <- Hrev. apply list_elem_of_In, in_rev. rewrite rev_involutive. by left. }
  rewrite Forall_forall in Hws. apply Hws in Hin. congruence.
Qed.

(** [includes] finds exactly the occurrences. *)
Lemma stripPrefix_Some p : forall s rest,
  Str.stripPrefix p s = Some rest <-> s = p ++ rest.
Proof.
  induction p as [|a p IH]; intros s rest; simpl.
  - split; [by intros [= ->]|by intros ->].
  - destruct s as [|b s]; [done|].
    destruct (a =? b) eqn:Hab.
    + apply N.eqb_eq in Hab as ->. rewrite IH. split; [by intros ->|by intros [= ->]].
    + apply N.eqb_neq in Hab. split; [done|]. intros [= -> _]. done.
Qed.

Lemma includes_Occurs p s : Str.includes p s = true <-> Occurs p s.
Proof.
  induction s as [|c s IH]; simpl.
  - destruct (Str.stripPrefix p []) as [rest|] eqn:Hp.
    + split; [|done]. intros _. apply stripPrefix_Some in Hp.
      exists [], rest. done.
    + split; [done|]. intros (pre & post & H).
      symmetry in H. apply app_eq_nil in H as [-> H].
      assert (Str.stripPrefix p [] = Some post) as Hs
        by (apply stripPrefix_Some; by rewrite H).
      congruence.
  - destruct (Str.stripPrefix p (c :: s)) as [rest|] eqn:Hp.
    + split; [|done]. intros _. apply stripPrefix_Some in Hp.
      exists [], rest. done.
    + rewrite IH. split.
      * intros (pre & post & ->). by exists (c :: pre), post.
      * intros ([|c' pre] & post & H).
        -- assert (Str.stripPrefix p (c :: s) = Some post) as Hs
             by (by apply stripPrefix_Some).
           congruence.
        -- inversion H; subst. by exists pre, post.
Qed.

End StringFacts.

(** ** The fields of a parsed record *)

Section RecordFacts.
Variable Date_parse : jsstring -> option Z.
Variable clock : nat -> Z.

Lemma entryLines_tidy entry :
  Forall (fun line => line <> [] /\ Trimmed line) (entryLines entry).
Proof.
  unfold entryLines. apply Forall_forall. intros line Hin.
  apply list_elem_of_In, List.filter_In in Hin as [Hin Hne].
  apply negb_true_iff, bool_decide_eq_false in Hne.
  apply List.in_map_iff in Hin as (raw & <- & _).
  split; [done|apply trim_Trimmed].
Qed.

Lemma Trimmed_nonempty_head s :
  s <> [] -> Trimmed s -> exists c t, s = c :: t /\ Char.isSpace c = false.
Proof.
  intros Hne [H _]%Trimmed_iff. destruct s as [|c t]; [done|]. by exists c, t.
Qed.

Lemma stripBOM_Trimmed s : Trimmed s -> stripBOM s = s.
Proof.
  intros [H _]%Trimmed_iff. destruct s as [|c t]; [done|]. simpl in *.
  destruct (c =? 65279) eqn:Hc; [|done].
  apply N.eqb_eq in Hc. subst c. done.
Qed.

Lemma parseTitleAuthor_tidy line :
  line <> [] -> Trimmed line ->
  (parseTitleAuthor line).1 <> [] /\ Trimmed (parseTitleAuthor line).1 /\
  Trimmed (parseTitleAuthor line).2.
Proof.
  intros Hne Ht. destruct (Trimmed_nonempty_head _ Hne Ht) as (c & t & -> & Hc).
  unfold parseTitleAuthor. rewrite replace_bom, (stripBOM_Trimmed _ Ht).
  unfold RegExpOps.exec. rewrite titleAuthor_pattern, execFrom_anchored.
  rewrite <- titleAuthor_pattern. simpl re_ignoreCase. simpl re_groups.
  destruct (Re.matchAt _ _ _ _ _) as [m|] eqn:Hm; simpl.
  - destruct (titleAuthor_matchAt _ _ Hm) as (t1 & ws & a & Hshape & Hcaps & _).
    rewrite (group_caps m 1 t1), (group_caps m 2 a) by (by rewrite Hcaps).
    split_and!; [|apply trim_Trimmed..].
    destruct Hshape as (Hl & Ht1 & _).
    destruct t1 as [|c1 t1]; [done|]. inversion Hl; subst.
    by eapply trim_nonempty_start.
  - split_and!; [done|done|]. vm_compute. reflexivity.
Qed.

Lemma join_nonempty sep parts :
  parts <> [] -> Forall (fun p => p <> []) parts -> Str.join sep parts <> [].
Proof.
  destruct parts as [|p rest]; [done|]. intros _ H. inversion H; subst.
  simpl. destruct rest; [done|]. by destruct p.
Qed.

Lemma join_Trimmed sep parts :
  Forall (fun p => p <> [] /\ Trimmed p) parts -> Trimmed (Str.join sep parts).
Proof.
  induction 1 as [|p rest [Hne Hp] Hrest IH]; [done|].
  simpl. destruct rest as [|q rest]; [done|].
  apply Trimmed_iff in Hp as [Hp1 _]. apply Trimmed_iff in IH as [_ IH2].
  apply Trimmed_iff. split.
  - by apply noLeadingSpace_app.
  - rewrite !rev_app_distr, <- app_assoc. apply noLeadingSpace_app; [|done].
    intros Hrev. apply (f_equal (@rev N)) in Hrev.
    rewrite rev_involutive in Hrev. revert Hrev.
    apply join_nonempty; [done|].
    eapply Forall_impl; [apply Hrest|]. by intros ? [? _].
Qed.

Lemma parseEntry_tidy entry w n w' :
  parseEntry Date_parse clock entry w = (Some n, w') -> tidyRecord n.
Proof.
  unfold parseEntry. pose proof (entryLines_tidy entry) as Hl.
  destruct (entryLines entry) as [|line0 [|line1 rest]]; [done|done|].
  inversion Hl as [|?? [Hne0 Ht0] Hl']; subst.
  inversion Hl' as [|?? _ Hrest]; subst.
  pose proof (parseTitleAuthor_tidy line0 Hne0 Ht0) as (H1 & H2 & H3).
  destruct (parseTitleAuthor line0) as [t a].
  destruct (parseMetadata _ _ _ _) as [[[[nt l] p] d] w1].
  intros [= <- _]. split_and!; simpl; try done.
  by apply join_Trimmed.
Qed.

(** A property of the records of every entry is a property of the flat list
    that [parseFile] leaves, whether it returns or throws. *)
Lemma addNote_notes note p : notes (addNote note p).1 = notes p ++ [note].
Proof.
  rewrite addNote_eq. destruct (books p !! bookTitle note); [done|].
  by destruct (bool_decide _).
Qed.

Lemma forEachEntry_notes_Forall (P : KindleNote -> Prop) :
  (forall entry w n w', parseEntry Date_parse clock entry w = (Some n, w') -> P n) ->
  forall entries p w,
    Forall P (notes p) ->
    Forall P (notes (forEachEntry Date_parse clock entries p w).1.1).
Proof.
  intros HP. induction entries as [|entry rest IH]; intros p w Hp; simpl; [done|].
  unfold parseFileStep. destruct (Str.trim entry) as [|c t]; [by apply IH|].
  destruct (parseEntry Date_parse clock (c :: t) w) as [[note|] w1] eqn:He;
    [|by apply IH].
  assert (Hn : Forall P (notes (addNote note p).1)).
  { rewrite addNote_notes. apply Forall_app. split; [done|].
    constructor; [by eapply HP|constructor]. }
  destruct (addNote note p) as [p' [[]|e]]; [by apply IH|done].
Qed.

Lemma parseFile_notes_Forall (P : KindleNote -> Prop) content w :
  (forall entry w n w', parseEntry Date_parse clock entry w = (Some n, w') -> P n) ->
  Forall P (notes (parseFile Date_parse clock content w).1.1).
Proof.
  intros HP. unfold parseFile. by apply forEachEntry_notes_Forall.
Qed.

End RecordFacts.

(** X1.  Every record that [parseFile] leaves in the flat list, whether the
    call returns or throws, has a title that is not empty, and its title,
    author and content have no white space at either end. *)
Theorem parseFile_records_tidy
  (Date_parse : jsstring -> option Z) (clock : nat -> Z)
  (content : jsstring) (w : nat) (n : KindleNote) :
  n ∈ notes (parseFile Date_parse clock content w).1.1 -> tidyRecord n.
Proof.
  revert n. apply Forall_forall, parseFile_notes_Forall.
  apply parseEntry_tidy.
Qed.

Lemma parseFile_records_tidy_witness :
  tidyRecord (mkKindleNote (js "Deep Work") (js "Cal Newport") Bookmark
                (js "300") None InvalidDate []).
Proof.
  apply (parseFile_records_tidy exampleDateParse exampleClock scenario 0).
  vm_compute. apply list_elem_of_In. right. left. reflexivity.
Defined.

(** ** Location and page *)

Section LocationFacts.
Import Re ReSpec.

Lemma Iter_opt_elim (M : MState -> MState -> Prop) s s' :
  Iter M 0 (Some 1%nat) 0 s s' -> s' = s \/ M s s'.
Proof.
  inversion 1 as [|???? Hhi HM _ Hit]; subst; [by left|right].
  inversion Hit as [|???? Hhi' _ _ _]; subst; [done|].
  specialize (Hhi' 1%nat eq_refl). lia.
Qed.

Lemma Iter_digits_elim lo cnt s s' :
  Iter (Matches false (RSet Char.isDigit)) lo None cnt s s' ->
  (cnt < lo)%nat ->
  exists ds, Ahead ds s s' /\ digitRun ds /\ caps s' = caps s.
Proof.
  intros H Hlo.
  apply (Iter_set_elim false Char.isDigit) in H as (ds & A & F & C & L).
  exists ds. split_and!; [done| |done].
  split; [done|]. apply length_pos_nonnil. lia.
Qed.

Lemma execFrom_Occurs ic r n line m w :
  execFrom ic r n [] line = Some m ->
  (forall bef aft, m_start m = start n bef aft ->
     Matches ic r (m_start m) (m_end m) -> exists rest, aft = w ++ rest) ->
  Occurs w line.
Proof.
  intros H Hw. apply execFrom_sound in H as (pre & v & -> & H & _).
  apply matchAt_sound in H as [Hst HM].
  destruct (Hw _ _ Hst HM) as [rest ->]. by exists pre, rest.
Qed.

Lemma locationRe_Matches_elim s s' :
  Matches false (re_pattern Pat.locationRe) s s' ->
  exists tok rest, after s = js "Location " ++ tok ++ rest /\
    locationToken tok /\ caps s' = <[1%nat := Some tok]> (caps s).
Proof.
  intros H.
  cbn [re_pattern Pat.locationRe seq Matches plus opt digit lit] in H.
  destruct H as (s1 & Hl & s2 & (s3 & Hd & Ho) & ->).
  apply Matches_litN_elim in Hl as [Al Cl].
  apply Iter_digits_elim in Hd as (ds & Ad & Hds & Cd); [|lia].
  apply Iter_opt_elim in Ho as [->|(s4 & Hh & Hd2)].
  - exists ds, (after s3). split_and!.
    + destruct (Ahead_trans _ _ _ _ _ Al Ad) as [HA _].
      by rewrite HA, <- app_assoc.
    + exists ds. split; [done|by left].
    + rewrite (Ahead_consumed _ _ _ Ad). simpl. by rewrite Cd, Cl.
  - apply Matches_litN_elim in Hh as [Ah Ch].
    cbn [Matches plus digit] in Hd2.
    apply Iter_digits_elim in Hd2 as (ds2 & Ad2 & Hds2 & Cd2); [|lia].
    pose proof (Ahead_trans _ _ _ _ _ Ad (Ahead_trans _ _ _ _ _ Ah Ad2)) as At.
    exists (ds ++ js "-" ++ ds2), (after s2). split_and!.
    + destruct (Ahead_trans _ _ _ _ _ Al At) as [HA _].
      by rewrite HA, <- app_assoc.
    + exists ds. split; [done|right]. by exists ds2.
    + rewrite (Ahead_consumed _ _ _ At). simpl. by rewrite Cd2, Ch, Cd, Cl.
Qed.

Lemma exec_location_sound line m :
  RegExpOps.exec Pat.locationRe line = Some m ->
  locationToken (group_ 1 m) /\ Occurs (js "Location " ++ group_ 1 m) line.
Proof.
  unfold RegExpOps.exec. intros H.
  apply execFrom_sound in H as (pre & v & -> & H & _).
  apply matchAt_sound in H as [Hst HM]. rewrite Hst in HM.
  apply locationRe_Matches_elim in HM as (tok & rest & Hv & Htok & Hc).
  simpl in Hv, Hc. subst v.
  rewrite (group_caps m 1 tok) by (by rewrite Hc).
  split; [done|]. exists pre, rest. by rewrite <- app_assoc.
Qed.

Lemma exec_page_sound line m :
  RegExpOps.exec Pat.pageRe line = Some m ->
  digitRun (group_ 1 m) /\ Occurs (js "page " ++ group_ 1 m) line.
Proof.
  unfold RegExpOps.exec. intros H.
  apply execFrom_sound in H as (pre & v & -> & H & _).
  apply matchAt_sound in H as [Hst HM]. rewrite Hst in HM.
  cbn [re_pattern Pat.pageRe seq Matches plus digit lit] in HM.
  destruct HM as (s1 & Hl & s2 & Hd & Hs).
  apply Matches_litN_elim in Hl as [Al Cl].
  apply Iter_digits_elim in Hd as (ds & Ad & Hds & Cd); [|lia].
  rewrite (Ahead_consumed _ _ _ Ad) in Hs.
  rewrite (group_caps m 1 ds) by (rewrite Hs; simpl; by rewrite Cd, Cl).
  split; [done|]. exists pre, (after s2).
  destruct (Ahead_trans _ _ _ _ _ Al Ad) as [HA _]. simpl in HA.
  by rewrite HA, <- !app_assoc.
Qed.

Lemma locationToken_key tok :
  locationToken tok ->
  exists ds, startsWithNumber tok ds /\ extractLocationNumber tok = parseInt ds.
Proof.
  intros (ds & Hds & Htok). exists ds. split; [by split|].
  destruct Htok as [->|(ds2 & Hds2 & ->)].
  - pose proof (extractLocationNumber_first_run [] ds []) as H.
    simpl in H. rewrite app_nil_r in H. apply H; [constructor|done|done].
  - apply (extractLocationNumber_first_run [] ds (js "-" ++ ds2));
      [constructor|done|reflexivity].
Qed.

Variable Date_parse : jsstring -> option Z.
Variable clock : nat -> Z.

Lemma parseMetadata_location line w :
  (parseMetadata Date_parse clock line w).1.1.1.2
  = match RegExpOps.exec Pat.locationRe line with
    | Some m => group_ 1 m
    | None => []
    end.
Proof.
  unfold parseMetadata, newDateNow, parseKindleDate, newDate.
  destruct (RegExpOps.exec Pat.addedOn line) as [m|];
    [destruct (Date_parse _)|]; reflexivity.
Qed.

Lemma parseMetadata_page line w :
  (parseMetadata Date_parse clock line w).1.1.2
  = match RegExpOps.exec Pat.pageRe line with
    | Some m => Some (group_ 1 m)
    | None => None
    end.
Proof.
  unfold parseMetadata, newDateNow, parseKindleDate, newDate.
  destruct (RegExpOps.exec Pat.addedOn line) as [m|];
    [destruct (Date_parse _)|]; reflexivity.
Qed.

Lemma parseEntry_wellLocated entry w n w' :
  parseEntry Date_parse clock entry w = (Some n, w') -> wellLocated n.
Proof.
  unfold parseEntry.
  destruct (entryLines entry) as [|line0 [|line1 rest]]; [done|done|].
  destruct (parseTitleAuthor line0) as [t a].
  pose proof (parseMetadata_location line1 w) as Hloc.
  pose proof (parseMetadata_page line1 w) as Hpage.
  destruct (parseMetadata _ _ _ _) as [[[[nt l] p] d] w1]. simpl in Hloc, Hpage.
  intros [= <- _]. unfold wellLocated, locationKey. simpl. subst l p. split.
  - destruct (RegExpOps.exec Pat.locationRe line1) as [m|] eqn:Hm.
    + right. apply exec_location_sound in Hm as [Htok _].
      by apply locationToken_key.
    + by left.
  - destruct (RegExpOps.exec Pat.pageRe line1) as [m|] eqn:Hm.
    + right. eexists. split; [done|]. by apply exec_page_sound in Hm as [? _].
    + by left.
Qed.

End LocationFacts.

(** X2.  Every record of the flat list has a location that is empty, a
    number, or two numbers joined by a hyphen; it is sorted by 0 when the
    location is empty and otherwise by what [parseInt] reads from the first
    number.  Its page is [null] or a number. *)
Theorem parseFile_records_wellLocated
  (Date_parse : jsstring -> option Z) (clock : nat -> Z)
  (content : jsstring) (w : nat) (n : KindleNote) :
  n ∈ notes (parseFile Date_parse clock content w).1.1 -> wellLocated n.
Proof.
  revert n. apply Forall_forall, parseFile_notes_Forall.
  apply parseEntry_wellLocated.
Qed.

Lemma parseFile_records_wellLocated_witness :
  wellLocated (mkKindleNote (js "Deep Work") (js "Cal Newport") Highlight
                 (js "150-152") None InvalidDate (js "Focus is the new IQ.")).
Proof.
  apply (parseFile_records_wellLocated exampleDateParse exampleClock scenario 0).
  vm_compute. apply list_elem_of_In. left. reflexivity.
Defined.

(** ** Which fields a metadata line yields *)

Section MetadataFacts.
Import Re ReSpec.

Lemma execFrom_complete ic r n v : forall u bef,
  is_Some (matchAt ic r n (rev u ++ bef) v) ->
  is_Some (execFrom ic r n bef (u ++ v)).
Proof.
  induction u as [|c u IH]; intros bef H; simpl in *.
  - destruct H as [m Hm]. rewrite (execFrom_here _ _ _ _ _ _ Hm). by eexists.
  - destruct (matchAt ic r n bef (c :: u ++ v)); [by eexists|].
    apply IH. by rewrite <- app_assoc in H.
Qed.

Lemma Matches_litN_intro w : forall bef rest cs,
  Matches false (litN w) (mkMState bef (w ++ rest) cs)
    (mkMState (rev w ++ bef) rest cs).
Proof.
  induction w as [|c w IH]; intros bef rest cs; cbn [litN fold_right Matches].
  - done.
  - exists (mkMState (c :: bef) (w ++ rest) cs). split.
    + exists c, (w ++ rest). done.
    + simpl. rewrite <- app_assoc. apply IH.
Qed.

Lemma Occurs_cons_digit marker d tok rest line :
  Occurs (marker ++ (d :: tok) ++ rest) line -> Occurs (marker ++ [d]) line.
Proof.
  intros (pre & post & ->). exists pre, (tok ++ rest ++ post).
  by rewrite <- !app_assoc.
Qed.

Lemma exec_location_complete line :
  numberAfter "Location " line -> RegExpOps.exec Pat.locationRe line <> None.
Proof.
  intros (d & Hd & pre & post & ->). unfold RegExpOps.exec.
  apply not_eq_None_Some. apply execFrom_complete.
  eapply (matchAt_complete _ _ _ _ _
            (setCap 1 _ (mkMState (rev [d] ++ rev (js "Location ") ++ rev pre ++ []) post _))).
  cbn [re_pattern Pat.locationRe seq Matches plus opt digit lit].
  eexists. split.
  { rewrite <- app_assoc. apply Matches_litN_intro. }
  eexists. split; [|reflexivity].
  eexists. split.
  - apply (Iter_set_intro false Char.isDigit _ _ post [d]); [by constructor|simpl; lia].
  - apply Iter_stop. lia.
Qed.

Lemma exec_page_complete line :
  numberAfter "page " line -> RegExpOps.exec Pat.pageRe line <> None.
Proof.
  intros (d & Hd & pre & post & ->). unfold RegExpOps.exec.
  apply not_eq_None_Some. apply execFrom_complete.
  eapply (matchAt_complete _ _ _ _ _
            (setCap 1 _ (mkMState (rev [d] ++ rev (js "page ") ++ rev pre ++ []) post _))).
  cbn [re_pattern Pat.pageRe seq Matches plus digit lit].
  eexists. split.
  { rewrite <- app_assoc. apply Matches_litN_intro. }
  eexists. split; [|reflexivity].
  apply (Iter_set_intro false Char.isDigit _ _ post [d]); [by constructor|simpl; lia].
Qed.

Lemma digitRun_head ds : digitRun ds -> exists d t, ds = d :: t /\ Digit d.
Proof.
  intros [H Hne]. destruct ds as [|d t]; [done|]. inversion H; subst. eauto.
Qed.

End MetadataFacts.

(** X3.  What [parseMetadata] finds in a metadata line, by occurrence of
    text: the kind is Highlight when "Highlight" occurs, else Bookmark when
    "Bookmark" occurs, else Note when "Note" occurs, else Unknown (the match
    is case-sensitive and not by whole words); a location is found exactly
    when "Location " occurs with a digit after it, and a page exactly when
    "page " does. *)
Theorem parseMetadata_fields_found
  (Date_parse : jsstring -> option Z) (clock : nat -> Z)
  (metadataLine : jsstring) (w : nat) :
  let fields := (parseMetadata Date_parse clock metadataLine w).1.1 in
  let kind := fields.1.1 in
  let location := fields.1.2 in
  let page := fields.2 in
  (kind = Highlight <-> Occurs (js "Highlight") metadataLine) /\
  (kind = Bookmark <-> Occurs (js "Bookmark") metadataLine /\
                       ~ Occurs (js "Highlight") metadataLine) /\
  (kind = Note <-> Occurs (js "Note") metadataLine /\
                   ~ Occurs (js "Bookmark") metadataLine /\
                   ~ Occurs (js "Highlight") metadataLine) /\
  (location <> [] <-> numberAfter "Location " metadataLine) /\
  (page <> None <-> numberAfter "page " metadataLine).
Proof.
  intros fields kind location page.
  assert (Hkind : kind =
    if Str.includes (js "Highlight") metadataLine then Highlight
    else if Str.includes (js "Bookmark") metadataLine then Bookmark
    else if Str.includes (js "Note") metadataLine then Note
    else Unknown).
  { subst kind fields. unfold parseMetadata, newDateNow, parseKindleDate, newDate.
    destruct (RegExpOps.exec Pat.addedOn metadataLine) as [m|];
      [destruct (Date_parse _)|]; reflexivity. }
  assert (Hloc : location = _) by apply parseMetadata_location.
  assert (Hpage : page = _) by apply parseMetadata_page.
  clearbody kind location page. clear fields.
  pose proof (includes_Occurs (js "Highlight") metadataLine) as HH.
  pose proof (includes_Occurs (js "Bookmark") metadataLine) as HB.
  pose proof (includes_Occurs (js "Note") metadataLine) as HN.
  split_and!.
  - rewrite Hkind. destruct (Str.includes (js "Highlight") _).
    + split; [intros _; by apply HH|done].
    + split; [|intros H; apply HH in H; done].
      by destruct (Str.includes (js "Bookmark") _), (Str.includes (js "Note") _).
  - rewrite Hkind. destruct (Str.includes (js "Highlight") _).
    + split; [done|]. intros [_ H]. exfalso. apply H. by apply HH.
    + destruct (Str.includes (js "Bookmark") _).
      * split; [|done]. intros _. split; [by apply HB|].
        intros H. by apply HH in H.
      * split; [by destruct (Str.includes (js "Note") _)|].
        intros [H _]. by apply HB in H.
  - rewrite Hkind. destruct (Str.includes (js "Highlight") _).
    + split; [done|]. intros (_ & _ & H). exfalso. apply H. by apply HH.
    + destruct (Str.includes (js "Bookmark") _).
      * split; [done|]. intros (_ & H & _). exfalso. apply H. by apply HB.
      * destruct (Str.includes (js "Note") _).
        -- split; [|done]. intros _.
           split_and!; [by apply HN|intros H; by apply HB in H
                       |intros H; by apply HH in H].
        -- split; [done|]. intros (H & _). by apply HN in H.
  - rewrite Hloc. split.
    + destruct (RegExpOps.exec Pat.locationRe metadataLine) as [m|] eqn:Hm; [|done].
      intros _. apply exec_location_sound in Hm as [(ds & Hds & Htok) Hocc].
      destruct (digitRun_head _ Hds) as (d & t & -> & Hd).
      exists d. split; [done|].
      destruct Htok as [Ht|(ds2 & _ & Ht)]; rewrite Ht in Hocc.
      * apply (Occurs_cons_digit _ d t []). by rewrite app_nil_r.
      * by apply (Occurs_cons_digit _ d t (js "-" ++ ds2)).
    + intros H. apply exec_location_complete in H.
      destruct (RegExpOps.exec Pat.locationRe metadataLine) as [m|] eqn:Hm; [|done].
      apply exec_location_sound in Hm as [(ds & [_ Hds] & Htok) _].
      destruct Htok as [->|(ds2 & _ & ->)]; [done|]. by destruct ds.
  - rewrite Hpage. split.
    + destruct (RegExpOps.exec Pat.pageRe metadataLine) as [m|] eqn:Hm; [|done].
      intros _. apply exec_page_sound in Hm as [Hds Hocc].
      destruct (digitRun_head _ Hds) as (d & t & Hg & Hd). rewrite Hg in Hocc.
      exists d. split; [done|].
      apply (Occurs_cons_digit _ d t []). by rewrite app_nil_r.
    + intros H. apply exec_page_complete in H.
      by destruct (RegExpOps.exec Pat.pageRe metadataLine).
Qed.

(** ** Escaping an author for a pattern *)

Section EscapeFacts.
Import Re ReSpec.

Lemma matchAt_set_miss p n bef aft :
  match aft with [] => True | c :: _ => p c = false end ->
  matchAt false (RSet p) n bef aft = None.
Proof.
  intros H. unfold matchAt. simpl. destruct aft as [|c t]; [done|]. by rewrite H.
Qed.

Lemma matchAt_set_hit p n bef c t :
  p c = true ->
  matchAt false (RSet p) n bef (c :: t)
  = Some (mkMatch (start n bef (c :: t))
            (mkMState (c :: bef) t (replicate (S n) None))).
Proof. intros H. unfold matchAt. simpl. by rewrite H. Qed.

Lemma first_hit (p : jschar -> bool) (s : jsstring) :
  Forall (fun c => p c = false) s \/
  exists u c rest, s = u ++ c :: rest /\ Forall (fun c => p c = false) u /\ p c = true.
Proof.
  induction s as [|c s IH]; [by left|].
  destruct (p c) eqn:Hc.
  - right. by exists [], c, s.
  - destruct IH as [H|(u & c' & rest & -> & Hu & Hc')].
    + left. by constructor.
    + right. exists (c :: u), c', rest. split_and!; [done|by constructor|done].
Qed.

Lemma execFrom_set_none p n : forall aft bef,
  Forall (fun c => p c = false) aft -> execFrom false (RSet p) n bef aft = None.
Proof.
  induction aft as [|c t IH]; intros bef H; cbn [execFrom].
  - by rewrite matchAt_set_miss.
  - inversion H; subst. rewrite matchAt_set_miss by done. by apply IH.
Qed.

Lemma execFrom_set_first p n u c rest bef :
  Forall (fun c => p c = false) u -> p c = true ->
  execFrom false (RSet p) n bef (u ++ c :: rest)
  = Some (mkMatch (start n (rev u ++ bef) (c :: rest))
            (mkMState (c :: rev u ++ bef) rest (replicate (S n) None))).
Proof.
  intros Hu Hc. rewrite execFrom_skip.
  - apply execFrom_here. by apply matchAt_set_hit.
  - intros u1 c1 u2 ->. apply matchAt_set_miss.
    apply Forall_app in Hu as [_ Hu]. by inversion Hu.
Qed.

Lemma flat_map_escape_plain u :
  Forall (fun c => isRegexSpecial c = false) u -> flat_map escapeChar u = u.
Proof.
  induction 1 as [|c u Hc _ IH]; [done|].
  simpl. unfold escapeChar at 1. rewrite Hc. simpl. by rewrite IH.
Qed.

Lemma replaceLoop_escape fuel : forall aft bef,
  (length aft < fuel)%nat ->
  RegExpOps.replaceLoop fuel Pat.regexSpecial
    (fun m => js "\" ++ Re.matched m) bef aft
  = flat_map escapeChar aft.
Proof.
  induction fuel as [|fuel IH]; intros aft bef Hlen; [lia|].
  cbn [RegExpOps.replaceLoop].
  change (re_pattern Pat.regexSpecial) with (RSet isRegexSpecial).
  change (re_ignoreCase Pat.regexSpecial) with false.
  change (re_groups Pat.regexSpecial) with 0%nat.
  destruct (first_hit isRegexSpecial aft) as [H|(u & c & rest & -> & Hu & Hc)].
  - rewrite execFrom_set_none by done. by rewrite flat_map_escape_plain.
  - rewrite execFrom_set_first by done.
    set (s0 := start 0 (rev u ++ bef) (c :: rest)).
    set (s1 := mkMState (c :: rev u ++ bef) rest (replicate 1 None)).
    cbn [m_start m_end].
    assert (A : Ahead [c] s0 s1) by (by split).
    assert (Hp0 : pos s0 = (length u + length bef)%nat)
      by (unfold pos, s0; simpl; by rewrite length_app, length_rev).
    assert (Hm : matched (mkMatch s0 s1) = [c])
      by (unfold matched; simpl; by apply Ahead_consumed).
    rewrite (Ahead_pos _ _ _ A), Hm, Hp0. cbn [length Nat.add].
    replace (S (length u + length bef) =? length u + length bef)%nat with false
      by (symmetry; apply Nat.eqb_neq; lia).
    replace (length u + length bef - length bef)%nat with (length u) by lia.
    rewrite firstn_app, firstn_all, Nat.sub_diag. cbn [firstn]. rewrite app_nil_r.
    unfold s1. cbn [before after].
    rewrite IH by (rewrite length_app in Hlen; simpl in Hlen; lia).
    rewrite flat_map_app, (flat_map_escape_plain u Hu). cbn [flat_map].
    replace (escapeChar c) with [92; c] by (unfold escapeChar; by rewrite Hc).
    reflexivity.
Qed.

Lemma escapeRegex_eq s : escapeRegex s = flat_map escapeChar s.
Proof.
  unfold escapeRegex, RegExpOps.replace.
  change (re_global Pat.regexSpecial) with true. cbv iota.
  apply replaceLoop_escape. lia.
Qed.

Lemma special_not c d : isRegexSpecial d = false -> isRegexSpecial c = true -> (c =? d) = false.
Proof. intros Hd Hc. apply N.eqb_neq. intros ->. congruence. Qed.

Lemma plain_not c d : isRegexSpecial d = true -> isRegexSpecial c = false -> (c =? d) = false.
Proof. intros Hd Hc. apply N.eqb_neq. intros ->. congruence. Qed.

Lemma compileAtoms_escaped tail : forall s acc,
  compileAtoms (flat_map escapeChar s ++ tail) acc
  = compileAtoms tail (rev (List.map RChar s) ++ acc).
Proof.
  induction s as [|c s IH]; intros acc; [done|].
  cbn [flat_map List.map rev]. unfold escapeChar at 1.
  destruct (isRegexSpecial c) eqn:Hc.
  - cbn [app compileAtoms]. change (92 =? 92) with true. cbv iota.
    rewrite (special_not c 98), (special_not c 115) by done.
    rewrite IH. by rewrite <- app_assoc.
  - cbn [app compileAtoms].
    rewrite (plain_not c 92), (plain_not c 36), (plain_not c 42) by done.
    rewrite IH. by rewrite <- app_assoc.
Qed.

End EscapeFacts.

(** X4.  [escapeRegex] puts a backslash before each of the fourteen syntax
    characters and leaves every other character alone, and the pattern that
    [cleanBookTitle] builds from an escaped text is [\b], the characters of
    the text as literals, [\b\s*$]: no character of an author is read as
    pattern syntax. *)
Theorem escapeRegex_makes_literal (text : jsstring) :
  escapeRegex text = flat_map escapeChar text /\
  re_pattern (newRegExp_i (js "\b" ++ escapeRegex text ++ js "\b\s*$"))
  = literalAtEnd text.
Proof.
  split; [apply escapeRegex_eq|].
  unfold newRegExp_i, literalAtEnd. cbn [re_pattern]. f_equal.
  rewrite escapeRegex_eq.
  change (js "\b" ++ flat_map escapeChar text ++ js "\b\s*$")
    with (92 :: 98 :: flat_map escapeChar text ++ js "\b\s*$").
  cbn [compileAtoms]. change (92 =? 92) with true. change (98 =? 98) with true.
  cbv iota. rewrite compileAtoms_escaped.
  assert (Htail : forall acc,
            compileAtoms (js "\b\s*$") acc = rev (REol :: star space :: RWordB :: acc)).
  { intros acc. reflexivity. }
  rewrite Htail. cbn [rev].
  rewrite rev_app_distr, rev_involutive. cbn [rev app].
  by rewrite <- !app_assoc.
Qed.

(** ** The sorted array is determined *)

Section SortUnique.

Lemma numLe_antisym a b : numLe a b -> numLe b a -> a = b.
Proof.
  unfold numLe. destruct a, b; simpl; try done.
  intros H1 H2. f_equal.
  destruct (Z.compare_spec z z0); [done|..]; [|done].
  exfalso. apply H2. by apply Z.compare_gt_iff.
Qed.

Lemma numLe_refl a : numLe a a.
Proof. unfold numLe. by rewrite subtractSign_refl. Qed.

Lemma withKey_head n l : n ∈ withKey (locationKey n) (n :: l).
Proof.
  unfold withKey. simpl. rewrite bool_decide_eq_true_2 by done. by left.
Qed.

Lemma withKey_elem k n l : n ∈ withKey k l -> n ∈ l.
Proof.
  unfold withKey. intros H. apply list_elem_of_In, List.filter_In in H as [H _].
  by apply list_elem_of_In.
Qed.

Lemma sorted_head_least n l m :
  StronglySorted (fun a b => numLe (locationKey a) (locationKey b)) (n :: l) ->
  m ∈ n :: l -> numLe (locationKey n) (locationKey m).
Proof.
  intros H Hm. apply StronglySorted_inv in H as [_ H].
  apply elem_of_cons in Hm as [->|Hm]; [apply numLe_refl|].
  rewrite Forall_forall in H. by apply H.
Qed.

Lemma stably_sorted_unique : forall r1 r2,
  StronglySorted (fun a b => numLe (locationKey a) (locationKey b)) r1 ->
  StronglySorted (fun a b => numLe (locationKey a) (locationKey b)) r2 ->
  (forall k, withKey k r1 = withKey k r2) ->
  r1 = r2.
Proof.
  induction r1 as [|x r1 IH]; intros r2 H1 H2 Hk.
  - destruct r2 as [|y r2]; [done|].
    specialize (Hk (locationKey y)). pose proof (withKey_head y r2) as Hy.
    rewrite <- Hk in Hy. by apply elem_of_nil in Hy.
  - destruct r2 as [|y r2].
    { specialize (Hk (locationKey x)). pose proof (withKey_head x r1) as Hx.
      rewrite Hk in Hx. by apply elem_of_nil in Hx. }
    assert (Hxy : locationKey x = locationKey y).
    { apply numLe_antisym.
      - apply (sorted_head_least x r1 y H1).
        apply (withKey_elem (locationKey y)). rewrite Hk. apply withKey_head.
      - apply (sorted_head_least y r2 x H2).
        apply (withKey_elem (locationKey x)). rewrite <- Hk. apply withKey_head. }
    assert (x = y) as <-.
    { specialize (Hk (locationKey x)). unfold withKey in Hk. simpl in Hk.
      rewrite bool_decide_eq_true_2 in Hk by done.
      rewrite (bool_decide_eq_true_2 (locationKey y = locationKey x)) in Hk by done.
      by inversion Hk. }
    f_equal. apply IH.
    + by apply StronglySorted_inv in H1 as [? _].
    + by apply StronglySorted_inv in H2 as [? _].
    + intros k. specialize (Hk k). unfold withKey in *. simpl in Hk.
      destruct (bool_decide (locationKey x = k)); [by inversion Hk|done].
Qed.

Lemma sort_sorted_id l :
  StronglySorted (fun a b => numLe (locationKey a) (locationKey b)) l ->
  ArraySort.sort compareLocation l = l.
Proof.
  induction 1 as [|x l Hl IH Hx]; [done|].
  cbn [ArraySort.sort fold_right]. fold (ArraySort.sort compareLocation l).
  rewrite IH. destruct l as [|y l]; [done|].
  cbn [ArraySort.insert]. inversion Hx as [|?? Hxy _]; subst.
  rewrite compareLocation_key. unfold numLe in Hxy.
  by destruct (subtractSign (locationKey x) (locationKey y)).
Qed.

Lemma sort_idempotent l :
  ArraySort.sort compareLocation (ArraySort.sort compareLocation l)
  = ArraySort.sort compareLocation l.
Proof. apply sort_sorted_id, sort_by_location_sorted. Qed.

Lemma countKind_Permutation kind l r :
  Permutation l r -> countKind kind l = countKind kind r.
Proof.
  unfold countKind. induction 1 as [|x l r _ IH|x y l|l1 l2 l3 _ IH1 _ IH2]; simpl.
  - done.
  - destruct (bool_decide _); simpl; lia.
  - by destruct (bool_decide (noteType y = kind)), (bool_decide (noteType x = kind)).
  - lia.
Qed.

End SortUnique.

(** X5.  The array that [sortNotesByLocation] leaves is the only arrangement
    of the input that is in ascending order of location number and keeps
    records with equal numbers in their input order: the result does not
    depend on how the engine sorts, only on that its sort is stable. *)
Theorem sortNotesByLocation_unique
  (h : Store) (arr : ref) (l r : list KindleNote) :
  h !! arr = Some l -> stablySortedFrom l r ->
  (sortNotesByLocation arr h).2 !! arr = Some r.
Proof.
  intros Hl [Hs Hk]. unfold sortNotesByLocation, Array_sort. simpl.
  rewrite lookup_alter_eq, Hl. simpl. f_equal.
  apply stably_sorted_unique; [apply sort_by_location_sorted|done|].
  intros k. unfold withKey. rewrite sort_by_location_stable. symmetry. apply Hk.
Qed.

Lemma sortNotesByLocation_unique_witness :
  (sortNotesByLocation 7%nat shelf).2 !! 7%nat
  = Some [atLocation "2"; atLocation "10"; atLocation "10-20"].
Proof.
  apply (sortNotesByLocation_unique shelf 7%nat
           [atLocation "10"; atLocation "2"; atLocation "10-20"]).
  - reflexivity.
  - split.
    + repeat constructor; vm_compute; discriminate.
    + intros k. unfold withKey. simpl.
      change (locationKey (atLocation "10")) with (Finite 10).
      change (locationKey (atLocation "2")) with (Finite 2).
      change (locationKey (atLocation "10-20")) with (Finite 10).
      destruct (decide (Finite 2 = k)) as [<-|H2].
      * reflexivity.
      * rewrite (bool_decide_eq_false_2 _ H2).
        by destruct (bool_decide (Finite 10 = k)).
Defined.

(** X6.  Sorting an array that [sortNotesByLocation] has sorted leaves it as
    it is, and sorting changes neither the number of records of the array nor
    the number of its records of any kind. *)
Theorem sortNotesByLocation_again (h : Store) (arr : ref) :
  (sortNotesByLocation arr (sortNotesByLocation arr h).2).2
  = (sortNotesByLocation arr h).2 /\
  (forall l, h !! arr = Some l ->
     exists r, (sortNotesByLocation arr h).2 !! arr = Some r /\
       length r = length l /\ forall kind, countKind kind r = countKind kind l).
Proof.
  unfold sortNotesByLocation, Array_sort. simpl. split.
  - rewrite alter_alter_eq. apply alter_ext. intros l _. simpl.
    apply sort_idempotent.
  - intros l Hl. eexists. rewrite lookup_alter_eq, Hl. simpl.
    split_and!; [done| |].
    + symmetry. apply Permutation_length, sort_Permutation.
    + intros kind. symmetry. apply countKind_Permutation, sort_Permutation.
Qed.

(** ** Searching *)

Section SearchFacts.
Variable toLowerCase : jsstring -> jsstring.

Lemma pushGroup_eq note g :
  pushGroup note g =
  match g !! bookTitle note with
  | Some a => (<[bookTitle note := a ++ [note]]> g, Normal tt)
  | None =>
      if bool_decide (bookTitle note ∈ Object_prototype_keys)
      then (g, Throw "TypeError: bookGroups[note.bookTitle].push is not a function")
      else (<[bookTitle note := [note]]> g, Normal tt)
  end.
Proof.
  unfold pushGroup, getBook.
  destruct (g !! bookTitle note) as [a|] eqn:Hb.
  - by rewrite ?Hb.
  - destruct (bool_decide _) eqn:Hk.
    + by rewrite ?Hb, ?Hk.
    + by rewrite lookup_insert_eq, insert_insert_eq.
Qed.

Lemma groupsOf_grouped l g : groupsOf l g <-> grouped (mkParser l g).
Proof. done. Qed.

Lemma pushGroup_groupsOf note l g :
  bookTitle note ∉ Object_prototype_keys -> groupsOf l g ->
  exists g', pushGroup note g = (g', Normal tt) /\ groupsOf (l ++ [note]) g'.
Proof.
  intros Hk Hg. rewrite pushGroup_eq.
  pose proof (Hg (bookTitle note)) as Hkey.
  rewrite (bool_decide_eq_false_2 _ Hk).
  assert (Hstep : forall a g',
    groupOf (bookTitle note) l = a ->
    (forall k, k <> bookTitle note -> g' !! k = g !! k) ->
    g' !! bookTitle note = Some (a ++ [note]) ->
    groupsOf (l ++ [note]) g').
  { intros a g' Ha Hother Hthis k. rewrite groupOf_snoc.
    destruct (decide (bookTitle note = k)) as [<-|Hne].
    - rewrite bool_decide_eq_true_2 by done. rewrite Hthis, Ha. by destruct a.
    - rewrite bool_decide_eq_false_2 by done. rewrite app_nil_r.
      rewrite Hother by done. apply Hg. }
  destruct (g !! bookTitle note) as [a|] eqn:Hb; eexists; (split; [done|]).
  - apply (Hstep a).
    + destruct (groupOf (bookTitle note) l); congruence.
    + intros k Hne. by rewrite lookup_insert_ne.
    + apply lookup_insert_eq.
  - apply (Hstep []).
    + destruct (groupOf (bookTitle note) l); congruence.
    + intros k Hne. by rewrite lookup_insert_ne.
    + apply lookup_insert_eq.
Qed.

Lemma groupNotes_groupsOf l : forall l0 g,
  Forall (fun n => bookTitle n ∉ Object_prototype_keys) l -> groupsOf l0 g ->
  exists g', groupNotes l g = (g', Normal tt) /\ groupsOf (l0 ++ l) g'.
Proof.
  induction l as [|note l IH]; intros l0 g Hl Hg; simpl.
  - exists g. by rewrite app_nil_r.
  - inversion Hl; subst.
    destruct (pushGroup_groupsOf note l0 g) as (g1 & -> & Hg1); [done..|].
    destruct (IH (l0 ++ [note]) g1) as (g' & -> & Hg'); [done..|].
    exists g'. by rewrite <- app_assoc in Hg'.
Qed.

Lemma groupsOf_unique l g1 g2 : groupsOf l g1 -> groupsOf l g2 -> g1 = g2.
Proof. intros H1 H2. apply map_eq. intros k. by rewrite H1, H2. Qed.

Lemma groupOf_filter k f l :
  groupOf k (List.filter f l) = List.filter f (groupOf k l).
Proof.
  unfold groupOf. induction l as [|n l IH]; [done|]. simpl.
  destruct (f n) eqn:Hf, (bool_decide (bookTitle n = k)) eqn:Hk; simpl;
    rewrite ?Hf, ?Hk, IH; done.
Qed.

Lemma filter_all {A} (f : A -> bool) l :
  (forall x, f x = true) -> List.filter f l = l.
Proof. intros H. induction l as [|x l IH]; [done|]. simpl. by rewrite H, IH. Qed.

Lemma filter_and {A} (f g : A -> bool) l :
  List.filter (fun x => f x && g x) l = List.filter g (List.filter f l).
Proof.
  induction l as [|x l IH]; [done|]. simpl.
  destruct (f x); simpl; [|done]. destruct (g x); by rewrite IH.
Qed.

Lemma filter_ext_eq {A} (f g : A -> bool) l :
  (forall x, f x = g x) -> List.filter f l = List.filter g l.
Proof. intros H. induction l as [|x l IH]; [done|]. simpl. by rewrite H, IH. Qed.

Lemma NoteType_toString_inj a b :
  NoteType_toString a = NoteType_toString b -> a = b.
Proof. destruct a, b; vm_compute; congruence. Qed.

Lemma searchNotes_all p : searchNotes toLowerCase [] (js "all") p = notes p.
Proof.
  unfold searchNotes. apply filter_all. intros n. unfold matchesSearch.
  rewrite (bool_decide_eq_true_2 (@nil N = [])) by done.
  by rewrite (bool_decide_eq_true_2 (js "all" = js "all")).
Qed.

End SearchFacts.

(** X7.  [searchNotes] keeps the order of the flat list.  With the empty
    query and the filter "all" it returns the whole list.  With another
    filter it returns only records whose kind has that very name: the filter
    is case-sensitive, and a filter that is not "all", "Highlight",
    "Bookmark", "Note" or "Unknown" returns nothing.  Filtering by kind is the
    same as searching with "all" and keeping the records of that kind. *)
Theorem searchNotes_filters
  (toLowerCase : jsstring -> jsstring) (query typeFilter : jsstring)
  (p : ParserState) :
  sublist (searchNotes toLowerCase query typeFilter p) (notes p) /\
  searchNotes toLowerCase [] (js "all") p = notes p /\
  (typeFilter <> js "all" ->
   (forall n, n ∈ searchNotes toLowerCase query typeFilter p ->
              NoteType_toString (noteType n) = typeFilter) /\
   searchNotes toLowerCase query typeFilter p
   = List.filter (fun n => bool_decide (NoteType_toString (noteType n) = typeFilter))
       (searchNotes toLowerCase query (js "all") p)) /\
  (typeFilter ∉ List.map js ["all"; "Highlight"; "Bookmark"; "Note"; "Unknown"]%string ->
   searchNotes toLowerCase query typeFilter p = []).
Proof.
  unfold searchNotes. split_and!.
  - induction (notes p) as [|n l IH]; simpl; [constructor|].
    destruct (matchesSearch _ _ _ n); by constructor.
  - apply searchNotes_all.
  - intros Hall. split.
    + intros n Hn. apply list_elem_of_In, List.filter_In in Hn as [_ Hn].
      unfold matchesSearch in Hn. rewrite (bool_decide_eq_false_2 _ Hall) in Hn.
      apply andb_true_iff in Hn as [_ Hn]. simpl in Hn.
      by apply bool_decide_eq_true in Hn.
    + rewrite <- filter_and. apply filter_ext_eq. intros n.
      unfold matchesSearch.
      rewrite (bool_decide_eq_false_2 _ Hall).
      rewrite (bool_decide_eq_true_2 (js "all" = js "all")) by done.
      cbn [orb]. by rewrite andb_true_r.
  - intros Hno. induction (notes p) as [|n l IH]; [done|]. cbn [List.filter].
    unfold matchesSearch at 1.
    cbn [List.map] in Hno.
    rewrite !not_elem_of_cons in Hno. destruct Hno as (H0 & H1 & H2 & H3 & H4 & _).
    rewrite (bool_decide_eq_false_2 (typeFilter = js "all")) by done.
    rewrite (bool_decide_eq_false_2 (NoteType_toString (noteType n) = typeFilter))
      by (intros Heq; destruct (noteType n); cbn [NoteType_toString] in Heq;
          by symmetry in Heq).
    by rewrite andb_false_r.
Qed.

(** X8.  After a parse that returned, [getBooksBySearch] returns too, and
    each of its groups is the group of the same title in [books] restricted
    to the records that match, in the same order; titles without a matching
    record have no group.  With the empty query and the filter "all" the
    result is the grouping [books] itself. *)
Theorem getBooksBySearch_after_parse
  (toLowerCase : jsstring -> jsstring)
  (Date_parse : jsstring -> option Z) (clock : nat -> Z)
  (content : jsstring) (w : nat) (p : ParserState) (w' : nat)
  (query typeFilter : jsstring) :
  parseFile Date_parse clock content w = (p, w', Normal tt) ->
  (exists g, getBooksBySearch toLowerCase query typeFilter p = Normal g /\
     groupsOf (searchNotes toLowerCase query typeFilter p) g /\
     forall k grp, g !! k = Some grp ->
       grp <> [] /\
       exists full, books p !! k = Some full /\
         grp = List.filter (matchesSearch toLowerCase query typeFilter) full) /\
  getBooksBySearch toLowerCase [] (js "all") p = Normal (books p).
Proof.
  intros Hparse.
  assert (Hown : forall q t,
    Forall (fun n => bookTitle n ∉ Object_prototype_keys) (searchNotes toLowerCase q t p)).
  { intros q t. apply Forall_forall. intros n Hn.
    apply list_elem_of_In, List.filter_In in Hn as [Hn _].
    pose proof (proj1 (parseFile_returns_iff Date_parse clock content w)) as Hr.
    rewrite Hparse in Hr. apply (Hr eq_refl). by apply list_elem_of_In. }
  pose proof (parseFile_grouped _ _ _ _ _ _ Hparse) as [Hg _].
  assert (Hrun : forall q t, exists g,
    getBooksBySearch toLowerCase q t p = Normal g /\
    groupsOf (searchNotes toLowerCase q t p) g).
  { intros q t. unfold getBooksBySearch.
    destruct (groupNotes_groupsOf (searchNotes toLowerCase q t p) [] ∅ (Hown q t))
      as (g & -> & Hgo); [intros k; apply lookup_empty|].
    by exists g. }
  split.
  - destruct (Hrun query typeFilter) as (g & Hgb & Hgo). exists g.
    split_and!; [done|done|].
    intros k grp Hk. rewrite Hgo in Hk. unfold searchNotes in Hk.
    rewrite groupOf_filter in Hk. specialize (Hg k). simpl in Hg.
    destruct (List.filter _ (groupOf k (notes p))) as [|n0 l0] eqn:Hf; [done|].
    inversion Hk; subst grp. split; [done|].
    destruct (groupOf k (notes p)) as [|n1 l1] eqn:Hgk; [done|].
    exists (n1 :: l1). by rewrite Hg, Hf.
  - destruct (Hrun [] (js "all")) as (g & -> & Hgo). f_equal.
    apply (groupsOf_unique (notes p)); [|done].
    destruct (searchNotes_all toLowerCase p). done.
Qed.

Lemma getBooksBySearch_after_parse_witness :
  getBooksBySearch Str.toLowerCase [] (js "all")
    (parseFile exampleDateParse exampleClock scenario 0).1.1
  = Normal (books (parseFile exampleDateParse exampleClock scenario 0).1.1).
Proof.
  apply (getBooksBySearch_after_parse Str.toLowerCase exampleDateParse
           exampleClock scenario 0 _
           (parseFile exampleDateParse exampleClock scenario 0).1.2
           (js "focus") (js "Highlight")).
  vm_compute. reflexivity.
Defined.

(** ** The records in document order *)

Section DocumentOrder.
Variable Date_parse : jsstring -> option Z.
Variable clock : nat -> Z.

Lemma parseEntry_usable entry w :
  if (2 <=? length (entryLines entry))%nat
  then exists n, parseEntry Date_parse clock entry w = (Some n, S w)
  else parseEntry Date_parse clock entry w = (None, w).
Proof.
  unfold parseEntry.
  destruct (entryLines entry) as [|line0 [|line1 rest]]; [done|done|].
  simpl. destruct (parseTitleAuthor line0) as [t a].
  pose proof (parseMetadata_clock Date_parse clock line1 w) as Hw.
  destruct (parseMetadata _ _ _ _) as [[[[nt l] p] d] w1]. simpl in Hw. subst.
  by eexists.
Qed.

Lemma entryLines_nil : entryLines [] = [].
Proof. reflexivity. Qed.

Lemma forEachEntry_in_order entries : forall p w p' w' c,
  forEachEntry Date_parse clock entries p w = (p', w', c) ->
  exists new,
    notes p' = notes p ++ new /\ w' = (w + length new)%nat /\
    (length new <= length entries)%nat /\
    (c = Normal tt ->
     Forall2 (fun entry n => exists w1,
                parseEntry Date_parse clock (Str.trim entry) w1 = (Some n, S w1))
       (List.filter usableEntry entries) new).
Proof.
  induction entries as [|entry rest IH]; intros p w p' w' c H; simpl in H.
  - inversion H; subst. exists []. rewrite app_nil_r.
    split_and!; first [done | simpl; lia | intros _; constructor].
  - unfold parseFileStep in H. cbn [List.filter]. unfold usableEntry at 1.
    pose proof (parseEntry_usable (Str.trim entry) w) as Hu.
    destruct (Str.trim entry) as [|ch t] eqn:Ht.
    + rewrite entryLines_nil. simpl.
      apply IH in H as (new & Hn & Hw & Hl & HF). exists new.
      split_and!; first [done | simpl; lia].
    + destruct (2 <=? length (entryLines (ch :: t)))%nat.
      * destruct Hu as [n Hn]. rewrite Hn in H.
        pose proof (addNote_notes n p) as Hnotes.
        destruct (addNote n p) as [p1 [[]|e]]; simpl in Hnotes.
        -- apply IH in H as (new & Hnew & Hw & Hl & HF). exists (n :: new).
           split_and!.
           ++ by rewrite Hnew, Hnotes, <- app_assoc.
           ++ simpl. lia.
           ++ simpl. lia.
           ++ intros Hc. constructor; [exists w; by rewrite Ht|by apply HF].
        -- inversion H; subst. exists [n].
           split_and!; first [done | simpl; lia].
      * rewrite Hu in H.
        apply IH in H as (new & Hn & Hw & Hl & HF). exists new.
        split_and!; first [done | simpl; lia].
Qed.

End DocumentOrder.

(** X9.  [parseFile] never leaves more records than the text has pieces
    between delimiters, and the clock is read once per record.  When it
    returns, the flat list holds, in document order, exactly one record for
    each piece that has at least two lines that are not blank. *)
Theorem parseFile_records_in_order
  (Date_parse : jsstring -> option Z) (clock : nat -> Z)
  (content : jsstring) (w : nat) :
  let entries := Str.split (js "==========") content in
  let result := parseFile Date_parse clock content w in
  (length (notes result.1.1) <= length entries)%nat /\
  result.1.2 = (w + length (notes result.1.1))%nat /\
  (result.2 = Normal tt ->
   Forall2 (fun entry n => exists w1,
              parseEntry Date_parse clock (Str.trim entry) w1 = (Some n, S w1))
     (List.filter usableEntry entries) (notes result.1.1)).
Proof.
  intros entries result. subst result. unfold parseFile. fold entries.
  destruct (forEachEntry Date_parse clock entries (mkParser [] ∅) w)
    as [[p' w'] c] eqn:H.
  apply forEachEntry_in_order in H as (new & Hn & Hw & Hl & HF).
  simpl in *. subst. done.
Qed.

(** ** Splitting at the delimiter *)

Section SplitFacts.

Lemma splitLoop_nonempty fuel sep cur s : Str.splitLoop fuel sep cur s <> [].
Proof.
  revert cur s. induction fuel as [|fuel IH]; intros cur s; [done|].
  cbn [Str.splitLoop]. destruct s as [|c t]; [done|].
  destruct (Str.stripPrefix sep (c :: t)); [done|apply IH].
Qed.

Lemma join_cons sep p l :
  l <> [] -> Str.join sep (p :: l) = p ++ sep ++ Str.join sep l.
Proof. by destruct l. Qed.

Lemma splitLoop_join sep : sep <> [] -> forall fuel s cur,
  (length s < fuel)%nat ->
  Str.join sep (Str.splitLoop fuel sep cur s) = rev cur ++ s.
Proof.
  intros Hsep. induction fuel as [|fuel IH]; intros s cur Hlen; [lia|].
  cbn [Str.splitLoop]. destruct s as [|c t]; [by rewrite app_nil_r|].
  destruct (Str.stripPrefix sep (c :: t)) as [rest|] eqn:Hp.
  - apply stripPrefix_Some in Hp.
    rewrite join_cons by apply splitLoop_nonempty.
    rewrite IH, Hp; [done|].
    apply (f_equal (@length N)) in Hp. rewrite length_app in Hp.
    destruct sep; [done|]. simpl in *. lia.
  - rewrite IH by (simpl in Hlen; lia). simpl. by rewrite <- app_assoc.
Qed.

Lemma noStart_free sep cur s :
  sep <> [] -> noStart sep cur s ->
  (s = [] \/ exists rest, s = sep ++ rest) -> ~ Occurs sep (rev cur).
Proof.
  intros Hsep Hno Hs (pre & post & Hocc).
  specialize (Hno pre (sep ++ post) Hocc).
  assert (Str.stripPrefix sep ((sep ++ post) ++ s) = Some (post ++ s)) as Hsome
    by (apply stripPrefix_Some; by rewrite <- app_assoc).
  rewrite Hno in Hsome; [done|]. by destruct sep.
Qed.

Lemma noStart_step sep cur c t :
  noStart sep cur (c :: t) -> Str.stripPrefix sep (c :: t) = None ->
  noStart sep (c :: cur) t.
Proof.
  intros Hno Hc pre post Hrev Hpost. simpl in Hrev.
  destruct (decide (post = [c])) as [->|Hne]; [done|].
  assert (exists post0, post = post0 ++ [c] /\ post0 <> []) as (post0 & -> & Hp0).
  { destruct (exists_last Hpost) as (post0 & x & ->).
    rewrite app_assoc in Hrev. apply app_inj_tail in Hrev as [_ ->].
    exists post0. split; [done|]. by intros ->. }
  rewrite app_assoc in Hrev. apply app_inj_tail in Hrev as [Hrev _].
  rewrite <- app_assoc. by apply (Hno pre post0).
Qed.

Lemma splitLoop_free sep : sep <> [] -> forall fuel s cur,
  (length s < fuel)%nat -> noStart sep cur s ->
  Forall (fun piece => ~ Occurs sep piece) (Str.splitLoop fuel sep cur s).
Proof.
  intros Hsep. induction fuel as [|fuel IH]; intros s cur Hlen Hno; [lia|].
  cbn [Str.splitLoop]. destruct s as [|c t].
  - constructor; [|constructor]. apply (noStart_free sep cur []); auto.
  - destruct (Str.stripPrefix sep (c :: t)) as [rest|] eqn:Hp.
    + apply stripPrefix_Some in Hp as Hp'. constructor.
      * apply (noStart_free sep cur (c :: t)); eauto.
      * apply IH.
        -- apply (f_equal (@length N)) in Hp'. rewrite length_app in Hp'.
           destruct sep; [done|]. simpl in *. lia.
        -- intros pre post Hrev Hpost. destruct pre, post; done.
    + apply IH; [simpl in Hlen; lia|]. by apply noStart_step.
Qed.

End SplitFacts.

(** X10.  The pieces into which [parseFile] splits the text at the delimiter,
    joined again with the delimiter between them, are the text; there is at
    least one piece, and no piece contains the delimiter. *)
Theorem parseFile_split_round_trip (content : jsstring) :
  let entries := Str.split (js "==========") content in
  Str.join (js "==========") entries = content /\
  entries <> [] /\
  Forall (fun entry => ~ Occurs (js "==========") entry) entries.
Proof.
  intros entries. subst entries.
  change (Str.split (js "==========") content)
    with (Str.splitLoop (S (length content)) (js "==========") [] content).
  split_and!.
  - by rewrite splitLoop_join; [|done|lia].
  - apply splitLoop_nonempty.
  - apply splitLoop_free; [done|lia|].
    intros pre post Hrev Hpost. destruct pre, post; done.
Qed.

(** ** A title line read back *)

Section TitleRoundTrip.

Lemma shape_same_paren line t1 ws1 a1 t2 ws2 a2 :
  TitleAuthorShape line t1 ws1 a1 -> TitleAuthorShape line t2 ws2 a2 ->
  length (t1 ++ ws1) = length (t2 ++ ws2) ->
  t1 ++ ws1 = t2 ++ ws2 /\ a1 = a2.
Proof.
  intros (H1 & _) (H2 & _) Hlen.
  assert (H : (t1 ++ ws1) ++ 40 :: a1 ++ [41] = (t2 ++ ws2) ++ 40 :: a2 ++ [41]).
  { rewrite <- !app_assoc. exact (eq_trans (eq_sym H1) H2). }
  apply app_inj_1 in H as [Hp Hr]; [|done]. split; [done|].
  inversion Hr as [Ha]. by apply app_inj_tail in Ha as [? _].
Qed.

Lemma parseTitleAuthor_shape line t ws a :
  TitleAuthorShape line t ws a -> 40 ∉ t -> stripBOM line = line ->
  parseTitleAuthor line = (Str.trim t, Str.trim a).
Proof.
  intros Hshape Hparen Hbom.
  unfold parseTitleAuthor. rewrite replace_bom, Hbom.
  unfold RegExpOps.exec. rewrite titleAuthor_pattern, execFrom_anchored.
  rewrite <- titleAuthor_pattern. simpl re_ignoreCase. simpl re_groups.
  destruct (titleAuthor_Matches_intro _ _ _ _ Hshape) as [s' Hs'].
  destruct (matchAt_complete _ _ _ _ _ _ Hs') as [m Hm]. rewrite Hm.
  destruct (titleAuthor_matchAt _ _ Hm) as (t1 & ws1 & a1 & Hshape1 & Hc & Hmin).
  rewrite (group_caps m 1 t1), (group_caps m 2 a1) by (by rewrite Hc).
  pose proof (titleAuthor_leftmost _ _ _ _ _ _ _ Hshape1 Hshape
                (Hmin _ _ _ Hshape)) as Hle.
  assert (Hlen : length (t1 ++ ws1) = length (t ++ ws)).
  { destruct (Nat.eq_dec (length (t1 ++ ws1)) (length (t ++ ws))) as [|Hne];
      [done|exfalso].
    assert (H40 : line !! length (t1 ++ ws1) = Some 40).
    { destruct Hshape1 as (Hl1 & _). rewrite Hl1 at 1.
      rewrite (app_assoc t1 ws1), lookup_app_r by lia. by rewrite Nat.sub_diag. }
    destruct Hshape as (Hl & _ & _ & Hws & _). rewrite Hl in H40.
    rewrite (app_assoc t ws) in H40. rewrite lookup_app_l in H40 by lia.
    apply list_elem_of_lookup_2, elem_of_app in H40 as [H40|H40]; [done|].
    rewrite Forall_forall in Hws. by apply Hws in H40. }
  destruct (shape_same_paren _ _ _ _ _ _ _ Hshape1 Hshape Hlen) as [Hp ->].
  f_equal.
  destruct Hshape1 as (_ & _ & _ & Hws1 & _).
  destruct Hshape as (_ & _ & _ & Hws & _).
  by rewrite <- (trim_app_spaces t1 ws1 Hws1), Hp, (trim_app_spaces t ws Hws).
Qed.

End TitleRoundTrip.

(** X11.  A title line written as title, white space, author in parentheses
    is read back by [parseTitleAuthor] as that title and that author, for
    every title without an opening parenthesis and every author without a
    closing one. *)
Theorem parseTitleAuthor_round_trip (title ws author : jsstring) :
  plainTitle title -> Forall (fun c => Char.isSpace c = true) ws ->
  plainAuthor author ->
  parseTitleAuthor (title ++ ws ++ js "(" ++ author ++ js ")") = (title, author).
Proof.
  intros (Ht & Htrim & Hdot & Hparen) Hws (Ha & Hatrim & Haparen).
  set (line := title ++ ws ++ js "(" ++ author ++ js ")").
  assert (Hshape : TitleAuthorShape line title ws author).
  { split_and!; try done. apply Forall_forall. intros c Hc ->. done. }
  assert (Hbom : stripBOM line = line).
  { destruct (Trimmed_nonempty_head _ Ht Htrim) as (c & t & Hc & Hsp).
    unfold line. rewrite Hc. simpl.
    destruct (c =? 65279) eqn:E; [|done]. apply N.eqb_eq in E. by subst c. }
  rewrite (parseTitleAuthor_shape line title ws author Hshape Hparen Hbom).
  by rewrite Htrim, Hatrim.
Qed.

Lemma parseTitleAuthor_round_trip_witness :
  parseTitleAuthor (js "Deep Work (Cal Newport)")
  = (js "Deep Work", js "Cal Newport").
Proof.
  apply (parseTitleAuthor_round_trip (js "Deep Work") (js " ") (js "Cal Newport")).
  - split_and!; [done|vm_compute; reflexivity| |].
    + repeat constructor.
    + vm_compute. intros H. repeat (apply elem_of_cons in H as [H|H]; [discriminate H|]).
      by apply elem_of_nil in H.
  - repeat constructor.
  - split_and!; [done|vm_compute; reflexivity|].
    vm_compute. intros H. repeat (apply elem_of_cons in H as [H|H]; [discriminate H|]).
    by apply elem_of_nil in H.
Defined.

(** ** Exporting highlights *)

Section ExportFacts.

Lemma trim_nil_iff s : Trimmed s -> Str.trim s = [] <-> s = [].
Proof. intros H. by rewrite H. Qed.

Lemma isHighlightWithText_tidy n :
  Trimmed (content n) -> isHighlightWithText n = highlightWithContent n.
Proof.
  intros H. unfold isHighlightWithText, highlightWithContent. rewrite H.
  by destruct (content n).
Qed.

Lemma filter_ext_in {A} (f g : A -> bool) l :
  Forall (fun x => f x = g x) l -> List.filter f l = List.filter g l.
Proof. induction 1 as [|x l H _ IH]; [done|]. simpl. by rewrite H, IH. Qed.

Lemma map_ext_Forall {A B} (f g : A -> B) l :
  Forall (fun x => f x = g x) l -> List.map f l = List.map g l.
Proof. induction 1 as [|x l H _ IH]; [done|]. simpl. by rewrite H, IH. Qed.

Lemma Forall_filter_list {A} (P : A -> Prop) f l :
  Forall P l -> Forall P (List.filter f l).
Proof.
  induction 1 as [|x l H _ IH]; [constructor|]. simpl.
  destruct (f x); [by constructor|done].
Qed.

Lemma filter_length_le {A} (f g : A -> bool) l :
  (forall x, f x = true -> g x = true) ->
  (length (List.filter f l) <= length (List.filter g l))%nat.
Proof.
  intros H. induction l as [|x l IH]; [done|]. simpl.
  destruct (f x) eqn:Hf.
  - rewrite (H _ Hf). simpl. lia.
  - destruct (g x); simpl; lia.
Qed.

Lemma join_map_nonempty {A} sep (f : A -> jsstring) l :
  l <> [] -> (forall x, x ∈ l -> f x <> []) -> Str.join sep (List.map f l) <> [].
Proof.
  intros Hl Hf. apply join_nonempty.
  - by destruct l.
  - apply Forall_forall. intros s Hs.
    apply list_elem_of_In, in_map_iff in Hs as (x & <- & Hx).
    by apply Hf, list_elem_of_In.
Qed.

Lemma exportItem_nonempty n : exportItem n <> [].
Proof. unfold exportItem. by destruct (cleanBookTitle _ _). Qed.

Lemma isHighlightWithText_trim n :
  isHighlightWithText n = true -> Str.trim (content n) <> [].
Proof.
  unfold isHighlightWithText. intros [_ H]%andb_true_iff.
  by destruct (Str.trim (content n)).
Qed.

End ExportFacts.

(** X12.  [copyBookHighlights] after a parse that returned.  It throws for a
    title that no record bears.  For the title of a record it warns when the
    book has no highlight with a content, and otherwise hands the clipboard
    the contents of the book's highlights that have one, in the order of the
    book, with an empty line between them; that text is never empty. *)
Theorem copyBookHighlights_after_parse
  (Date_parse : jsstring -> option Z) (clock : nat -> Z)
  (clippings : jsstring) (w : nat) (p : ParserState) (w' : nat)
  (title : jsstring) :
  parseFile Date_parse clock clippings w = (p, w', Normal tt) ->
  let book := groupOf title (notes p) in
  let highlights := List.filter highlightWithContent book in
  let text := Str.join (js (nl ++ nl)) (List.map content highlights) in
  (book = [] -> exists e, copyBookHighlights title p = Throw e) /\
  (book <> [] -> highlights = [] ->
   exists message,
     copyBookHighlights title p
     = Normal [showWarning message (js "No Highlights Available")]) /\
  (highlights <> [] ->
   text <> [] /\ copyBookHighlights title p = Normal [copyToClipboard text]).
Proof.
  intros Hparse book highlights text.
  destruct (parseFile_grouped _ _ _ _ _ _ Hparse) as [Hg _].
  assert (Htidy : Forall tidyRecord (notes p)).
  { pose proof (parseFile_notes_Forall Date_parse clock tidyRecord clippings w
                  (parseEntry_tidy Date_parse clock)) as H.
    by rewrite Hparse in H. }
  assert (Hbook : Forall tidyRecord book) by by apply Forall_filter_list.
  assert (Hsame : List.filter isHighlightWithText book = highlights).
  { apply filter_ext_in. eapply Forall_impl; [exact Hbook|].
    intros n (_ & _ & _ & Hc). by apply isHighlightWithText_tidy. }
  assert (Htext : Str.join (js (String "010" (String "010" EmptyString)))
            (List.map (fun n => Str.trim (content n)) highlights) = text).
  { unfold text. f_equal. apply map_ext_Forall.
    apply Forall_filter_list. eapply Forall_impl; [exact Hbook|].
    by intros n (_ & _ & _ & Hc). }
  pose proof (Hg title) as Hlook. fold book in Hlook.
  unfold copyBookHighlights, getBook. split_and!.
  - intros Hnil. rewrite Hnil in Hlook. rewrite Hlook.
    destruct (bool_decide _); by eexists.
  - intros Hne Hnone. destruct book as [|n0 book0] eqn:Hb; [done|].
    rewrite Hlook. cbn zeta. rewrite Hsame, Hnone. simpl. by eexists.
  - intros Hsome.
    assert (Hne : text <> []).
    { apply join_map_nonempty; [done|]. intros n Hn.
      apply list_elem_of_In, List.filter_In in Hn as [_ Hn].
      unfold highlightWithContent in Hn. apply andb_true_iff in Hn as [_ Hn].
      apply negb_true_iff, bool_decide_eq_false in Hn. done. }
    split; [done|].
    destruct book as [|n0 book0] eqn:Hb; [done|].
    rewrite Hlook. cbn zeta. rewrite Hsame, Htext.
    by destruct text.
Qed.

Lemma copyBookHighlights_after_parse_witness :
  exists text, text <> [] /\
    copyBookHighlights (js "Deep Work")
      (parseFile exampleDateParse exampleClock scenario 0).1.1
    = Normal [copyToClipboard text].
Proof.
  eexists.
  refine (proj2 (proj2 (copyBookHighlights_after_parse exampleDateParse exampleClock
            scenario 0 (parseFile exampleDateParse exampleClock scenario 0).1.1
            (parseFile exampleDateParse exampleClock scenario 0).1.2
            (js "Deep Work") _)) _).
  - vm_compute. reflexivity.
  - vm_compute. discriminate.
Defined.

(** X13.  [exportAllHighlights] after a parse, whether it returned or threw,
    when the titles and authors of the highlights with a content are Basic
    Latin texts.  It warns when no record is a highlight with a content.
    Otherwise it downloads one file, whose text is never empty and holds, for
    each such highlight in document order, the cleaned title, a line feed and
    the content, and it reports the number of these highlights, which is at
    least one and at most the [highlights] count of [getStatistics]. *)
Theorem exportAllHighlights_after_parse
  (Date_parse : jsstring -> option Z) (clock : nat -> Z)
  (clippings : jsstring) (w : nat)
  (Hlatin : Forall basicLatinRecord
              (List.filter highlightWithContent
                 (notes (parseFile Date_parse clock clippings w).1.1))) :
  let p := (parseFile Date_parse clock clippings w).1.1 in
  let exported := List.filter highlightWithContent (notes p) in
  let text :=
    Str.join (js (nl ++ nl ++ "---" ++ nl ++ nl))
      (List.map (fun n => cleanBookTitle (bookTitle n) (author n) ++ js nl ++
                          content n) exported) in
  (exported = [] ->
   exists message,
     exportAllHighlights p = [showWarning message (js "No Highlights to Export")]) /\
  (exported <> [] ->
   text <> [] /\
   exportAllHighlights p
   = [downloadTextFile (js "all_kindle_highlights.txt") text;
      showSuccess
        (js "Successfully exported " ++ numberToString (length exported) ++
         js " highlights to " ++ quoted (js "all_kindle_highlights.txt"))
        (js "Export Complete")]) /\
  (length exported <= Stats.highlights (getStatistics p))%nat.
Proof.
  intros p exported text.
  assert (Htidy : Forall tidyRecord (notes p)).
  { apply parseFile_notes_Forall, parseEntry_tidy. }
  assert (Hsame : List.filter isHighlightWithText (notes p) = exported).
  { apply filter_ext_in. eapply Forall_impl; [exact Htidy|].
    intros n (_ & _ & _ & Hc). by apply isHighlightWithText_tidy. }
  assert (Htext :
    Str.join (js (String "010" (String "010" ("---" ++
                  String "010" (String "010" EmptyString)))))
      (List.map exportItem exported) = text).
  { unfold text. f_equal. apply map_ext_Forall.
    apply Forall_filter_list. eapply Forall_impl; [exact Htidy|].
    intros n (_ & _ & _ & Hc). unfold exportItem. by rewrite Hc. }
  unfold exportAllHighlights. rewrite Hsame, Htext. split_and!.
  - intros Hnil. unfold text. rewrite Hnil. simpl. by eexists.
  - intros Hne.
    assert (Ht : text <> []).
    { apply join_map_nonempty; [done|]. intros n _.
      by destruct (cleanBookTitle _ _). }
    split; [done|]. by destruct text.
  - unfold getStatistics, countKind. simpl. apply filter_length_le.
    intros n. unfold highlightWithContent. by intros [? _]%andb_true_iff.
Qed.

Lemma exportAllHighlights_after_parse_witness :
  exists text message,
    text <> [] /\
    exportAllHighlights (parseFile exampleDateParse exampleClock scenario 0).1.1
    = [downloadTextFile (js "all_kindle_highlights.txt") text;
       showSuccess message (js "Export Complete")].
Proof.
  destruct (exportAllHighlights_after_parse exampleDateParse exampleClock
              scenario 0) as (_ & H & _).
  - vm_compute. repeat constructor.
  - eexists _, _. apply H. vm_compute. discriminate.
Defined.

(** ** A metadata line read back *)

Section MetadataRoundTrip.
Import Re ReSpec.

Lemma rmatch_litN w k : forall bef rest cs,
  rmatch false (litN w) k (mkMState bef (w ++ rest) cs)
  = k (mkMState (rev w ++ bef) rest cs).
Proof.
  induction w as [|c w IH]; intros bef rest cs; [done|].
  cbn [litN fold_right rmatch after app]. unfold canon. rewrite N.eqb_refl.
  change (fold_right (fun c r => RSeq (RChar c) r) REmpty w) with (litN w).
  unfold advance. cbn [after before caps]. rewrite IH.
  cbn [rev]. by rewrite <- app_assoc.
Qed.

Lemma matchAt_lit_miss c w r n bef aft :
  match aft with [] => True | x :: _ => x <> c end ->
  matchAt false (RSeq (litN (c :: w)) r) n bef aft = None.
Proof.
  intros H. unfold matchAt. cbn [litN fold_right rmatch after].
  destruct aft as [|x aft]; [done|]. unfold canon.
  by rewrite (proj2 (N.eqb_neq x c) H).
Qed.

Lemma execFrom_lit_first c w r n pre v :
  c ∉ pre ->
  execFrom false (RSeq (litN (c :: w)) r) n [] (pre ++ v)
  = execFrom false (RSeq (litN (c :: w)) r) n (rev pre) v.
Proof.
  intros Hc. rewrite execFrom_skip; [by rewrite app_nil_r|].
  intros u1 x u2 ->. apply matchAt_lit_miss. intros ->.
  apply Hc. apply elem_of_app. right. by left.
Qed.

Lemma matchAt_lit w r n bef rest :
  matchAt false (RSeq (litN w) r) n bef (w ++ rest)
  = match rmatch false r (fun s => Some s)
            (mkMState (rev w ++ bef) rest (replicate (S n) None)) with
    | Some s1 => Some (mkMatch (mkMState bef (w ++ rest) (replicate (S n) None)) s1)
    | None => None
    end.
Proof. unfold matchAt. cbn [rmatch]. by rewrite rmatch_litN. Qed.

Lemma rmatch_plus_digit k bef ds rest cs :
  digitRun ds -> noDigitAhead rest ->
  is_Some (k (mkMState (rev ds ++ bef) rest cs)) ->
  rmatch false (plus digit) k (mkMState bef (ds ++ rest) cs)
  = k (mkMState (rev ds ++ bef) rest cs).
Proof.
  intros [Hds Hne] Hrest Hk. unfold plus, digit. cbn [rmatch after].
  apply (quantLoop_greedy_run false Char.isDigit); try done.
  - destruct ds; [done|simpl; lia].
  - rewrite length_app. lia.
Qed.

Lemma exec_page_exact pre pg rest :
  112 ∉ pre -> digitRun pg -> noDigitAhead rest ->
  exists m, RegExpOps.exec Pat.pageRe (pre ++ js "page " ++ pg ++ rest) = Some m /\
            group_ 1 m = pg.
Proof.
  intros Hp Hpg Hrest. unfold RegExpOps.exec.
  change (re_pattern Pat.pageRe)
    with (RSeq (litN (112 :: js "age ")) (RGroup 1 (plus digit))).
  cbn [re_ignoreCase re_groups Pat.pageRe].
  rewrite execFrom_lit_first by done.
  eexists. split.
  - apply execFrom_here. change (112 :: js "age ") with (js "page ").
    rewrite matchAt_lit. cbn [rmatch].
    rewrite rmatch_plus_digit; [reflexivity|done|done|done].
  - apply group_caps. cbn [m_end caps setCap].
    rewrite (Ahead_consumed pg); [done|by split].
Qed.

Lemma rmatch_opt_skip r k s :
  (forall k', rmatch false r k' s = None) ->
  rmatch false (opt r) k s = k s.
Proof.
  intros H. unfold opt. cbn [rmatch quantLoop]. simpl. by rewrite H.
Qed.

Lemma rmatch_opt_take r k s s' :
  (forall k', is_Some (k' s') -> rmatch false r k' s = k' s') ->
  pos s' <> pos s -> after s <> [] -> is_Some (k s') ->
  rmatch false (opt r) k s = k s'.
Proof.
  intros H Hpos Hafter [res Hk]. unfold opt. cbn [rmatch].
  destruct (after s) as [|x t] eqn:Ha; [done|].
  cbn [quantLoop length Nat.add]. cbn [Nat.ltb Nat.leb andb].
  rewrite H; rewrite (proj2 (Nat.eqb_neq _ _) Hpos); simpl; by rewrite Hk.
Qed.

Lemma locationRe_pattern :
  re_pattern Pat.locationRe
  = RSeq (litN (76 :: js "ocation "))
      (RGroup 1 (RSeq (plus digit) (opt (RSeq (litN [45]) (plus digit))))).
Proof. reflexivity. Qed.

Lemma exec_location_exact pre ds more rest :
  76 ∉ pre -> digitRun ds ->
  more = [] \/ (exists ds2, digitRun ds2 /\ more = 45 :: ds2) ->
  noDigitAhead rest -> match rest with [] => True | c :: _ => c <> 45 end ->
  exists m,
    RegExpOps.exec Pat.locationRe (pre ++ js "Location " ++ (ds ++ more) ++ rest)
    = Some m /\ group_ 1 m = ds ++ more.
Proof.
  intros Hp Hds Hmore Hrest Hdash. unfold RegExpOps.exec.
  rewrite locationRe_pattern. cbn [re_ignoreCase re_groups Pat.locationRe].
  rewrite execFrom_lit_first by done.
  change (76 :: js "ocation ") with (js "Location ").
  set (bef1 := rev (js "Location ") ++ rev pre).
  set (cs := replicate 2 (@None jsstring)).
  set (s1 := mkMState bef1 ((ds ++ more) ++ rest) cs).
  set (K := fun s' : MState => Some (setCap 1 (consumed s1 s') s')).
  assert (Hgo : rmatch false
            (RGroup 1 (RSeq (plus digit) (opt (RSeq (litN [45]) (plus digit)))))
            (fun s => Some s) s1
          = K (mkMState (rev (ds ++ more) ++ bef1) rest cs)).
  { change (rmatch false (plus digit)
              (rmatch false (opt (RSeq (litN [45]) (plus digit))) K) s1
            = K (mkMState (rev (ds ++ more) ++ bef1) rest cs)).
    unfold s1. rewrite <- app_assoc.
    destruct Hmore as [->|(ds2 & Hds2 & ->)].
    - assert (Hskip : rmatch false (opt (RSeq (litN [45]) (plus digit))) K
                (mkMState (rev ds ++ bef1) rest cs)
              = K (mkMState (rev ds ++ bef1) rest cs)).
      { apply rmatch_opt_skip. intros k'. cbn [rmatch litN fold_right after].
        destruct rest as [|c rest']; [done|]. unfold canon.
        by rewrite (proj2 (N.eqb_neq c 45) Hdash). }
      rewrite app_nil_r. simpl app at 1.
      rewrite rmatch_plus_digit; [done|done|done|by rewrite Hskip].
    - set (s2 := mkMState (rev ds ++ bef1) (45 :: ds2 ++ rest) cs).
      set (s4 := mkMState (rev (ds ++ 45 :: ds2) ++ bef1) rest cs).
      assert (Htake : rmatch false (opt (RSeq (litN [45]) (plus digit))) K s2 = K s4).
      { apply rmatch_opt_take; [| |done|done].
        - intros k' Hk'. cbn [rmatch]. unfold s2.
          rewrite (rmatch_litN [45] _ _ (ds2 ++ rest)).
          rewrite rmatch_plus_digit; try done.
          + unfold s4. rewrite rev_app_distr. cbn [rev]. by rewrite <- !app_assoc.
          + unfold s4 in Hk'. rewrite rev_app_distr in Hk'. cbn [rev] in Hk'.
            by rewrite <- !app_assoc in Hk'.
        - unfold pos, s4, s2. cbn [before]. rewrite !length_app, !length_rev, length_app.
          simpl. lia. }
      change ((45 :: ds2) ++ rest) with (45 :: ds2 ++ rest).
      rewrite rmatch_plus_digit; fold s2;
        [exact Htake|done|reflexivity|by rewrite Htake]. }
  eexists. split.
  - apply execFrom_here. rewrite matchAt_lit. fold bef1 cs s1. rewrite Hgo.
    reflexivity.
  - apply group_caps. cbn [m_end K caps setCap].
    rewrite (Ahead_consumed (ds ++ more)); [done|by split].
Qed.

Lemma exec_addedOn_exact pre date :
  65 ∉ pre -> date <> [] -> Forall (fun c => Char.isDot c = true) date ->
  exists m, RegExpOps.exec Pat.addedOn (pre ++ js "Added on " ++ date) = Some m /\
            group_ 1 m = date.
Proof.
  intros Hp Hne Hdot. unfold RegExpOps.exec.
  change (re_pattern Pat.addedOn)
    with (RSeq (litN (65 :: js "dded on ")) (RSeq (RGroup 1 (plusLazy dot)) REol)).
  cbn [re_ignoreCase re_groups Pat.addedOn].
  rewrite execFrom_lit_first by done.
  change (65 :: js "dded on ") with (js "Added on ").
  set (r := RSeq (litN (js "Added on ")) (RSeq (RGroup 1 (plusLazy dot)) REol)).
  set (s1 := mkMState (rev (js "Added on ") ++ rev pre) date (replicate 2 None)).
  set (s2 := mkMState (rev date ++ rev (js "Added on ") ++ rev pre) []
               (replicate 2 None)).
  assert (HM : Matches false r (start 1 (rev pre) (js "Added on " ++ date))
                 (setCap 1 (consumed s1 s2) s2)).
  { unfold r. cbn [Matches]. exists s1. split; [apply Matches_litN_intro|].
    exists (setCap 1 (consumed s1 s2) s2). split; [|done].
    exists s2. split; [|done]. unfold plusLazy, dot, s1, s2.
    rewrite <- (app_nil_r date) at 1.
    apply (Iter_set_intro false Char.isDot); [done|].
    destruct date; [done|simpl; lia]. }
  destruct (matchAt_complete _ _ _ _ _ _ HM) as [m Hm].
  exists m. split; [by apply execFrom_here|].
  apply matchAt_sound in Hm as [Hst HM']. rewrite Hst in HM'.
  unfold r in HM'. cbn [Matches plusLazy dot] in HM'.
  destruct HM' as (t1 & Hl & t2 & (t3 & Hit & ->) & Hend & Hs).
  apply Matches_litN_elim in Hl as [Al Cl].
  apply (Iter_set_elim false Char.isDot) in Hit as (d & Ad & Fd & Cd & Ld).
  rewrite (Ahead_consumed _ _ _ Ad) in *.
  assert (Hg : group_ 1 m = d).
  { apply group_caps. rewrite Hs. simpl. rewrite Cd, Cl. done. }
  rewrite Hg.
  destruct (Ahead_trans _ _ _ _ _ Al (Ahead_setCap _ _ _ 1%nat d Ad)) as [HA _].
  rewrite Hend, app_nil_r in HA. unfold start in HA. cbn [after] in HA.
  by apply app_inv_head in HA.
Qed.

Lemma Occurs_after c p pre s :
  c ∉ pre -> Occurs (c :: p) (pre ++ s) -> Occurs (c :: p) s.
Proof.
  intros Hc (x & y & H).
  apply app_eq_inv in H as [(k & Hpre & Hk)|(k & Hx & Hs)].
  - destruct k as [|c' k].
    + exists [], y. simpl in Hk. by rewrite <- Hk.
    + simpl in Hk. inversion Hk; subst c'. exfalso. apply Hc. rewrite Hpre.
      apply elem_of_app. right. by left.
  - exists k, y. by rewrite Hs.
Qed.

Lemma Occurs_shorter p d s : Occurs (p ++ d) s -> Occurs p s.
Proof. intros (x & y & ->). exists x, (d ++ y). by rewrite <- app_assoc. Qed.

Lemma notin_digits c ds :
  Forall Digit ds -> Char.isDigit c = false -> c ∉ ds.
Proof.
  intros Hds Hc Hin. rewrite Forall_forall in Hds. apply Hds in Hin.
  unfold Digit in Hin. congruence.
Qed.

Lemma notin_token c loc :
  locationToken loc -> Char.isDigit c = false -> c <> 45 -> c ∉ loc.
Proof.
  intros (ds & [Hds _] & [->|(ds2 & [Hds2 _] & ->)]) Hc H45.
  - by apply notin_digits.
  - rewrite !not_elem_of_app. split_and!; [by apply notin_digits| |by apply notin_digits].
    by intros ->%list_elem_of_singleton.
Qed.

Lemma pagePart_notin page c :
  (forall pg, page = Some pg -> digitRun pg) -> c ∈ [65; 76; 72; 66; 78] ->
  c ∉ match page with
      | Some pg => js "page " ++ pg ++ js " | "
      | None => []
      end.
Proof.
  intros Hpage Hc. destruct page as [pg|]; [|apply not_elem_of_nil].
  destruct (Hpage pg eq_refl) as [Hpg _].
  repeat (apply elem_of_cons in Hc as [->|Hc]); [..|by apply elem_of_nil in Hc];
    rewrite !not_elem_of_app; split_and!;
    first [by apply (bool_decide_unpack _) | by apply notin_digits].
Qed.

Lemma head_notin kind c :
  c ∈ [65; 76; 112] -> c ∉ js "- Your " ++ NoteType_toString kind ++ js " on ".
Proof.
  intros Hc.
  repeat (apply elem_of_cons in Hc as [->|Hc]); [..|by apply elem_of_nil in Hc];
    destruct kind; by apply (bool_decide_unpack _).
Qed.

Lemma metadataLineOf_location kind page location date :
  (forall pg, page = Some pg -> digitRun pg) -> locationToken location ->
  exists m, RegExpOps.exec Pat.locationRe (metadataLineOf kind page location date)
            = Some m /\ group_ 1 m = location.
Proof.
  intros Hpage Hloc.
  assert (Htok : exists ds more, location = ds ++ more /\ digitRun ds /\
            (more = [] \/ exists ds2, digitRun ds2 /\ more = 45 :: ds2)).
  { destruct Hloc as (ds & Hds & [->|(ds2 & Hds2 & ->)]).
    - exists ds, []. by rewrite app_nil_r; auto.
    - exists ds, (45 :: ds2). split_and!; [done|done|]. right. by exists ds2. }
  destruct Htok as (ds & more & Hl & Hds & Hmore).
  subst location.
  assert (Hline : metadataLineOf kind page (ds ++ more) date
    = ((js "- Your " ++ NoteType_toString kind ++ js " on ") ++
       match page with
       | Some pg => js "page " ++ pg ++ js " | "
       | None => []
       end) ++ js "Location " ++ (ds ++ more) ++ js " | Added on " ++ date).
  { unfold metadataLineOf. by rewrite <- !app_assoc. }
  rewrite Hline.
  apply exec_location_exact; [|done|done|reflexivity|by vm_compute].
  rewrite !not_elem_of_app. split_and!.
  - by apply (bool_decide_unpack _).
  - destruct kind; by apply (bool_decide_unpack _).
  - by apply (bool_decide_unpack _).
  - apply pagePart_notin; [done|]. by apply (bool_decide_unpack _).
Qed.

Lemma metadataLineOf_split kind page location date :
  metadataLineOf kind page location date
  = ((js "- Your " ++ NoteType_toString kind ++ js " on ") ++
     match page with
     | Some pg => js "page " ++ pg ++ js " | "
     | None => []
     end ++ js "Location " ++ location ++ js " | ") ++ js "Added on " ++ date.
Proof. unfold metadataLineOf. by rewrite <- !app_assoc. Qed.

Lemma metadataLineOf_date kind page location date :
  (forall pg, page = Some pg -> digitRun pg) -> locationToken location ->
  date <> [] -> Forall (fun c => Char.isDot c = true) date ->
  exists m, RegExpOps.exec Pat.addedOn (metadataLineOf kind page location date)
            = Some m /\ group_ 1 m = date.
Proof.
  intros Hpage Hloc Hne Hdot. rewrite metadataLineOf_split.
  apply exec_addedOn_exact; [|done|done].
  rewrite not_elem_of_app. split; [apply head_notin; by apply (bool_decide_unpack _)|].
  rewrite !not_elem_of_app. split_and!.
  - apply pagePart_notin; [done|]. by apply (bool_decide_unpack _).
  - by apply (bool_decide_unpack _).
  - by apply notin_token.
  - by apply (bool_decide_unpack _).
Qed.

Lemma metadataLineOf_page kind page location date :
  (forall pg, page = Some pg -> digitRun pg) -> locationToken location ->
  ~ Occurs (js "page ") date ->
  match RegExpOps.exec Pat.pageRe (metadataLineOf kind page location date) with
  | Some m => Some (group_ 1 m)
  | None => None
  end = page.
Proof.
  intros Hpage Hloc Hnop. destruct page as [pg|] eqn:Hpg.
  - destruct (exec_page_exact (js "- Your " ++ NoteType_toString kind ++ js " on ")
                pg (js " | Location " ++ location ++ js " | Added on " ++ date))
      as (m & Hm & Hg); [|by apply Hpage|reflexivity|].
    + apply head_notin. by apply (bool_decide_unpack _).
    + assert (Hline : metadataLineOf kind (Some pg) location date
        = (js "- Your " ++ NoteType_toString kind ++ js " on ") ++ js "page " ++
          pg ++ js " | Location " ++ location ++ js " | Added on " ++ date).
      { unfold metadataLineOf. by rewrite <- !app_assoc. }
      by rewrite Hline, Hm, Hg.
  - destruct (RegExpOps.exec Pat.pageRe _) as [m|] eqn:Hm; [exfalso|done].
    apply exec_page_sound in Hm as [_ Hocc].
    apply Occurs_shorter in Hocc. apply Hnop.
    rewrite metadataLineOf_split, app_assoc in Hocc.
    apply Occurs_after in Hocc; [done|].
    rewrite not_elem_of_app. split.
    { rewrite not_elem_of_app.
      split; [apply head_notin; by apply (bool_decide_unpack _)|].
      rewrite !not_elem_of_app. split_and!.
      - apply not_elem_of_nil.
      - by apply (bool_decide_unpack _).
      - by apply notin_token.
      - by apply (bool_decide_unpack _). }
    by apply (bool_decide_unpack _).
Qed.

Lemma metadataLineOf_kind kind page location date :
  (forall pg, page = Some pg -> digitRun pg) -> locationToken location ->
  ~ Occurs (js "Highlight") date -> ~ Occurs (js "Bookmark") date ->
  ~ Occurs (js "Note") date ->
  (let line := metadataLineOf kind page location date in
   if Str.includes (js "Highlight") line then Highlight
   else if Str.includes (js "Bookmark") line then Bookmark
   else if Str.includes (js "Note") line then Note
   else Unknown) = kind.
Proof.
  intros Hpage Hloc HnoH HnoB HnoN. cbn zeta.
  set (line := metadataLineOf kind page location date).
  assert (Hfree : forall name c p, name = c :: p ->
    c ∈ [72; 66; 78] -> ~ Occurs name date ->
    c ∉ js "- Your " ++ NoteType_toString kind ++ js " on " ->
    Str.includes name line = false).
  { intros name c p -> Hc Hdate Hhead. apply not_true_iff_false.
    unfold line. rewrite includes_Occurs, metadataLineOf_split, app_assoc.
    intros Hocc. apply Occurs_after in Hocc; [done|].
    rewrite not_elem_of_app. split; [|
      repeat (apply elem_of_cons in Hc as [->|Hc]); [..|by apply elem_of_nil in Hc];
        by apply (bool_decide_unpack _)].
    rewrite not_elem_of_app. split; [done|].
    rewrite !not_elem_of_app. split_and!.
    - apply pagePart_notin; [done|].
      repeat (apply elem_of_cons in Hc as [->|Hc]); [..|by apply elem_of_nil in Hc];
        by apply (bool_decide_unpack _).
    - repeat (apply elem_of_cons in Hc as [->|Hc]); [..|by apply elem_of_nil in Hc];
        by apply (bool_decide_unpack _).
    - apply notin_token; [done| |];
        repeat (apply elem_of_cons in Hc as [->|Hc]); try done;
        by apply elem_of_nil in Hc.
    - repeat (apply elem_of_cons in Hc as [->|Hc]); [..|by apply elem_of_nil in Hc];
        by apply (bool_decide_unpack _). }
  assert (Hin : kind <> Unknown -> Str.includes (NoteType_toString kind) line = true).
  { intros _. apply includes_Occurs.
    exists (js "- Your "),
      (js " on " ++ match page with
                    | Some pg => js "page " ++ pg ++ js " | "
                    | None => []
                    end ++ js "Location " ++ location ++ js " | Added on " ++ date).
    done. }
  destruct kind; cbn [NoteType_toString] in Hin.
  - by rewrite Hin.
  - rewrite (Hfree (js "Highlight") 72 (js "ighlight") eq_refl), Hin; try done;
      by apply (bool_decide_unpack _).
  - rewrite (Hfree (js "Highlight") 72 (js "ighlight") eq_refl),
      (Hfree (js "Bookmark") 66 (js "ookmark") eq_refl), Hin; try done;
      by apply (bool_decide_unpack _).
  - rewrite (Hfree (js "Highlight") 72 (js "ighlight") eq_refl),
      (Hfree (js "Bookmark") 66 (js "ookmark") eq_refl),
      (Hfree (js "Note") 78 (js "ote") eq_refl); try done;
      by apply (bool_decide_unpack _).
Qed.

Lemma parseMetadata_searches (Date_parse : jsstring -> option Z) (clock : nat -> Z)
  line w kind location page date ml md :
  (if Str.includes (js "Highlight") line then Highlight
   else if Str.includes (js "Bookmark") line then Bookmark
   else if Str.includes (js "Note") line then Note
   else Unknown) = kind ->
  RegExpOps.exec Pat.locationRe line = Some ml -> group_ 1 ml = location ->
  match RegExpOps.exec Pat.pageRe line with
  | Some m => Some (group_ 1 m)
  | None => None
  end = page ->
  RegExpOps.exec Pat.addedOn line = Some md -> group_ 1 md = date ->
  parseMetadata Date_parse clock line w
  = ((kind, location, page,
      match Date_parse date with
      | Some t => DateValue t
      | None => InvalidDate
      end), S w).
Proof.
  intros Hk Hml Hgl Hp Hmd Hgd.
  unfold parseMetadata, newDateNow, parseKindleDate, newDate.
  rewrite Hk, Hml, Hgl, Hp, Hmd, Hgd.
  by destruct (Date_parse date).
Qed.

End MetadataRoundTrip.

(** X14.  A metadata line as a Kindle writes it is read back field by field:
    for a kind, an optional page number, a location that is a number or a
    range, and a date text without line terminator that holds no kind name
    and no "page ", [parseMetadata] returns that kind, that location, that
    page and the date that the engine makes of exactly that date text, and
    reads the clock once. *)
Theorem parseMetadata_round_trip
  (Date_parse : jsstring -> option Z) (clock : nat -> Z)
  (kind : NoteType) (page : option jsstring) (location date : jsstring)
  (w : nat) :
  (forall pg, page = Some pg -> digitRun pg) ->
  locationToken location -> plainDate date ->
  parseMetadata Date_parse clock (metadataLineOf kind page location date) w
  = ((kind, location, page,
      match Date_parse date with
      | Some t => DateValue t
      | None => InvalidDate
      end), S w).
Proof.
  intros Hpage Hloc (Hne & Hdot & HnoH & HnoB & HnoN & Hnop).
  destruct (metadataLineOf_location kind page location date Hpage Hloc)
    as (ml & Hml & Hgl).
  destruct (metadataLineOf_date kind page location date Hpage Hloc Hne Hdot)
    as (md & Hmd & Hgd).
  eapply parseMetadata_searches; eauto.
  - by apply metadataLineOf_kind.
  - by apply metadataLineOf_page.
Qed.

Lemma parseMetadata_round_trip_witness :
  parseMetadata exampleDateParse exampleClock
    (js "- Your Highlight on page 12 | Location 150-152 | Added on Monday, January 1, 2024 12:00:00 PM") 0
  = ((Highlight, js "150-152", Some (js "12"),
      match exampleDateParse (js "Monday, January 1, 2024 12:00:00 PM") with
      | Some t => DateValue t
      | None => InvalidDate
      end), 1%nat).
Proof.
  apply (parseMetadata_round_trip exampleDateParse exampleClock Highlight
           (Some (js "12")) (js "150-152")
           (js "Monday, January 1, 2024 12:00:00 PM") 0).
  - intros pg [= <-]. split; [|done]. repeat constructor.
  - exists (js "150"). split; [split; [repeat constructor|done]|].
    right. exists (js "152"). split; [split; [repeat constructor|done]|done].
  - split_and!; [done|repeat constructor| | | |];
      rewrite <- includes_Occurs; by vm_compute.
Defined.

(** ** A clippings file read back *)

Section SplitExact.

Lemma stripPrefix_length p : forall s rest,
  Str.stripPrefix p s = Some rest -> length s = (length p + length rest)%nat.
Proof. intros s rest H. apply stripPrefix_Some in H as ->. apply length_app. Qed.

Lemma splitLoop_fuel sep : sep <> [] -> forall f1 f2 cur s,
  (length s < f1)%nat -> (length s < f2)%nat ->
  Str.splitLoop f1 sep cur s = Str.splitLoop f2 sep cur s.
Proof.
  intros Hsep. induction f1 as [|f1 IH]; intros f2 cur s H1 H2; [lia|].
  destruct f2 as [|f2]; [lia|]. simpl. destruct s as [|c t]; [done|].
  destruct (Str.stripPrefix sep (c :: t)) as [rest|] eqn:Hp.
  - f_equal. apply stripPrefix_length in Hp.
    assert (0 < length sep)%nat by (destruct sep; [done|simpl; lia]).
    apply IH; simpl in *; lia.
  - apply IH; simpl in *; lia.
Qed.

Lemma splitLoop_piece sep rest : sep <> [] -> forall p cur fuel,
  (length (p ++ sep ++ rest) < fuel)%nat ->
  (forall a b, p = a ++ b -> b <> [] ->
     Str.stripPrefix sep (b ++ sep ++ rest) = None) ->
  Str.splitLoop fuel sep cur (p ++ sep ++ rest)
  = (rev cur ++ p) :: Str.splitLoop (S (length rest)) sep [] rest.
Proof.
  intros Hsep. induction p as [|x p IH]; intros cur fuel Hfuel Hfirst.
  - destruct fuel as [|fuel]; [lia|]. simpl app at 1. rewrite app_nil_r.
    assert (Hs : Str.stripPrefix sep (sep ++ rest) = Some rest)
      by by apply stripPrefix_Some.
    simpl in Hfuel. rewrite length_app in Hfuel.
    destruct (sep ++ rest) as [|c t] eqn:Hst.
    { destruct sep; [done|discriminate]. }
    remember (Str.splitLoop (S (length rest)) sep [] rest) as R.
    cbn [Str.splitLoop]. rewrite Hs. f_equal. subst R.
    apply splitLoop_fuel; [done| |lia].
    assert (0 < length sep)%nat by (destruct sep; [done|simpl; lia]). lia.
  - destruct fuel as [|fuel]; [simpl in Hfuel; lia|].
    change ((x :: p) ++ sep ++ rest) with (x :: (p ++ sep ++ rest)).
    remember (Str.splitLoop (S (length rest)) sep [] rest) as R.
    cbn [Str.splitLoop].
    change (x :: p ++ sep ++ rest) with ((x :: p) ++ sep ++ rest).
    rewrite (Hfirst [] (x :: p) eq_refl) by done.
    rewrite IH; subst R.
    + simpl. by rewrite <- app_assoc.
    + simpl in Hfuel. lia.
    + intros a b -> Hb. by apply (Hfirst (x :: a) b).
Qed.

Lemma split_piece sep p rest :
  sep <> [] ->
  (forall a b, p = a ++ b -> b <> [] ->
     Str.stripPrefix sep (b ++ sep ++ rest) = None) ->
  Str.split sep (p ++ sep ++ rest) = p :: Str.split sep rest.
Proof.
  intros Hsep Hfirst.
  assert (Hsplit : forall s, Str.split sep s = Str.splitLoop (S (length s)) sep [] s).
  { intros s. unfold Str.split. by destruct sep. }
  rewrite !Hsplit. rewrite splitLoop_piece; [done|done|lia|done].
Qed.

Lemma splitLoop_last sep : forall p cur fuel,
  (forall a b, p = a ++ b -> b <> [] -> Str.stripPrefix sep b = None) ->
  Str.splitLoop fuel sep cur p = [rev cur ++ p].
Proof.
  induction p as [|x p IH]; intros cur fuel Hfirst.
  - destruct fuel; simpl; by rewrite ?app_nil_r.
  - destruct fuel as [|fuel]; [done|]. cbn [Str.splitLoop].
    rewrite (Hfirst [] (x :: p) eq_refl) by done.
    rewrite IH.
    + simpl. by rewrite <- app_assoc.
    + intros a b -> Hb. by apply (Hfirst (x :: a) b).
Qed.

Lemma split_last sep p :
  sep <> [] ->
  (forall a b, p = a ++ b -> b <> [] -> Str.stripPrefix sep b = None) ->
  Str.split sep p = [p].
Proof.
  intros Hsep Hfirst. unfold Str.split. destruct sep as [|c sep']; [done|].
  by rewrite splitLoop_last.
Qed.

End SplitExact.

Section FileFacts.

Lemma stripPrefix_char_miss c b rest :
  match b with [] => False | x :: _ => x <> c end ->
  Str.stripPrefix [c] (b ++ rest) = None.
Proof.
  destruct b as [|x b]; [done|]. intros Hx. simpl.
  destruct (c =? x) eqn:E; [|done]. apply N.eqb_eq in E. by subst.
Qed.

Lemma suffix_head_notin (c : N) p a b :
  c ∉ p -> p = a ++ b -> b <> [] ->
  match b with [] => False | x :: _ => x <> c end.
Proof.
  intros Hc -> Hb. destruct b as [|x b]; [done|]. intros ->. apply Hc.
  apply elem_of_app. right. by left.
Qed.

(** The lines of a text whose lines are joined by a line break. *)
Lemma entryLines_join cr : forall ls,
  Forall (fun c => Char.isSpace c = true) cr -> 10 ∉ cr ->
  ls <> [] -> Forall (fun l => 10 ∉ l) ls ->
  entryLines (Str.join (cr ++ [10]) ls)
  = List.filter (fun line => negb (bool_decide (line = []))) (List.map Str.trim ls).
Proof.
  intros ls Hcr Hcr10 Hne Hls. unfold entryLines.
  change (js (String "010" EmptyString)) with [10].
  induction Hls as [|l ls Hl Hls IH]; [done|].
  destruct ls as [|l2 ls].
  - cbn [Str.join]. rewrite split_last; [done|done|].
    intros a b Hab Hb. rewrite <- (app_nil_r b).
    apply stripPrefix_char_miss. by eapply suffix_head_notin.
  - rewrite join_cons by done.
    replace (l ++ (cr ++ [10]) ++ Str.join (cr ++ [10]) (l2 :: ls))
      with ((l ++ cr) ++ [10] ++ Str.join (cr ++ [10]) (l2 :: ls))
      by (by rewrite <- !app_assoc).
    rewrite split_piece; [|done|].
    + cbn [List.map List.filter]. rewrite (trim_app_spaces l cr Hcr).
      by rewrite IH.
    + intros a b Hab Hb. apply stripPrefix_char_miss.
      eapply suffix_head_notin; [|exact Hab|done].
      rewrite not_elem_of_app. done.
Qed.

Lemma Occurs_nil_delimiter : ~ Occurs delimiter [].
Proof. intros (x & y & H). by destruct x. Qed.

Lemma delimiter_chars c : c ∈ delimiter -> c = 61.
Proof.
  intros H. unfold delimiter in H.
  repeat (apply elem_of_cons in H as [->|H]; [done|]). by apply elem_of_nil in H.
Qed.

(** Two texts without delimiter, with a character other than [=] between
    them, hold no delimiter. *)
Lemma delimiter_glue a c b :
  ~ Occurs delimiter a -> ~ Occurs delimiter b -> c <> 61 ->
  ~ Occurs delimiter (a ++ c :: b).
Proof.
  intros Ha Hb Hc (x & y & H).
  apply app_eq_inv in H as [(k & Hx & Hk)|(k & Hx & Hk)].
  - apply app_eq_inv in Hk as [(k2 & Hd & Hcb)|(k2 & Hk2 & Hy)].
    + destruct k2 as [|c2 k2]; simpl in Hcb.
      * apply Ha. exists x, []. rewrite Hx. rewrite app_nil_r in Hd.
        by rewrite Hd, app_nil_r.
      * inversion Hcb; subst c2. apply Hc, delimiter_chars. rewrite Hd.
        apply elem_of_app. right. by left.
    + apply Ha. exists x, k2. by rewrite Hx, Hk2.
  - destruct k as [|c' k]; simpl in Hk.
    + inversion Hk. by subst c.
    + inversion Hk; subst. apply Hb. by exists k, y.
Qed.

Lemma delimiter_glue_block a block b :
  ~ Occurs delimiter a -> ~ Occurs delimiter b ->
  block <> [] -> 61 ∉ block ->
  ~ Occurs delimiter (a ++ block ++ b).
Proof.
  revert a. induction block as [|c block IH]; intros a Ha Hb Hne H61; [done|].
  apply not_elem_of_cons in H61 as [Hc H61].
  destruct block as [|c2 block].
  - by apply delimiter_glue.
  - change ((c :: c2 :: block) ++ b) with (c :: ((c2 :: block) ++ b)).
    apply delimiter_glue; [done| |done].
    apply (IH []); [apply Occurs_nil_delimiter|done|done|done].
Qed.

Lemma delimiter_block_before block b :
  ~ Occurs delimiter b -> 61 ∉ block -> ~ Occurs delimiter (block ++ b).
Proof.
  intros Hb H61. destruct block as [|c block]; [done|].
  apply (delimiter_glue_block [] (c :: block) b);
    [apply Occurs_nil_delimiter|done|done|done].
Qed.

Lemma delimiter_join eol : forall ls,
  eol <> [] -> 61 ∉ eol -> Forall (fun l => ~ Occurs delimiter l) ls ->
  ~ Occurs delimiter (Str.join eol ls).
Proof.
  intros ls Hne H61 Hls. induction Hls as [|l ls Hl Hls IH].
  - apply Occurs_nil_delimiter.
  - destruct ls as [|l2 ls]; [done|]. rewrite join_cons by done.
    by apply delimiter_glue_block.
Qed.

(** In a text without delimiter that ends with a line feed, no delimiter
    starts, whatever follows. *)
Lemma delimiter_first_at p rest a b :
  ~ Occurs delimiter p -> last p = Some 10 -> p = a ++ b -> b <> [] ->
  Str.stripPrefix delimiter (b ++ delimiter ++ rest) = None.
Proof.
  intros Hfree Hlast -> Hb.
  destruct (Str.stripPrefix _ _) as [r|] eqn:Hs; [exfalso|done].
  apply stripPrefix_Some in Hs.
  assert (Hlb : last b = Some 10).
  { rewrite last_app in Hlast. destruct (last b) eqn:E; [done|].
    by apply last_None in E. }
  destruct (decide (length b <= 10)%nat) as [Hle|Hgt].
  - assert (Hi : (b ++ delimiter ++ rest) !! (length b - 1)%nat = Some 10).
    { rewrite lookup_app_l by (destruct b; [done|simpl; lia]).
      rewrite last_lookup in Hlb. by replace (length b - 1)%nat with (pred (length b)) by lia. }
    rewrite Hs in Hi. rewrite lookup_app_l in Hi
      by (destruct b; [done|simpl in *; lia]).
    apply list_elem_of_lookup_2, delimiter_chars in Hi. done.
  - apply Hfree. exists a, (drop 10 b).
    f_equal. rewrite <- (take_drop 10 b) at 1. f_equal.
    assert (Ht : take 10 (b ++ delimiter ++ rest) = take 10 (delimiter ++ r))
      by by rewrite Hs.
    rewrite take_app_le in Ht by lia.
    by rewrite (take_app_length' delimiter r 10) in Ht.
Qed.

End FileFacts.

Section ClippingFacts.

Variable Date_parse : jsstring -> option Z.
Variable clock : nat -> Z.

Lemma lineBreak_shape eol :
  lineBreak eol ->
  exists cr, eol = cr ++ [10] /\ Forall (fun c => Char.isSpace c = true) cr /\
             (10 ∉ cr) /\ (61 ∉ eol) /\ Forall (fun c => Char.isSpace c = true) eol /\
             eol <> [] /\ last eol = Some 10.
Proof.
  intros [->| ->]; [exists []|exists [13]];
    split_and!; try done; try (by apply (bool_decide_unpack _));
    by repeat constructor.
Qed.

Lemma Trimmed_sandwich a mid b :
  a <> [] -> noLeadingSpace a -> b <> [] -> noLeadingSpace (rev b) ->
  Trimmed (a ++ mid ++ b).
Proof.
  intros Ha Hsa Hb Hsb. apply Trimmed_iff. split.
  - by apply noLeadingSpace_app.
  - rewrite !rev_app_distr, <- app_assoc. apply noLeadingSpace_app; [|done].
    intros H. apply Hb. by rewrite <- (rev_involutive b), H.
Qed.

Lemma trim_sandwich pre t post :
  Forall (fun c => Char.isSpace c = true) pre ->
  Forall (fun c => Char.isSpace c = true) post ->
  Trimmed t -> Str.trim (pre ++ t ++ post) = t.
Proof.
  intros Hpre Hpost Ht. unfold Str.trim. rewrite trimStart_spaces_app by done.
  change (Str.trimEnd (Str.trimStart (t ++ post))) with (Str.trim (t ++ post)).
  by rewrite trim_app_spaces.
Qed.

Lemma join_first_last eol : forall mid x y,
  exists m, Str.join eol (x :: mid ++ [y]) = x ++ m ++ y.
Proof.
  induction mid as [|l mid IH]; intros x y.
  - by exists eol.
  - destruct (IH l y) as [m Hm]. exists (eol ++ l ++ m).
    change (x :: (l :: mid) ++ [y]) with (x :: l :: mid ++ [y]).
    rewrite join_cons by done. rewrite Hm. by rewrite <- !app_assoc.
Qed.

Lemma lines_read_back ls :
  Forall (fun l => l <> [] /\ Trimmed l) ls ->
  List.filter (fun line => negb (bool_decide (line = []))) (List.map Str.trim ls)
  = ls.
Proof.
  induction 1 as [|l ls [Hne Ht] _ IH]; [done|]. simpl. rewrite Ht.
  rewrite bool_decide_eq_false_2 by done. simpl. by rewrite IH.
Qed.

Lemma titleLineOf_facts c :
  writable c ->
  titleLineOf c <> [] /\ Trimmed (titleLineOf c) /\ inLine (titleLineOf c).
Proof.
  intros ((Ht & Htrim & Hdot & Hparen) & (Ha & Hatrim & Haparen) & _ & _ & _ & _
          & _ & Hin & _).
  inversion Hin as [|?? [Ht10 HtD] Hin']; subst.
  inversion Hin' as [|?? [Ha10 HaD] _]; subst.
  apply Trimmed_iff in Htrim as [Hs _].
  unfold titleLineOf. split_and!.
  - by destruct (c_title c).
  - change (c_title c ++ js " (" ++ c_author c ++ js ")")
      with (c_title c ++ (js " (" ++ c_author c) ++ js ")").
    by apply Trimmed_sandwich.
  - split.
    + rewrite !not_elem_of_app. split_and!; try done;
        by apply (bool_decide_unpack _).
    + apply delimiter_glue_block; [done| |done|by apply (bool_decide_unpack _)].
      change (c_author c ++ js ")") with (c_author c ++ 41 :: []).
      apply delimiter_glue; [done|apply Occurs_nil_delimiter|done].
Qed.

Lemma pagePart_notin_more page c :
  (forall pg, page = Some pg -> digitRun pg) -> c ∈ [61; 10] ->
  c ∉ match page with
      | Some pg => js "page " ++ pg ++ js " | "
      | None => []
      end.
Proof.
  intros Hpage Hc. destruct page as [pg|]; [|apply not_elem_of_nil].
  destruct (Hpage pg eq_refl) as [Hpg _].
  repeat (apply elem_of_cons in Hc as [->|Hc]); [..|by apply elem_of_nil in Hc];
    rewrite !not_elem_of_app; split_and!;
    first [by apply (bool_decide_unpack _) | by apply notin_digits].
Qed.

Lemma metadata_prefix_notin kind page location c :
  (forall pg, page = Some pg -> digitRun pg) -> locationToken location ->
  c ∈ [61; 10] ->
  c ∉ (js "- Your " ++ NoteType_toString kind ++ js " on ") ++
      match page with
      | Some pg => js "page " ++ pg ++ js " | "
      | None => []
      end ++ js "Location " ++ location ++ js " | ".
Proof.
  intros Hpage Hloc Hc.
  rewrite not_elem_of_app. split.
  { repeat (apply elem_of_cons in Hc as [->|Hc]); [..|by apply elem_of_nil in Hc];
      destruct kind; by apply (bool_decide_unpack _). }
  rewrite not_elem_of_app. split; [by apply pagePart_notin_more|].
  rewrite !not_elem_of_app.
  repeat (apply elem_of_cons in Hc as [->|Hc]); [..|by apply elem_of_nil in Hc];
    split_and!; first [by apply (bool_decide_unpack _) | by apply notin_token].
Qed.

Lemma metadataLineOf_facts c :
  writable c ->
  let line := metadataLineOf (c_kind c) (c_page c) (c_location c) (c_date c) in
  line <> [] /\ Trimmed line /\ inLine line.
Proof.
  intros (_ & _ & Hpage & Hloc & (Hne & Hdot & _) & Hdtrim & _ & Hin & _).
  inversion Hin as [|?? _ Hin']; subst.
  inversion Hin' as [|?? _ Hin'']; subst.
  inversion Hin'' as [|?? [Hd10 HdD] _]; subst.
  apply Trimmed_iff in Hdtrim as [_ Hs]. cbn zeta. split_and!.
  - done.
  - rewrite metadataLineOf_split.
    assert (Hpre : exists rest,
      (js "- Your " ++ NoteType_toString (c_kind c) ++ js " on ") ++
      match c_page c with
      | Some pg => js "page " ++ pg ++ js " | "
      | None => []
      end ++ js "Location " ++ c_location c ++ js " | " = 45 :: rest)
      by (eexists; reflexivity).
    destruct Hpre as [rest ->]. by apply Trimmed_sandwich.
  - rewrite metadataLineOf_split. split.
    + rewrite not_elem_of_app. split.
      * apply metadata_prefix_notin; [done|done|by apply (bool_decide_unpack _)].
      * rewrite not_elem_of_app. split; [by apply (bool_decide_unpack _)|done].
    + apply delimiter_block_before.
      * apply delimiter_block_before; [done|by apply (bool_decide_unpack _)].
      * apply metadata_prefix_notin; [done|done|by apply (bool_decide_unpack _)].
Qed.

Lemma clippingLines_inLine c :
  writable c -> Forall inLine (clippingLines c).
Proof.
  intros Hw.
  destruct (titleLineOf_facts c Hw) as (_ & _ & Ht).
  destruct (metadataLineOf_facts c Hw) as (_ & _ & Hm).
  destruct Hw as (_ & _ & _ & _ & _ & _ & _ & Hin & _).
  do 3 (apply Forall_cons in Hin as [_ Hin]).
  unfold clippingLines. do 2 (constructor; [done|]).
  destruct (c_lines c); [done|]. constructor; [|done].
  split; [apply not_elem_of_nil|apply Occurs_nil_delimiter].
Qed.

Lemma clippingLines_read_back c :
  writable c ->
  List.filter (fun line => negb (bool_decide (line = [])))
    (List.map Str.trim (clippingLines c))
  = titleLineOf c ::
    metadataLineOf (c_kind c) (c_page c) (c_location c) (c_date c) :: c_lines c.
Proof.
  intros Hw.
  destruct (titleLineOf_facts c Hw) as (Ht & Htt & _).
  destruct (metadataLineOf_facts c Hw) as (Hm & Hmt & _).
  destruct Hw as (_ & _ & _ & _ & _ & _ & Hls & _).
  unfold clippingLines. cbn [List.map List.filter]. rewrite Htt, Hmt.
  rewrite !bool_decide_eq_false_2 by done. cbn [negb]. do 2 f_equal.
  destruct (c_lines c) as [|l ls] eqn:E; [done|].
  change (List.map Str.trim ([] :: l :: ls))
    with (Str.trim [] :: List.map Str.trim (l :: ls)).
  cbn [List.filter]. change (Str.trim []) with (@nil N).
  rewrite bool_decide_eq_true_2 by done. cbn [negb].
  by apply lines_read_back.
Qed.

Lemma clippingLines_Trimmed eol c :
  writable c ->
  Str.join eol (clippingLines c) <> [] /\ Trimmed (Str.join eol (clippingLines c)).
Proof.
  intros Hw.
  destruct (titleLineOf_facts c Hw) as (Ht & Htt & _).
  destruct (metadataLineOf_facts c Hw) as (Hm & Hmt & _).
  assert (Hlast : exists mid y, clippingLines c = titleLineOf c :: mid ++ [y] /\
                    y <> [] /\ Trimmed y).
  { destruct Hw as (_ & _ & _ & _ & _ & _ & Hls & _). unfold clippingLines.
    destruct (c_lines c) as [|l ls] eqn:E.
    - by exists [], (metadataLineOf (c_kind c) (c_page c) (c_location c) (c_date c)).
    - destruct (exists_last (l := l :: ls)) as (ls' & y & Hy); [done|].
      rewrite Hy in Hls |- *. apply Forall_app in Hls as [_ Hy'].
      inversion Hy' as [|?? [Hne Hty] _]; subst.
      by exists (metadataLineOf (c_kind c) (c_page c) (c_location c) (c_date c)
                 :: [] :: ls'), y. }
  destruct Hlast as (mid & y & -> & Hy & Hty).
  destruct (join_first_last eol mid (titleLineOf c) y) as [m ->].
  apply Trimmed_iff in Htt as [Hs1 _]. apply Trimmed_iff in Hty as [_ Hs2].
  split; [by destruct (titleLineOf c)|by apply Trimmed_sandwich].
Qed.

Lemma parseEntry_clipping eol c w :
  lineBreak eol -> writable c ->
  parseEntry Date_parse clock (Str.join eol (clippingLines c)) w
  = (Some (recordOf Date_parse c), S w).
Proof.
  intros Heol Hw.
  destruct (lineBreak_shape eol Heol) as (cr & -> & Hcr & Hcr10 & _).
  unfold parseEntry.
  rewrite entryLines_join; [|done|done|done|].
  2:{ eapply Forall_impl; [by apply clippingLines_inLine|]. by intros l [? _]. }
  rewrite clippingLines_read_back by done.
  destruct (titleLineOf_facts c Hw) as (Ht & Htt & _).
  destruct Hw as ((Hne & Htrim & Hdot & Hparen) & (Ha & Hatrim & Haparen) & Hpage
                  & Hloc & (Hdne & Hddot & HnoH & HnoB & HnoN & Hnop) & _).
  assert (Hta : parseTitleAuthor (titleLineOf c) = (c_title c, c_author c)).
  { rewrite (parseTitleAuthor_shape (titleLineOf c) (c_title c) (js " ") (c_author c)).
    - by rewrite Htrim, Hatrim.
    - split_and!; try done; [by repeat constructor|].
      apply Forall_forall. by intros x Hx ->.
    - done.
    - by apply stripBOM_Trimmed. }
  rewrite Hta.
  destruct (metadataLineOf_location (c_kind c) (c_page c) (c_location c) (c_date c)
              Hpage Hloc) as (ml & Hml & Hgl).
  destruct (metadataLineOf_date (c_kind c) (c_page c) (c_location c) (c_date c)
              Hpage Hloc Hdne Hddot) as (md & Hmd & Hgd).
  rewrite (parseMetadata_searches Date_parse clock _ w (c_kind c) (c_location c)
             (c_page c) (c_date c) ml md);
    [done|by apply metadataLineOf_kind|done|done|by apply metadataLineOf_page
    |done|done].
Qed.

Lemma addNote_own note p :
  bookTitle note ∉ Object_prototype_keys -> (addNote note p).2 = Normal tt.
Proof.
  intros H. rewrite addNote_eq. destruct (books p !! bookTitle note); [done|].
  by rewrite bool_decide_eq_false_2.
Qed.

Lemma parseFileStep_clipping eol pre c p w :
  lineBreak eol -> writable c -> pre = [] \/ pre = eol ->
  parseFileStep Date_parse clock (pre ++ Str.join eol (clippingLines c) ++ eol) p w
  = ((addNote (recordOf Date_parse c) p).1, S w, Normal tt).
Proof.
  intros Heol Hw Hpre.
  destruct (lineBreak_shape eol Heol) as (cr & _ & _ & _ & _ & Hsp & _).
  destruct (clippingLines_Trimmed eol c Hw) as [Hne Ht].
  unfold parseFileStep. rewrite trim_sandwich; [|by destruct Hpre as [->| ->]|done|done].
  destruct (Str.join eol (clippingLines c)) as [|x t] eqn:E; [done|].
  rewrite <- E, parseEntry_clipping by done.
  pose proof (addNote_own (recordOf Date_parse c) p) as Hadd.
  destruct (addNote (recordOf Date_parse c) p) as [p1 r]. simpl in *.
  rewrite Hadd; [done|]. by destruct Hw as (_ & _ & _ & _ & _ & _ & _ & _ & ?).
Qed.

Lemma forEachEntry_clippings eol : lineBreak eol -> forall cs,
  Forall writable cs -> forall pre p w,
  pre = [] \/ pre = eol ->
  exists p',
    forEachEntry Date_parse clock
      (Str.split delimiter (pre ++ clippingsFile eol cs)) p w
    = (p', (w + length cs)%nat, Normal tt) /\
    notes p' = notes p ++ List.map (recordOf Date_parse) cs.
Proof.
  intros Heol.
  destruct (lineBreak_shape eol Heol) as (cr & Hcr & _ & _ & H61 & Hsp & Hne & Hlast).
  induction 1 as [|c cs Hw Hcs IH]; intros pre p w Hpre.
  - exists p. unfold clippingsFile. cbn [List.map concat]. rewrite !app_nil_r.
    rewrite split_last; [|done|].
    + cbn [forEachEntry]. unfold parseFileStep.
      assert (Ht : Str.trim pre = []).
      { destruct Hpre as [->| ->]; [done|].
        by rewrite <- (app_nil_l eol), trim_app_spaces. }
      rewrite Ht. cbn [length]. by rewrite Nat.add_0_r.
    + intros a b Hab Hb.
      assert (Hx : match b with [] => False | x :: _ => x <> 61 end).
      { apply (suffix_head_notin 61 pre a b); [|done|done].
        destruct Hpre as [->| ->]; [apply not_elem_of_nil|done]. }
      destruct b as [|x b]; [done|].
      change delimiter with (61 :: js "=========").
      cbn [Str.stripPrefix]. by rewrite (proj2 (N.eqb_neq 61 x)) by congruence.
  - unfold clippingsFile. cbn [List.map concat]. fold (clippingsFile eol cs).
    unfold clippingText.
    replace (pre ++ (Str.join eol (clippingLines c) ++ eol ++ delimiter ++ eol)
             ++ clippingsFile eol cs)
      with ((pre ++ Str.join eol (clippingLines c) ++ eol) ++ delimiter ++
            (eol ++ clippingsFile eol cs)) by (by rewrite <- !app_assoc).
    rewrite split_piece; [|done|].
    + cbn [forEachEntry]. rewrite parseFileStep_clipping by done.
      destruct (IH eol (addNote (recordOf Date_parse c) p).1 (S w)) as (p' & Hp' & Hn);
        [by right|].
      exists p'. rewrite Hp'. split.
      * f_equal. f_equal. simpl. lia.
      * rewrite Hn, addNote_notes. by rewrite <- app_assoc.
    + intros a b. apply delimiter_first_at.
      * apply delimiter_block_before;
          [|destruct Hpre as [->| ->]; [apply not_elem_of_nil|done]].
        replace (Str.join eol (clippingLines c) ++ eol)
          with (Str.join eol (clippingLines c) ++ eol ++ [])
          by (by rewrite app_nil_r).
        apply delimiter_glue_block; [|apply Occurs_nil_delimiter|done|done].
        apply delimiter_join; [done|done|].
        eapply Forall_impl; [by apply clippingLines_inLine|]. by intros l [_ ?].
      * rewrite !last_app, Hlast. done.
Qed.

End ClippingFacts.

(** X15.  A clippings file is read back.  For every list of clippings whose
    fields fit the format (a title without opening parenthesis that is not
    the name of an inherited property, an author without closing
    parenthesis, a numeric page and location, a date text and content lines
    without line feed, delimiter or white space at the ends), written with
    LF or CR LF, [parseFile] returns, reads the clock once per clipping and
    leaves exactly one record per clipping, in order, with the fields of the
    clipping, the content lines joined by line feeds; and the groups of
    [books] are these records by title. *)
Theorem parseFile_round_trip
  (Date_parse : jsstring -> option Z) (clock : nat -> Z)
  (eol : jsstring) (cs : list Clipping) (w : nat) :
  lineBreak eol -> Forall writable cs ->
  exists p,
    parseFile Date_parse clock (clippingsFile eol cs) w
    = (p, (w + length cs)%nat, Normal tt) /\
    notes p = List.map (recordOf Date_parse) cs /\
    forall title,
      books p !! title
      = match groupOf title (List.map (recordOf Date_parse) cs) with
        | [] => None
        | g => Some g
        end.
Proof.
  intros Heol Hcs.
  destruct (forEachEntry_clippings Date_parse clock eol Heol cs Hcs []
              (mkParser [] ∅) w) as (p & Hp & Hn); [by left|].
  cbn [notes app] in Hn. exists p. split_and!; [done|done|].
  destruct (parseFile_grouped _ _ _ _ _ _ Hp) as [Hg _].
  intros title. rewrite <- Hn. apply Hg.
Qed.

Lemma parseFile_round_trip_witness :
  exists p,
    parseFile exampleDateParse exampleClock
      (clippingsFile [13; 10]
         [mkClipping (js "Deep Work") (js "Cal Newport") Highlight
            (Some (js "12")) (js "150-152")
            (js "Monday, January 1, 2024 12:00:00 PM")
            [js "Focus is the new IQ."; js "E = mc^2"];
          mkClipping (js "Deep Work") (js "Cal Newport") Bookmark
            None (js "300") (js "Monday, January 1, 2024 1:00:00 PM") []]) 0
    = (p, 2%nat, Normal tt) /\
    List.map content (notes p)
    = [js ("Focus is the new IQ." ++ nl ++ "E = mc^2"); []].
Proof.
  destruct (parseFile_round_trip exampleDateParse exampleClock [13; 10]
    [mkClipping (js "Deep Work") (js "Cal Newport") Highlight
       (Some (js "12")) (js "150-152")
       (js "Monday, January 1, 2024 12:00:00 PM")
       [js "Focus is the new IQ."; js "E = mc^2"];
     mkClipping (js "Deep Work") (js "Cal Newport") Bookmark
       None (js "300") (js "Monday, January 1, 2024 1:00:00 PM") []] 0)
    as (p & Hp & Hn & _).
  - by right.
  - unfold writable, plainTitle, plainAuthor, plainDate, inLine, digitRun.
    repeat match goal with
    | |- _ /\ _ => split
    | |- _ => progress cbn [c_title c_author c_kind c_page c_location c_date c_lines]
    | |- Forall _ (js _) => by apply (bool_decide_unpack _)
    | |- Forall _ (_ :: _) => constructor
    | |- Forall _ [] => constructor
    | |- forall pg, Some _ = Some pg -> _ => intros ? [= <-]
    | |- forall pg, None = Some pg -> _ => intros ? [=]
    | |- ~ Occurs _ _ => rewrite <- includes_Occurs; by vm_compute
    | |- _ ∉ _ => by apply (bool_decide_unpack _)
    | |- Trimmed _ => by vm_compute
    | |- _ <> _ => done
    | |- Digit _ => reflexivity
    | |- _ = _ => reflexivity
    end.
    + exists (js "150"). split; [split; [repeat constructor|done]|].
      right. exists (js "152"). split; [split; [repeat constructor|done]|done].
    + exists (js "300"). split; [split; [repeat constructor|done]|by left].
  - exists p. split; [done|]. by rewrite Hn.
Defined.

(** ** Validating the content *)

Section ValidationFacts.
Import Re ReSpec.

Lemma matchAt_litN w n bef rest :
  is_Some (matchAt false (litN w) n bef (w ++ rest)).
Proof. unfold matchAt. rewrite rmatch_litN. by eexists. Qed.

Lemma exec_separators content :
  is_Some (RegExpOps.exec ContentPat.separators content) <->
  Occurs delimiter content.
Proof.
  unfold RegExpOps.exec. cbn [re_ignoreCase re_pattern re_groups ContentPat.separators].
  split.
  - intros [m Hm]. apply (execFrom_Occurs _ _ _ _ _ delimiter) in Hm; [done|].
    intros bef aft Hst HM. rewrite Hst in HM.
    apply Matches_litN_elim in HM as [[HA _] _]. unfold start in HA.
    cbn [after] in HA. eexists. exact HA.
  - intros (pre & post & ->).
    apply (execFrom_complete _ _ _ (delimiter ++ post) pre []).
    apply (matchAt_litN delimiter).
Qed.

Lemma matchAll_separators content :
  match matchAll ContentPat.separators content with
  | None => true
  | Some ms => (length ms =? 0)%nat
  end = negb (Str.includes delimiter content).
Proof.
  unfold matchAll. cbn [matchAllLoop].
  pose proof (exec_separators content) as Hex. unfold RegExpOps.exec in Hex.
  destruct (execFrom _ _ _ [] content) as [m|] eqn:Hm.
  - rewrite (proj2 (includes_Occurs _ _)) by (apply Hex; by eexists).
    destruct (_ =? _)%nat; [by destruct (after (m_end m))|done].
  - destruct (Str.includes delimiter content) eqn:Hi; [|done].
    apply includes_Occurs, Hex in Hi as [? ?]. done.
Qed.

Lemma split_two_pieces sep content :
  sep <> [] -> Occurs sep content -> (2 <= length (Str.split sep content))%nat.
Proof.
  intros Hsep Ho.
  assert (Hsplit : Str.split sep content
                   = Str.splitLoop (S (length content)) sep [] content).
  { unfold Str.split. by destruct sep. }
  pose proof (splitLoop_join sep Hsep (S (length content)) content []
                ltac:(lia)) as Hj.
  pose proof (splitLoop_free sep Hsep (S (length content)) content []
                ltac:(lia)) as Hf.
  rewrite Hsplit.
  destruct (Str.splitLoop _ sep [] content) as [|p [|q l]] eqn:E; [| |simpl; lia].
  - by apply splitLoop_nonempty in E.
  - exfalso. simpl in Hj. subst p.
    assert (Hno : noStart sep [] content).
    { intros pre post Hrev Hpost. by destruct pre, post. }
    apply Hf in Hno. by inversion Hno.
Qed.

Lemma nonblank_lines_piece x rest :
  10 ∉ x ->
  List.filter (fun line => (0 <? length (Str.trim line))%nat)
    (Str.split [10] (x ++ [10] ++ rest))
  = (if (0 <? length (Str.trim x))%nat then [x] else []) ++
    List.filter (fun line => (0 <? length (Str.trim line))%nat)
      (Str.split [10] rest).
Proof.
  intros Hx. rewrite split_piece; [|done|].
  - cbn [List.filter]. by destruct (0 <? _)%nat.
  - intros a b Hab Hb. apply stripPrefix_char_miss.
    by eapply suffix_head_notin.
Qed.

Lemma Matches_litN_any ic w : forall bef rest cs,
  Matches ic (litN w) (mkMState bef (w ++ rest) cs)
    (mkMState (rev w ++ bef) rest cs).
Proof.
  induction w as [|c w IH]; intros bef rest cs; cbn [litN fold_right Matches].
  - done.
  - exists (mkMState (c :: bef) (w ++ rest) cs). split.
    + exists c, (w ++ rest). done.
    + simpl. rewrite <- app_assoc. apply IH.
Qed.

Lemma test_locationNumber content :
  numberAfter "Location " content -> test ContentPat.locationNumber content = true.
Proof.
  intros (d & Hd & pre & post & ->). unfold test, RegExpOps.exec.
  cbn [re_ignoreCase re_pattern re_groups ContentPat.locationNumber].
  destruct (execFrom_complete true (seq [lit "Location "; plus digit]) 0
              ((js "Location " ++ [d]) ++ post) pre []) as [m ->]; [|done].
  eapply (matchAt_complete _ _ _ _ _
            (mkMState (rev [d] ++ rev (js "Location ") ++ rev pre ++ []) post _)).
  cbn [seq Matches plus digit lit].
  eexists. split.
  { rewrite <- app_assoc. apply Matches_litN_any. }
  apply (Iter_set_intro true Char.isDigit _ _ post [d]); [by constructor|simpl; lia].
Qed.

Lemma Occurs_inside p s a b : Occurs p s -> Occurs p (a ++ s ++ b).
Proof.
  intros (x & y & ->). exists (a ++ x), (y ++ b). by rewrite <- !app_assoc.
Qed.

Lemma metadataLineOf_numberAfter kind page location date :
  (forall pg, page = Some pg -> digitRun pg) -> locationToken location ->
  numberAfter "Location " (metadataLineOf kind page location date).
Proof.
  intros Hpage Hloc.
  destruct (metadataLineOf_location kind page location date Hpage Hloc)
    as (m & Hm & Hg).
  apply exec_location_sound in Hm as [_ Ho]. rewrite Hg in Ho.
  destruct Hloc as (ds & [Hds Hne] & Hshape).
  destruct ds as [|d ds]; [done|]. apply Forall_cons in Hds as [Hd _].
  exists d. split; [done|].
  destruct Hshape as [->|(ds2 & _ & ->)].
  - apply (Occurs_cons_digit _ d ds []). by rewrite app_nil_r.
  - by apply (Occurs_cons_digit _ d ds (js "-" ++ ds2)).
Qed.

End ValidationFacts.

(** X16.  [validateContent] rejects every content in which the delimiter
    does not occur, whatever else it holds, and a content that it accepts,
    with or without warning, is not blank, has at least three lines that are
    not blank, and is split by [parseFile] into at least two pieces. *)
Theorem validateContent_needs_delimiter (content : jsstring) :
  (~ Occurs delimiter content ->
   exists error title, validateContent content = Invalid error title) /\
  (forall warning, validateContent content = Valid warning ->
     Str.trim content <> [] /\
     (2 <= length (Str.split (js "==========") content))%nat /\
     (3 <= length (List.filter (fun line => negb (bool_decide (Str.trim line = [])))
                     (Str.split (js nl) content)))%nat).
Proof.
  unfold validateContent. rewrite matchAll_separators.
  destruct (bool_decide (content = []) || (length (Str.trim content) =? 0)%nat)
    eqn:Hblank.
  { split; [by eexists _, _|done]. }
  apply orb_false_iff in Hblank as [_ Hblank]. apply Nat.eqb_neq in Hblank.
  destruct (Str.includes delimiter content) eqn:Ho; cbn [negb].
  2:{ split; [by eexists _, _|done]. }
  apply includes_Occurs in Ho.
  split; [done|].
  destruct (_ <? 3)%nat eqn:Hlines; [done|]. apply Nat.ltb_ge in Hlines.
  intros warning _. split_and!.
  - by destruct (Str.trim content).
  - by apply split_two_pieces.
  - erewrite filter_ext_eq; [exact Hlines|].
    intros line. cbn beta. destruct (Str.trim line); by simpl.
Qed.

(** X17.  [validateContent] accepts, without warning, every clippings file
    that holds at least one clipping and is written as [clippingsFile]
    writes it, with LF or CR LF. *)
Theorem validateContent_accepts_clippings
  (eol : jsstring) (cs : list Clipping) :
  lineBreak eol -> cs <> [] -> Forall writable cs ->
  validateContent (clippingsFile eol cs) = Valid None.
Proof.
  intros Heol Hne Hcs.
  destruct cs as [|c cs]; [done|]. clear Hne.
  apply Forall_cons in Hcs as [Hw _].
  destruct (lineBreak_shape eol Heol) as (cr & Hcr & Hsp & Hcr10 & _).
  destruct (titleLineOf_facts c Hw) as (Htne & Htt & [Ht10 _]).
  destruct (metadataLineOf_facts c Hw) as (Hmne & Hmt & [Hm10 _]).
  set (t := titleLineOf c) in *.
  set (m := metadataLineOf (c_kind c) (c_page c) (c_location c) (c_date c)) in *.
  set (rest := clippingsFile eol cs).
  (* the shape of the text *)
  assert (Hshape : exists x tail,
    clippingsFile eol (c :: cs)
    = (t ++ cr) ++ [10] ++ (m ++ cr) ++ [10] ++ (x ++ cr) ++ [10] ++ tail /\
    (10 ∉ x) /\ (x = [] \/ x <> [] /\ Trimmed x) /\
    (x = [] -> exists y tail', tail = (y ++ cr) ++ [10] ++ tail' /\
                 (10 ∉ y) /\ y <> [] /\ Trimmed y)).
  { unfold clippingsFile. cbn [List.map concat]. fold (clippingsFile eol cs).
    fold rest. unfold clippingText, clippingLines. fold t m.
    destruct Hw as (_ & _ & _ & _ & _ & _ & Hls & Hin & _).
    do 3 (apply Forall_cons in Hin as [_ Hin]).
    destruct (c_lines c) as [|l ls] eqn:E.
    - exists delimiter, rest. split_and!.
      + cbn [Str.join]. rewrite Hcr. by rewrite <- !app_assoc.
      + by apply (bool_decide_unpack _).
      + right. split; [done|]. by vm_compute.
      + done.
    - apply Forall_cons in Hls as [[Hl Hlt] _].
      apply Forall_cons in Hin as [[Hl10 _] _].
      exists [], (Str.join eol (l :: ls) ++ eol ++ delimiter ++ eol ++ rest).
      split_and!.
      + rewrite !join_cons by done. rewrite Hcr. by rewrite <- !app_assoc.
      + apply not_elem_of_nil.
      + by left.
      + intros _. exists l.
        destruct ls as [|l2 ls].
        * exists (delimiter ++ eol ++ rest). cbn [Str.join]. rewrite Hcr.
          split_and!; try done. by rewrite <- !app_assoc.
        * exists (Str.join eol (l2 :: ls) ++ eol ++ delimiter ++ eol ++ rest).
          rewrite join_cons by done. rewrite Hcr.
          split_and!; try done. by rewrite <- !app_assoc. }
  destruct Hshape as (x & tail & Htext & Hx10 & Hx & Hnext).
  assert (Htrim : forall l, l <> [] -> Trimmed l ->
                            (0 <? length (Str.trim (l ++ cr)))%nat = true).
  { intros l Hl Hlt. rewrite trim_app_spaces, Hlt by done.
    destruct l; [done|]. by apply Nat.ltb_lt; simpl; lia. }
  assert (H10 : forall l, 10 ∉ l -> 10 ∉ l ++ cr).
  { intros l Hl. by rewrite not_elem_of_app. }
  unfold validateContent. rewrite matchAll_separators.
  (* not blank *)
  assert (Hhead : exists a text', clippingsFile eol (c :: cs) = a :: text' /\
                                  Char.isSpace a = false).
  { destruct (Trimmed_nonempty_head t Htne Htt) as (a & t' & Ha & Hsp').
    rewrite Htext, Ha. by eexists a, _. }
  destruct Hhead as (a & text' & Hhead & Ha).
  rewrite bool_decide_eq_false_2 by (by rewrite Hhead).
  pose proof (trim_nonempty_start _ a text' Hhead Ha) as Hnb.
  destruct (Str.trim (clippingsFile eol (c :: cs))) as [|? ?] eqn:Etrim; [done|].
  cbn [length Nat.eqb orb].
  (* the delimiter occurs *)
  assert (Hocc : Str.includes delimiter (clippingsFile eol (c :: cs)) = true).
  { apply includes_Occurs. unfold clippingsFile. cbn [List.map concat].
    unfold clippingText at 1.
    exists (Str.join eol (clippingLines c) ++ eol),
      (eol ++ concat (List.map (clippingText eol) cs)).
    by rewrite <- !app_assoc. }
  rewrite Hocc. cbn [negb].
  (* three lines *)
  assert (Hlines : (3 <= length
    (List.filter (fun line => (0 <? length (Str.trim line))%nat)
       (Str.split (js (String "010" EmptyString)) (clippingsFile eol (c :: cs)))))%nat).
  { change (js (String "010" EmptyString)) with [10]. rewrite Htext.
    rewrite !nonblank_lines_piece by auto.
    rewrite !Htrim by done. rewrite !length_app. cbn [length].
    destruct Hx as [Hx|[Hx Hxt]].
    - destruct (Hnext Hx) as (y & tail' & -> & Hy10 & Hy & Hyt).
      rewrite nonblank_lines_piece by auto. rewrite (Htrim y) by done.
      rewrite length_app. simpl. lia.
    - rewrite (Htrim x) by done. simpl. lia. }
  apply Nat.ltb_ge in Hlines. rewrite Hlines.
  (* a location *)
  rewrite (test_locationNumber (clippingsFile eol (c :: cs))).
  - by rewrite !orb_true_r.
  - destruct Hw as (_ & _ & Hpage & Hloc & _).
    destruct (metadataLineOf_numberAfter (c_kind c) (c_page c) (c_location c)
                (c_date c) Hpage Hloc) as (d & Hd & Ho).
    exists d. split; [done|]. rewrite Htext. fold m in Ho.
    apply (Occurs_inside _ m ((t ++ cr) ++ [10])
             (cr ++ [10] ++ (x ++ cr) ++ [10] ++ tail)) in Ho.
    by rewrite <- !app_assoc in Ho |- *.
Qed.

Lemma validateContent_accepts_clippings_witness :
  validateContent
    (clippingsFile [13; 10]
       [mkClipping (js "Deep Work") (js "Cal Newport") Bookmark
          None (js "300") (js "Monday, January 1, 2024 1:00:00 PM") []])
  = Valid None.
Proof.
  apply validateContent_accepts_clippings; [by right|done|].
  unfold writable, plainTitle, plainAuthor, plainDate, inLine, digitRun.
  repeat match goal with
  | |- _ /\ _ => split
  | |- _ => progress cbn [c_title c_author c_kind c_page c_location c_date c_lines]
  | |- Forall _ (js _) => by apply (bool_decide_unpack _)
  | |- Forall _ (_ :: _) => constructor
  | |- Forall _ [] => constructor
  | |- forall pg, None = Some pg -> _ => intros ? [=]
  | |- ~ Occurs _ _ => rewrite <- includes_Occurs; by vm_compute
  | |- _ ∉ _ => by apply (bool_decide_unpack _)
  | |- Trimmed _ => by vm_compute
  | |- _ <> _ => done
  | |- _ = _ => reflexivity
  end.
  exists (js "300"). split; [split; [repeat constructor|done]|by left].
Defined.
